(** * Grocy -> OurGroceries reconciliation engine: a shallow embedding

    The development follows the Python sources:
    - [sync/item_matcher.py]       -> Module [ItemMatcher]
    - [utils/tracking.py]          -> Module [SyncTracker]
    - [sync/quantity_formatter.py] -> Module [QuantityFormatter]
    - [sync/deletion_manager.py], [clients/ourgroceries_client.py],
      [sync/sync_manager.py]       -> Module [Sync]

    Modelling conventions.
    - A Python [str] is a [string]; the text is taken to be ASCII, so
      [str.lower] maps 'A'..'Z' to 'a'..'z' and leaves the rest alone.
    - A Python dict used as a record becomes a Coq record whose optional
      keys are [option] fields; a dict used as a map becomes a [gmap].
    - A raised exception is a value [Raise e] of the result type [Res];
      code that mutates objects threads an explicit state.
    - A Python [float] is an IEEE 754 double, given by its exact value
      ([PyFloat]); every float operation rounds to the nearest double. *)

From Stdlib Require Import Ascii String List Bool ZArith QArith Qround Qabs Qpower Lia Lqa.
From stdpp Require Import base option list strings gmap pretty.



(** ** Python exceptions and the result type *)

Inductive exn : Type :=
  | AttributeError
  | ValueError
  | TypeError
  | KeyError
  | ZeroDivisionError
  | OverflowError.

Inductive Res (A : Type) : Type :=
  | Ok (a : A)
  | Raise (e : exn).
Arguments Ok {A} a.
Arguments Raise {A} e.

Global Instance Res_ret : MRet Res := fun _ a => Ok a.
Global Instance Res_bind : MBind Res := fun _ _ k m =>
  match m with
  | Ok a => k a
  | Raise e => Raise e
  end.

(** ** Python string primitives *)

Module PyStr.

(** [c.lower()] for one ASCII character. *)
Definition lower_ascii (c : ascii) : ascii :=
  let n := nat_of_ascii c in
  if (65 <=? n)%nat && (n <=? 90)%nat then ascii_of_nat (n + 32) else c.

(** [s.lower()] *)
Fixpoint lower (s : string) : string :=
  match s with
  | EmptyString => EmptyString
  | String c s' => String (lower_ascii c) (lower s')
  end.

(** [s.startswith(p)] *)
Fixpoint startswith (p s : string) : bool :=
  match p, s with
  | EmptyString, _ => true
  | String _ _, EmptyString => false
  | String a p', String b s' => if Ascii.eqb a b then startswith p' s' else false
  end.

(** [s[n:]] *)
Fixpoint drop (n : nat) (s : string) : string :=
  match n, s with
  | O, _ => s
  | S _, EmptyString => EmptyString
  | S n', String _ s' => drop n' s'
  end.

(** [s.partition(sep)] restricted to the case where [sep] occurs: the text
    before and the text after the first (leftmost) occurrence of [sep]. *)
Fixpoint partition (sep s : string) : option (string * string) :=
  if startswith sep s then Some (EmptyString, drop (String.length sep) s)
  else match s with
       | EmptyString => None
       | String c s' =>
           match partition sep s' with
           | Some (a, b) => Some (String c a, b)
           | None => None
           end
       end.

(** [sep in s] *)
Definition contains (sep s : string) : bool :=
  match partition sep s with Some _ => true | None => false end.

(** Characters removed by [str.strip()] (ASCII white space). *)
Definition is_space (c : ascii) : bool :=
  let n := nat_of_ascii c in
  ((9 <=? n)%nat && (n <=? 13)%nat) || ((28 <=? n)%nat && (n <=? 32)%nat).

Fixpoint lstrip (s : string) : string :=
  match s with
  | EmptyString => EmptyString
  | String c s' => if is_space c then lstrip s' else s
  end.

(** [s.rstrip()]: a character is kept when it is not a space or when
    something survives to its right. *)
Fixpoint rstrip (s : string) : string :=
  match s with
  | EmptyString => EmptyString
  | String c s' =>
      match rstrip s' with
      | EmptyString => if is_space c then EmptyString else String c EmptyString
      | r => String c r
      end
  end.

(** [s.strip()] *)
Definition strip (s : string) : string := rstrip (lstrip s).

(** [s.replace(' ', '')] *)
Fixpoint remove_spaces (s : string) : string :=
  match s with
  | EmptyString => EmptyString
  | String c s' =>
      if Ascii.eqb c " "%char then remove_spaces s' else String c (remove_spaces s')
  end.

(** Truth value of a string: [bool(s)] *)
Definition truthy (s : string) : bool :=
  match s with EmptyString => false | String _ _ => true end.

(** [s.split(sep)[0]]; Python raises [ValueError] on an empty separator. *)
Definition split_head (sep s : string) : Res string :=
  match sep with
  | EmptyString => Raise ValueError
  | String _ _ =>
      match partition sep s with
      | Some (a, _) => Ok a
      | None => Ok s
      end
  end.

(** [s.split(sep, 1)]: one or two parts. *)
Definition split_once (sep s : string) : Res (list string) :=
  match sep with
  | EmptyString => Raise ValueError
  | String _ _ =>
      match partition sep s with
      | Some (a, b) => Ok [a; b]
      | None => Ok [s]
      end
  end.

End PyStr.

(** ** sync/item_matcher.py *)

Module ItemMatcher.

(** A mirror list entry as the client hands it over: any JSON value; when
    it is a dict the keys ['id'], ['value'] and ['crossedOff'] may each be
    missing. *)
Inductive OgItem : Type :=
  | OgOther
  | OgDict (id : option string) (value : option string) (crossedOff : option bool).

Global Instance OgItem_eq_dec : EqDecision OgItem.
Proof. solve_decision. Defined.

Definition og_id (it : OgItem) : option string :=
  match it with OgDict i _ _ => i | OgOther => None end.
Definition og_value (it : OgItem) : option string :=
  match it with OgDict _ v _ => v | OgOther => None end.
Definition og_crossedOff (it : OgItem) : option bool :=
  match it with OgDict _ _ c => c | OgOther => None end.

(** [isinstance(it, dict) and 'value' in it and 'id' in it] *)
Definition well_formed (it : OgItem) : bool :=
  match it with
  | OgDict (Some _) (Some _) _ => true
  | _ => false
  end.

Record t : Type := mk {
  name_mappings : gmap string string;
  quantity_separator : string
}.

(** [map_item_name]; the argument is [None] when the caller passes Python's
    [None] (a product without a name), which is returned unchanged. *)
Definition map_item_name (m : t) (grocy_name : option string) : option string :=
  match grocy_name with
  | Some n => match name_mappings m !! n with
              | Some mapped => Some mapped
              | None => Some n
              end
  | None => None
  end.

(** [extract_base_name] *)
Definition extract_base_name (m : t) (item_value : string) : Res string :=
  let item_lower := PyStr.lower item_value in
  if PyStr.contains (quantity_separator m) item_lower then
    h ← PyStr.split_head (quantity_separator m) item_lower;
    Ok (PyStr.strip h)
  else if PyStr.contains "(" item_lower then
    h ← PyStr.split_head "(" item_lower;
    Ok (PyStr.strip h)
  else Ok item_lower.

(** [og_item_name.lower()] on a possibly-[None] name. *)
Definition lower_name (n : option string) : Res string :=
  match n with
  | Some s => Ok (PyStr.lower s)
  | None => Raise AttributeError
  end.

Fixpoint find_loop (m : t) (name_lower : string) (og_items : list OgItem)
  : Res (option OgItem) :=
  match og_items with
  | [] => Ok None
  | it :: rest =>
      match it with
      | OgDict (Some _) (Some v) _ =>
          b ← extract_base_name m v;
          if String.eqb name_lower b then Ok (Some it) else find_loop m name_lower rest
      | _ => find_loop m name_lower rest
      end
  end.

(** [find_matching_item] *)
Definition find_matching_item (m : t) (grocy_name : option string)
    (og_items : list OgItem) : Res (option OgItem) :=
  n ← lower_name (map_item_name m grocy_name);
  find_loop m n og_items.

(** The legacy pattern [\(([^()]+)\)(?:\s*\(\d+\))?] of [re.search]: the
    leftmost ['('] that is followed by a non-empty run of non-parenthesis
    characters and then [')']; group 1 is that run. *)
Definition is_paren (c : ascii) : bool :=
  Ascii.eqb c "("%char || Ascii.eqb c ")"%char.

Fixpoint span_non_paren (s : string) : string * string :=
  match s with
  | EmptyString => (EmptyString, EmptyString)
  | String c s' =>
      if is_paren c then (EmptyString, s)
      else let '(run, rest) := span_non_paren s' in (String c run, rest)
  end.

Fixpoint legacy_search (s : string) : option string :=
  match s with
  | EmptyString => None
  | String c s' =>
      if Ascii.eqb c "("%char then
        match span_non_paren s' with
        | (String r run, String ")" _) => Some (String r run)
        | _ => legacy_search s'
        end
      else legacy_search s'
  end.

(** [extract_existing_quantity] *)
Definition extract_existing_quantity (m : t) (item : OgItem) : Res (option string) :=
  match item with
  | OgDict _ (Some v) _ =>
      if PyStr.contains (quantity_separator m) v then
        parts ← PyStr.split_once (quantity_separator m) v;
        match parts with
        | [_; q] => Ok (Some q)
        | _ => Ok None
        end
      else Ok (legacy_search v)
  | _ => Ok None
  end.

(** [has_quantity_changed]; [existing_quantity] may be [None]. *)
Definition normalize (q : option string) : string :=
  match q with
  | Some s => if PyStr.truthy s then PyStr.remove_spaces (PyStr.lower s) else EmptyString
  | None => EmptyString
  end.

Definition has_quantity_changed (existing_quantity : option string)
    (new_quantity : string) : bool :=
  if decide (existing_quantity = Some new_quantity) then false
  else negb (String.eqb (normalize existing_quantity) (normalize (Some new_quantity))).

End ItemMatcher.

(** ** utils/tracking.py *)

Module SyncTracker.

(** The tracker object: [tracking_data["lists"]] (list id -> item ids, a
    JSON array, hence a list) and the log of documents handed to
    [_save_tracking_data], oldest first. *)
Record t : Type := mk {
  lists : gmap string (list string);
  saved : list (gmap string (list string))
}.

Definition _save_tracking_data (tr : t) : t :=
  mk (lists tr) (saved tr ++ [lists tr]).

Definition ids_of (tr : t) (list_id : string) : list string :=
  default [] (lists tr !! list_id).

(** [track_item]; the source's third argument, the item name, is not
    used by it and is left out. *)
Definition track_item (tr : t) (list_id item_id : string) : t :=
  let tr1 :=
    match lists tr !! list_id with
    | Some _ => tr
    | None => mk (<[list_id := []]> (lists tr)) (saved tr)
    end in
  if bool_decide (item_id ∈ ids_of tr1 list_id) then tr1
  else _save_tracking_data
         (mk (<[list_id := ids_of tr1 list_id ++ [item_id]]> (lists tr1)) (saved tr1)).

(** [is_tracked_item] *)
Definition is_tracked_item (tr : t) (list_id item_id : string) : bool :=
  match lists tr !! list_id with
  | Some ids => bool_decide (item_id ∈ ids)
  | None => false
  end.

(** [list.remove(x)]: drops the first occurrence. *)
Fixpoint list_remove_first (x : string) (l : list string) : list string :=
  match l with
  | [] => []
  | y :: l' => if decide (x = y) then l' else y :: list_remove_first x l'
  end.

(** [remove_tracking] *)
Definition remove_tracking (tr : t) (list_id item_id : string) : t :=
  if is_tracked_item tr list_id item_id then
    _save_tracking_data
      (mk (<[list_id := list_remove_first item_id (ids_of tr list_id)]> (lists tr))
          (saved tr))
  else tr.

End SyncTracker.

(** ** sync/quantity_formatter.py

    Numbers.  A number of the source data ([Numeric q]) is given by the
    value [q] that [float(...)] returns for it.  The arithmetic of the
    formatter is the arithmetic of Python floats, modelled below: every
    operation gives the float nearest to the exact result.  Where the
    arithmetic starts, a value is rounded to a float once more ([fl]):
    this leaves a value that is a float as it is and lets a decimal such
    as [5 # 100] stand for the float nearest to it. *)

Module QuantityFormatter.

Local Open Scope Q_scope.

(** A JSON scalar handed to [float(...)]: a number (or numeric text),
    which [float] accepts, or any other text, on which it raises. *)
Inductive PyVal : Type :=
  | Numeric (q : Q)
  | NonNumeric (s : string).

Definition py_float (v : PyVal) : Res Q :=
  match v with
  | Numeric q => Ok q
  | NonNumeric _ => Raise ValueError
  end.

Record Conversion : Type := mkConversion {
  from_qu_id : option Z;
  to_qu_id : option Z;
  factor : option PyVal
}.

Record Product : Type := mkProduct {
  name : option string;
  category_name : option string;
  qu_id_purchase : option Z;
  qu_id_stock : option Z;
  quantity_unit_conversions : option (list Conversion)
}.

Record GrocyItem : Type := mkGrocyItem {
  done : option Z;
  note : option string;
  amount : option PyVal;
  qu_id : option Z;
  product_details : option Product
}.

Definition same_unit (a b : option Z) : bool := bool_decide (a = b).

Definition is_conversion (a b : option Z) (c : Conversion) : bool :=
  same_unit (from_qu_id c) a && same_unit (to_qu_id c) b.

(** [float(conversion.get('factor', 1))] *)
Definition factor_of (c : Conversion) : Res Q :=
  py_float (default (Numeric 1) (factor c)).

(** [1 / x] *)
Definition py_inverse (x : Q) : Res Q :=
  if Qeq_bool x 0 then Raise ZeroDivisionError else Ok (1 / x).

(** [_find_conversion_factor] *)
Definition _find_conversion_factor (product : Product) (from_id to_id : option Z)
  : Res (option Q) :=
  match quantity_unit_conversions product with
  | None => Ok None
  | Some conversions =>
      match List.find (is_conversion from_id to_id) conversions with
      | Some c => f ← factor_of c; Ok (Some f)
      | None =>
          match List.find (is_conversion to_id from_id) conversions with
          | Some c => f ← factor_of c; i ← py_inverse f; Ok (Some i)
          | None => Ok None
          end
      end
  end.

(** The nearest integer of an exact number, ties to the even one. *)
Definition py_round (x : Q) : Z :=
  let f := Qfloor x in
  match Qcompare (x - inject_Z f) (1 # 2) with
  | Lt => f
  | Gt => (f + 1)%Z
  | Eq => if Z.even f then f else (f + 1)%Z
  end.

Definition Qltb (a b : Q) : bool := negb (Qle_bool b a).

(** *** Floats

    A Python float is an IEEE 754 binary64 number: a finite number, given
    here by its exact value, an infinity, or NaN.  The two zeros are not
    told apart; the code below compares and prints no zero before it has
    been turned into an [int].  A finite float is a multiple of [2 ^ e]
    with a mantissa below [2 ^ 53] and [e] at least [-1074]. *)
Inductive PyFloat : Type :=
  | Finite (q : Q)
  | Infinity (negative : bool)
  | NaN.

Definition pow2 (k : Z) : Q := Qpower 2 k.

(** The integer [k] with [2 ^ k <= |q| < 2 ^ (k + 1)], for [q] other
    than zero. *)
Definition ilog2 (q : Q) : Z :=
  let k := (Z.log2 (Z.abs (Qnum q)) - Z.log2 (Z.pos (Qden q)))%Z in
  if Qle_bool (pow2 k) (Qabs q) then k else (k - 1)%Z.

(** The float nearest to an exact number, ties to the even mantissa:
    the rounding of every float operation and of [float(...)].  Numbers
    that round to [2 ^ 1024] or beyond give an infinity; [float] of an
    [int] that large raises [OverflowError] at once, which is also how
    the conversion of an infinite amount ends. *)
Definition fl (q : Q) : PyFloat :=
  if Qeq_bool q 0 then Finite 0
  else
    let e := Z.max (ilog2 q - 52) (-1074) in
    let r := Qred (inject_Z (py_round (q / pow2 e)) * pow2 e) in
    if Qle_bool (pow2 1024) (Qabs r) then Infinity (Qltb q 0) else Finite r.

(** [q] is the value of a finite float: rounding leaves it as it is. *)
Definition is_float (q : Q) : bool :=
  match fl q with
  | Finite r => Qeq_bool r q
  | _ => false
  end.

(** [x * y] *)
Definition float_mul (a b : PyFloat) : PyFloat :=
  match a, b with
  | Finite x, Finite y => fl (x * y)
  | Finite x, Infinity s | Infinity s, Finite x =>
      if Qeq_bool x 0 then NaN else Infinity (xorb s (Qltb x 0))
  | Infinity s, Infinity s' => Infinity (xorb s s')
  | _, _ => NaN
  end.

(** [x - y] *)
Definition float_sub (a b : PyFloat) : PyFloat :=
  match a, b with
  | Finite x, Finite y => fl (x - y)
  | Finite _, Infinity s => Infinity (negb s)
  | Infinity s, Finite _ => Infinity s
  | Infinity s, Infinity s' => if Bool.eqb s s' then NaN else Infinity s
  | _, _ => NaN
  end.

(** [abs(x)] *)
Definition float_abs (a : PyFloat) : PyFloat :=
  match a with
  | Finite x => Finite (Qabs x)
  | Infinity _ => Infinity false
  | NaN => NaN
  end.

(** [x < y] *)
Definition float_lt (a b : PyFloat) : bool :=
  match a, b with
  | Finite x, Finite y => Qltb x y
  | Finite _, Infinity s => negb s
  | Infinity s, Finite _ => s
  | Infinity s, Infinity s' => s && negb s'
  | _, _ => false
  end.

(** [bool(x)]: every float but zero. *)
Definition float_truthy (a : PyFloat) : bool :=
  match a with
  | Finite x => negb (Qeq_bool x 0)
  | _ => true
  end.

(** [round(x, 2)]: the exact value is rounded to the nearest hundredth,
    ties to the even one, and the float nearest to that decimal is
    returned; infinities and NaN are returned as they are. *)
Definition py_round2 (x : PyFloat) : PyFloat :=
  match x with
  | Finite q => fl (inject_Z (py_round (q * 100)) / 100)
  | _ => x
  end.

(** [round(x)]: an [int]; it raises on an infinity and on NaN. *)
Definition float_round (x : PyFloat) : Res Z :=
  match x with
  | Finite q => Ok (py_round q)
  | Infinity _ => Raise OverflowError
  | NaN => Raise ValueError
  end.

(** The body of the [try] block of both conversion cases after
    [float(original_quantity)]: multiply, round to two places, then
    collapse to the nearest integer when close.  [round] is evaluated
    first and raises on an infinity and on NaN, so a float that is
    returned uncollapsed is finite.  The result is an [int] or a finite
    float, given by its value. *)
Definition convert (quantity conversion_factor : PyFloat) : Res Q :=
  let purchase_quantity := py_round2 (float_mul quantity conversion_factor) in
  nearest ← float_round purchase_quantity;
  if float_lt (float_abs (float_sub purchase_quantity (fl (inject_Z nearest))))
              (fl (5 # 100))
  then Ok (inject_Z nearest)
  else match purchase_quantity with
       | Finite r => Ok r
       | Infinity _ => Raise OverflowError
       | NaN => Raise ValueError
       end.

(** The value bound to [quantity]: the item's own amount (whatever JSON
    held, [None] for the default ['']) or a converted number. *)
Inductive Quantity : Type :=
  | Original (a : option PyVal)
  | Converted (q : Q).

(** [float(original_quantity)]; the missing amount is [''], which
    [float] rejects. *)
Definition float_of_amount (a : option PyVal) : Res Q :=
  match a with
  | Some v => py_float v
  | None => Raise ValueError
  end.

(** [if conversion_factor: try: ... except (ValueError, TypeError)]:
    the converted number, or [None] when nothing was converted.  The
    factor the lookup returned and the amount are floats: the float of a
    number is the float nearest to it, and the float of an inverse factor
    [1 / q] is the float quotient, the float nearest to [1 / q] for a
    factor [q] that is a float.  Exceptions other than the two caught
    ones leave. *)
Definition apply_factor (original_quantity : option PyVal) (conversion_factor : option Q)
  : Res (option Q) :=
  match conversion_factor with
  | Some f =>
      if float_truthy (fl f) then
        match float_of_amount original_quantity with
        | Ok x =>
            match convert (fl x) (fl f) with
            | Ok q => Ok (Some q)
            | Raise ValueError | Raise TypeError => Ok None
            | Raise e => Raise e
            end
        | Raise _ => Ok None
        end
      else Ok None
  | None => Ok None
  end.

(** The first half of [format_quantity]: the quantity and the unit id that
    the unit lookup is then made with. *)
Definition format_quantity_value (grocy_item : GrocyItem) : Res (Quantity * option Z) :=
  let original_quantity := amount grocy_item in
  match product_details grocy_item with
  | Some product =>
      let shopping_list_qu_id := qu_id grocy_item in
      let product_purchase_qu_id := qu_id_purchase product in
      let product_stock_qu_id := qu_id_stock product in
      if same_unit shopping_list_qu_id product_purchase_qu_id
         && negb (same_unit product_purchase_qu_id product_stock_qu_id) then
        cf ← _find_conversion_factor product product_stock_qu_id product_purchase_qu_id;
        converted ← apply_factor original_quantity cf;
        match converted with
        | Some q => Ok (Converted q, shopping_list_qu_id)
        | None => Ok (Original original_quantity, shopping_list_qu_id)
        end
      else if negb (same_unit shopping_list_qu_id product_purchase_qu_id) then
        cf ← _find_conversion_factor product shopping_list_qu_id product_purchase_qu_id;
        converted ← apply_factor original_quantity cf;
        match converted with
        | Some q => Ok (Converted q, product_purchase_qu_id)
        | None => Ok (Original original_quantity, shopping_list_qu_id)
        end
      else Ok (Original original_quantity, shopping_list_qu_id)
  | None => Ok (Original original_quantity, qu_id grocy_item)
  end.

(** *** Unit names *)

(** A quantity unit as the source client returns it.  Each of the keys
    ['id'], ['name'] and ['name_plural'] may be missing ([None]); a name
    that is present is a string or JSON null ([Some None]); of the id only
    the text that an f-string prints for it matters. *)
Record QuantityUnit : Type := mkQuantityUnit {
  unit_id : option string;
  unit_name : option (option string);
  unit_name_plural : option (option string)
}.

(** [s.endswith('s')] *)
Fixpoint ends_with_s (s : string) : bool :=
  match s with
  | EmptyString => false
  | String c EmptyString => Ascii.eqb c "s"%char
  | String _ s' => ends_with_s s'
  end.

(** [float(quantity)] for the quantity [format_quantity] hands over. *)
Definition float_of_quantity (quantity : Quantity) : Res Q :=
  match quantity with
  | Original a => float_of_amount a
  | Converted q => Ok q
  end.

(** [quantity_unit.get('name', f"unit {quantity_unit.get('id', '')}")];
    [None] is Python's [None]. *)
Definition name_or_default (quantity_unit : QuantityUnit) : option string :=
  match unit_name quantity_unit with
  | Some v => v
  | None => Some ("unit " +:+ default EmptyString (unit_id quantity_unit))
  end.

(** [quantity_unit.get(key)] for a name key. *)
Definition get_name (v : option (option string)) : option string :=
  match v with
  | Some s => s
  | None => None
  end.

(** [not v] for a name that is a string or [None]. *)
Definition py_not (v : option string) : bool :=
  match v with
  | Some s => negb (PyStr.truthy s)
  | None => true
  end.

(** [_get_unit_name]; only [ValueError] and [TypeError] are caught, so
    [unit.endswith] on [None] leaves with an [AttributeError]. *)
Definition _get_unit_name (quantity_unit : QuantityUnit) (quantity : Quantity)
  : Res (option string) :=
  match float_of_quantity quantity with
  | Ok qty_float =>
      if Qeq_bool qty_float 1 then Ok (name_or_default quantity_unit)
      else
        let unit :=
          match unit_name_plural quantity_unit with
          | Some v => v
          | None => name_or_default quantity_unit
          end in
        if bool_decide (unit = get_name (unit_name quantity_unit))
           && py_not (get_name (unit_name_plural quantity_unit)) then
          match unit with
          | Some u => Ok (Some (if negb (ends_with_s u) then u +:+ "s" else u))
          | None => Raise AttributeError
          end
        else Ok unit
  | Raise _ => Ok (name_or_default quantity_unit)
  end.

(** *** The quantity text *)

(** What [format_quantity] takes from outside: the answers of
    [grocy_client.get_quantity_unit], [None] for the empty dict it
    returns when the unit is not known or the request failed, and how
    Python prints numbers: [str] of a number of the source data and
    [repr] of a float, both by the value. *)
Record Render : Type := mkRender {
  get_quantity_unit : Z -> option QuantityUnit;
  number_str : Q -> string;
  float_repr : Q -> string
}.

(** [str(quantity)]: the missing amount is [''], a text is itself, and
    an [int] is printed in decimal; a converted quantity with a whole
    value is an [int], since [format_quantity] collapses every float
    with a whole value. *)
Definition py_str (render : Render) (quantity : Quantity) : string :=
  match quantity with
  | Original None => EmptyString
  | Original (Some (NonNumeric s)) => s
  | Original (Some (Numeric q)) => number_str render q
  | Converted q =>
      if Qeq_bool q (inject_Z (Qfloor q)) then pretty (Qfloor q)
      else float_repr render q
  end.

(** The second half of [format_quantity]: the unit is looked up when the
    unit id is neither missing nor zero, its name is chosen for the
    quantity, and the text is the printed quantity, followed by a blank
    and the unit name when there is one. *)
Definition quantity_text (render : Render) (quantity : Quantity) (unit_id : option Z)
  : Res string :=
  let quantity_unit :=
    match unit_id with
    | Some qu_id => if (qu_id =? 0)%Z then None else get_quantity_unit render qu_id
    | None => None
    end in
  unit ←
    match quantity_unit with
    | Some u => _get_unit_name u quantity
    | None => Ok None
    end;
  let quantity_str := py_str render quantity in
  Ok (match unit with
      | Some u => if PyStr.truthy u then quantity_str +:+ " " +:+ u else quantity_str
      | None => quantity_str
      end).

(** [format_quantity] *)
Definition format_quantity (render : Render) (grocy_item : GrocyItem)
  : Res (Quantity * string) :=
  '(quantity, unit_id) ← format_quantity_value grocy_item;
  quantity_str ← quantity_text render quantity unit_id;
  Ok (quantity, quantity_str).

End QuantityFormatter.

(** ** clients/ourgroceries_client.py, sync/deletion_manager.py and
       sync/sync_manager.py *)

Module Sync.

Import ItemMatcher QuantityFormatter.

(** *** Configuration *)

Record DeletionConfig : Type := mkDeletionConfig {
  enabled : bool;
  dry_run : bool;
  respect_crossed_off : bool;
  preserve_manual_items : bool
}.

Record Config : Type := mkConfig {
  matcher : ItemMatcher.t;
  category_mappings : gmap string string;
  use_categories : bool;
  deletion : DeletionConfig
}.

(** *** The mirror service and its client

    The OurGroceries service is outside the repository; it is modelled by
    the interface the client uses: per list id the items it holds, an
    add request that stores [{id, value}] under a new id at the end of
    the list and answers with that id, a remove request that drops the
    item of the given id.  Whether the n-th request succeeds is decided by
    [succeeds]; a failed request leaves the service unchanged and makes
    the client method return [False].  The client's item cache is
    dropped by every successful add or remove, so [get_list_items]
    returns what the service holds. *)

Inductive Call : Type :=
  | CallRemove (list_id item_id : string)
  | CallAdd (list_id value : string) (category : option string).

Record Env : Type := mkEnv {
  succeeds : nat -> bool;
  fresh_id : list string -> string;
  render : Render
}.

Record State : Type := mkState {
  og_lists : list (string * string);
  og_items : gmap string (list OgItem);
  last_added_item : option string;
  tracker : SyncTracker.t;
  calls : list Call
}.

Definition set_tracker (st : State) (tr : SyncTracker.t) : State :=
  mkState (og_lists st) (og_items st) (last_added_item st) tr (calls st).

(** [get_list_by_name]: first list whose name matches, case-insensitively;
    the caller reads its ['id']. *)
Definition get_list_by_name (st : State) (list_name : string) : option string :=
  snd <$> List.find
            (fun l => String.eqb (PyStr.lower (fst l)) (PyStr.lower list_name))
            (og_lists st).

(** [get_list_items] *)
Definition get_list_items (st : State) (list_id : string) : list OgItem :=
  default [] (og_items st !! list_id).

Definition service_remove (items : list OgItem) (item_id : string) : list OgItem :=
  filter (fun it => og_id it ≠ Some item_id) items.

Definition service_add (new_id value : string) (items : list OgItem) : list OgItem :=
  items ++ [OgDict (Some new_id) (Some value) None].

(** [remove_item_from_list] *)
Definition remove_item_from_list (env : Env) (list_id item_id : string) (st : State)
  : bool * State :=
  let requested := calls st ++ [CallRemove list_id item_id] in
  if succeeds env (length (calls st)) then
    (true, mkState (og_lists st)
                   (alter (fun items => service_remove items item_id) list_id (og_items st))
                   (last_added_item st) (tracker st) requested)
  else
    (false, mkState (og_lists st) (og_items st) (last_added_item st) (tracker st) requested).

(** The value written by [add_item_to_list]:
    [f"{item_name}{separator}{quantity}"] when a quantity is given. *)
Definition item_value (separator item_name quantity : string) : string :=
  if PyStr.truthy quantity then item_name +:+ separator +:+ quantity else item_name.

(** [add_item_to_list]; category resolution only chooses the category
    argument of the request, which is recorded by name.  The requests
    that [get_or_create_category] sends itself when a category is given
    (it reads the categories and creates a missing one) are not part of
    [calls]; statements about all the requests of a pass are made for
    items without category.  The id of the answer is cached as
    [last_added_item] when it is non-empty. *)
Definition add_item_to_list (env : Env) (separator : string) (list_id item_name : string)
    (quantity : string) (category : option string) (st : State) : bool * State :=
  let value := item_value separator item_name quantity in
  let requested := calls st ++ [CallAdd list_id value category] in
  if succeeds env (length (calls st)) then
    let items := get_list_items st list_id in
    let new_id := fresh_id env (omap og_id items) in
    (true, mkState (og_lists st)
                   (<[list_id := service_add new_id value items]> (og_items st))
                   (if PyStr.truthy new_id then Some new_id else last_added_item st)
                   (tracker st) requested)
  else
    (false, mkState (og_lists st) (og_items st) (last_added_item st) (tracker st) requested).

(** [get_last_added_item_id] *)
Definition get_last_added_item_id (st : State) : option string := last_added_item st.

(** *** DeletionManager *)

(** [grocy_item.get('done', 0) == 1] *)
Definition is_done (g : GrocyItem) : bool := bool_decide (default 0%Z (done g) = 1%Z).

(** The product name: [product.get('name')] when product details are
    present, else [grocy_item.get('note', 'Unknown item')]. *)
Definition product_name (g : GrocyItem) : option string :=
  match product_details g with
  | Some product => name product
  | None => Some (default "Unknown item" (note g))
  end.

(** The set [grocy_product_names] built by the first loop of
    [process_deletions]. *)
Fixpoint grocy_product_names (m : ItemMatcher.t) (grocy_items : list GrocyItem)
  : Res (gset string) :=
  match grocy_items with
  | [] => Ok ∅
  | g :: rest =>
      if is_done g then grocy_product_names m rest
      else
        n ← lower_name (map_item_name m (product_name g));
        names ← grocy_product_names m rest;
        Ok ({[ n ]} ∪ names)
  end.

(** The list [items_to_remove] built by the second loop. *)
Fixpoint items_to_remove (d : DeletionConfig) (m : ItemMatcher.t) (tr : SyncTracker.t)
    (og_list_id : string) (names : gset string) (og_items : list OgItem)
  : Res (list OgItem) :=
  match og_items with
  | [] => Ok []
  | it :: rest =>
      match it with
      | OgDict (Some id) (Some value) crossed =>
          if respect_crossed_off d && default false crossed then
            items_to_remove d m tr og_list_id names rest
          else if preserve_manual_items d
                  && negb (SyncTracker.is_tracked_item tr og_list_id id) then
            items_to_remove d m tr og_list_id names rest
          else
            base_name ← extract_base_name m value;
            marked ← items_to_remove d m tr og_list_id names rest;
            Ok (if bool_decide (base_name ∈ names) then marked else it :: marked)
      | _ => items_to_remove d m tr og_list_id names rest
      end
  end.

(** The third loop: the removals themselves. *)
Fixpoint process_removals (env : Env) (d : DeletionConfig) (og_list_id : string)
    (marked : list OgItem) (st : State) : State :=
  match marked with
  | [] => st
  | it :: rest =>
      if dry_run d then process_removals env d og_list_id rest st
      else
        match og_id it with
        | Some id =>
            let '(success, st1) := remove_item_from_list env og_list_id id st in
            process_removals env d og_list_id rest
              (if success
               then set_tracker st1 (SyncTracker.remove_tracking (tracker st1) og_list_id id)
               else st1)
        | None => process_removals env d og_list_id rest st
        end
  end.

(** [process_deletions] *)
Definition process_deletions (env : Env) (d : DeletionConfig) (m : ItemMatcher.t)
    (og_list_id : string) (grocy_items : list GrocyItem) (og_items : list OgItem)
    (st : State) : Res unit * State :=
  if negb (enabled d) then (Ok (), st)
  else
    match grocy_product_names m grocy_items with
    | Raise e => (Raise e, st)
    | Ok names =>
        match items_to_remove d m (tracker st) og_list_id names og_items with
        | Raise e => (Raise e, st)
        | Ok marked => (Ok (), process_removals env d og_list_id marked st)
        end
    end.

(** *** SyncManager *)

Definition map_category_name (cfg : Config) (grocy_category : string) : string :=
  default grocy_category (category_mappings cfg !! grocy_category).

(** [_get_product_info] *)
Definition _get_product_info (cfg : Config) (g : GrocyItem)
  : option string * option string :=
  match product_details g with
  | Some product =>
      (name product,
       match category_name product with
       | Some c =>
           if use_categories cfg && PyStr.truthy c
           then Some (map_category_name cfg c) else None
       | None => None
       end)
  | None => (Some (default "Unknown item" (note g)), None)
  end.

(** Record the id of the item just added, when the client knows one. *)
Definition track_last_added (og_list_id : string) (st : State) : State :=
  match get_last_added_item_id st with
  | Some new_item_id =>
      if PyStr.truthy new_item_id
      then set_tracker st (SyncTracker.track_item (tracker st) og_list_id new_item_id)
      else st
  | None => st
  end.

(** [_add_new_item] *)
Definition _add_new_item (env : Env) (cfg : Config) (og_list_id og_item_name : string)
    (quantity_str : string) (category : option string) (st : State) : State :=
  let '(success, st1) :=
    add_item_to_list env (quantity_separator (matcher cfg)) og_list_id og_item_name
                     quantity_str category st in
  if success then track_last_added og_list_id st1 else st1.

(** [_update_existing_item] *)
Definition _update_existing_item (env : Env) (cfg : Config) (existing_item : OgItem)
    (og_item_name quantity_str : string) (category : option string)
    (og_list_id : string) (st : State) : Res unit * State :=
  match extract_existing_quantity (matcher cfg) existing_item with
  | Raise e => (Raise e, st)
  | Ok existing_quantity =>
      if has_quantity_changed existing_quantity quantity_str then
        match og_id existing_item with
        | None => (Raise KeyError, st)
        | Some id =>
            let '(removed, st1) := remove_item_from_list env og_list_id id st in
            if removed then
              let '(added, st2) :=
                add_item_to_list env (quantity_separator (matcher cfg)) og_list_id
                                 og_item_name quantity_str category st1 in
              (Ok (), if added then track_last_added og_list_id st2 else st2)
            else (Ok (), st1)
        end
      else (Ok (), st)
  end.

(** [_process_grocy_item] *)
Definition _process_grocy_item (env : Env) (cfg : Config) (g : GrocyItem)
    (og_list_id : string) (og_items : list OgItem) (st : State) : Res unit * State :=
  let '(product_name, category) := _get_product_info cfg g in
  match format_quantity (render env) g with
  | Raise e => (Raise e, st)
  | Ok (_, quantity_str) =>
      let og_item_name := map_item_name (matcher cfg) product_name in
      match find_matching_item (matcher cfg) product_name og_items with
      | Raise e => (Raise e, st)
      | Ok existing =>
          match og_item_name with
          | None => (Raise AttributeError, st)
          | Some item_name =>
              match existing with
              | Some existing_item =>
                  _update_existing_item env cfg existing_item item_name quantity_str
                                        category og_list_id st
              | None =>
                  (Ok (), _add_new_item env cfg og_list_id item_name quantity_str
                                        category st)
              end
          end
      end
  end.

(** The loop over the source items in [sync_list]. *)
Fixpoint process_items (env : Env) (cfg : Config) (og_list_id : string)
    (og_items : list OgItem) (grocy_items : list GrocyItem) (st : State)
  : Res unit * State :=
  match grocy_items with
  | [] => (Ok (), st)
  | g :: rest =>
      if is_done g then process_items env cfg og_list_id og_items rest st
      else
        match _process_grocy_item env cfg g og_list_id og_items st with
        | (Ok _, st1) => process_items env cfg og_list_id og_items rest st1
        | (Raise e, st1) => (Raise e, st1)
        end
  end.

(** [sync_list]; [grocy_items] is what the source client returned for the
    list, and any exception ends the pass with [False]. *)
Definition sync_list (env : Env) (cfg : Config) (grocy_items : list GrocyItem)
    (ourgroceries_list_name : string) (st : State) : bool * State :=
  match grocy_items with
  | [] => (true, st)
  | _ :: _ =>
      match get_list_by_name st ourgroceries_list_name with
      | None => (false, st)
      | Some og_list_id =>
          let og_items := get_list_items st og_list_id in
          match process_items env cfg og_list_id og_items grocy_items st with
          | (Raise _, st1) => (false, st1)
          | (Ok _, st1) =>
              match process_deletions env (deletion cfg) (matcher cfg) og_list_id
                                      grocy_items og_items st1 with
              | (Raise _, st2) => (false, st2)
              | (Ok _, st2) => (true, st2)
              end
          end
      end
  end.

End Sync.

(** ** Specification-side notions *)

(** The comparison key of a quantity string as the specification words
    it: lower-cased, with every space character removed. *)
Definition folded (s : string) : string := PyStr.remove_spaces (PyStr.lower s).

(** A product stores a conversion from unit [a] to unit [b]. *)
Definition has_conversion (product : QuantityFormatter.Product) (a b : option Z) : bool :=
  match QuantityFormatter.quantity_unit_conversions product with
  | Some cs => existsb (QuantityFormatter.is_conversion a b) cs
  | None => false
  end.

(** A stored factor the lookup can use in both directions: absent (it
    then counts as 1) or a nonzero number. *)
Definition usable_factor (c : QuantityFormatter.Conversion) : bool :=
  match QuantityFormatter.factor c with
  | None => true
  | Some (QuantityFormatter.Numeric q) => negb (Qeq_bool q 0)
  | Some (QuantityFormatter.NonNumeric _) => false
  end.

(** ** Notions used to reason about a pass *)

(** The match key of a mirror entry: the base name of a well-formed
    entry. *)
Definition base_of (m : ItemMatcher.t) (it : ItemMatcher.OgItem) : option string :=
  match it with
  | ItemMatcher.OgDict (Some _) (Some v) _ =>
      match ItemMatcher.extract_base_name m v with
      | Ok b => Some b
      | Raise _ => None
      end
  | _ => None
  end.

Definition has_base (m : ItemMatcher.t) (name_lower : string) (it : ItemMatcher.OgItem)
  : bool :=
  bool_decide (base_of m it = Some name_lower).

(** The canonical entry of a source item, as [_process_grocy_item]
    computes it before it looks at the mirror: mapped name, quantity text,
    category.  It raises when the quantity formatter raises or when the
    product has no name. *)
Definition entry (env : Sync.Env) (cfg : Sync.Config) (g : QuantityFormatter.GrocyItem)
  : Res (string * string * option string) :=
  match QuantityFormatter.format_quantity (Sync.render env) g with
  | Raise e => Raise e
  | Ok (_, quantity_str) =>
      match ItemMatcher.map_item_name (Sync.matcher cfg) (Sync.product_name g) with
      | None => Raise AttributeError
      | Some og_item_name =>
          Ok (og_item_name, quantity_str, snd (Sync._get_product_info cfg g))
      end
  end.

(** The entries of the open source items that have one. *)
Definition entries (env : Sync.Env) (cfg : Sync.Config)
    (gs : list QuantityFormatter.GrocyItem) : list (string * string * option string) :=
  omap (fun g => if Sync.is_done g then None
                 else match entry env cfg g with
                      | Ok e => Some e
                      | Raise _ => None
                      end) gs.

(** The entries a pass gets to, in order, and how its loop ends. *)
Fixpoint run_entries (env : Sync.Env) (cfg : Sync.Config)
    (gs : list QuantityFormatter.GrocyItem)
  : list (string * string * option string) * Res unit :=
  match gs with
  | [] => ([], Ok ())
  | g :: rest =>
      if Sync.is_done g then run_entries env cfg rest
      else match entry env cfg g with
           | Ok e => let '(es, r) := run_entries env cfg rest in (e :: es, r)
           | Raise x => ([], Raise x)
           end
  end.

Definition entry_key (e : string * string * option string) : string :=
  PyStr.lower (fst (fst e)).

(** A name and quantity text that the matcher recognises again in the
    value the client writes for them: the lower-cased name is trimmed;
    with a quantity, the separator first occurs in name + separator at
    the end of the name; without one, the name contains neither the
    separator nor an opening parenthesis. *)
Definition clean_entry (sep : string) (e : string * string * option string) : bool :=
  let ln := entry_key e in
  bool_decide (PyStr.strip ln = ln)
  && (if PyStr.truthy (snd (fst e))
      then bool_decide (PyStr.partition sep (ln +:+ sep) = Some (ln, EmptyString))
      else negb (PyStr.contains sep ln) && negb (PyStr.contains "(" ln)).

(** The mirror items [M] already hold the entry: the matcher finds an
    item for the name whose quantity compares as unchanged. *)
Definition settled (m : ItemMatcher.t) (M : list ItemMatcher.OgItem)
    (e : string * string * option string) : Prop :=
  exists it eq,
    List.find (has_base m (entry_key e)) M = Some it
    /\ ItemMatcher.extract_existing_quantity m it = Ok eq
    /\ ItemMatcher.has_quantity_changed eq (snd (fst e)) = false.

(** What one source entry does to the mirror items [M] during a pass
    that matches against the snapshot [S0], when every request succeeds. *)
Definition step_items (fresh : list string -> string) (m : ItemMatcher.t)
    (S0 M : list ItemMatcher.OgItem) (e : string * string * option string)
  : list ItemMatcher.OgItem :=
  let value := Sync.item_value (ItemMatcher.quantity_separator m) (fst (fst e)) (snd (fst e)) in
  match List.find (has_base m (entry_key e)) S0 with
  | Some it =>
      match ItemMatcher.extract_existing_quantity m it, ItemMatcher.og_id it with
      | Ok eq, Some id =>
          if ItemMatcher.has_quantity_changed eq (snd (fst e)) then
            let M1 := Sync.service_remove M id in
            Sync.service_add (fresh (omap ItemMatcher.og_id M1)) value M1
          else M
      | _, _ => M
      end
  | None => Sync.service_add (fresh (omap ItemMatcher.og_id M)) value M
  end.

(** The relation between the snapshot [S0] a pass started from, the
    keys [N] of all its entries, the entries [P] handled so far and the
    mirror items [M] at that point. *)
Record pass_inv (m : ItemMatcher.t) (S0 : list ItemMatcher.OgItem) (N : list string)
    (P : list (string * string * option string)) (M : list ItemMatcher.OgItem) : Prop :=
  mk_pass_inv {
    inv_settled : forall e, e ∈ P -> settled m M e;
    inv_keys : forall e, e ∈ P -> entry_key e ∈ N;
    inv_kept : forall x b, x ∈ S0 -> base_of m x = Some b ->
                 b ∉ entry_key <$> P -> x ∈ M;
    inv_origin : forall x b, x ∈ M -> base_of m x = Some b ->
                   x ∈ S0 \/ b ∈ entry_key <$> P;
    inv_ids : NoDup (omap ItemMatcher.og_id M);
    inv_fresh : forall y x b, y ∈ M -> y ∉ S0 -> x ∈ S0 -> base_of m x = Some b ->
                  b ∉ N -> ItemMatcher.og_id y <> ItemMatcher.og_id x
  }.

(** The items of the mirror list a pass is about to read: those of the
    list of the given name, nothing when there is no such list. *)
Definition mirror_snapshot (st : Sync.State) (ourgroceries_list_name : string)
  : list ItemMatcher.OgItem :=
  match Sync.get_list_by_name st ourgroceries_list_name with
  | Some og_list_id => Sync.get_list_items st og_list_id
  | None => []
  end.

(** ** Scenarios *)

Module Scenario.

Import ItemMatcher QuantityFormatter Sync.

(** A product bought in unit 8 and stocked in unit 5, with one stored
    conversion. *)
Definition product_with (c : Conversion) : Product :=
  mkProduct (Some "Water") None (Some 8%Z) (Some 5%Z) (Some [c]).

(** The conversion of the test suite: one unit 5 is two units 8. *)
Definition stock_to_purchase : Conversion :=
  mkConversion (Some 5%Z) (Some 8%Z) (Some (Numeric 2)).

(** Only the opposite direction is stored, with the given factor. *)
Definition purchase_to_stock (f : option PyVal) : Conversion :=
  mkConversion (Some 8%Z) (Some 5%Z) f.

(** One unit 5 is a thousandth of a unit 8 (grams and kilograms). *)
Definition gram_to_kilogram : Conversion :=
  mkConversion (Some 5%Z) (Some 8%Z) (Some (Numeric (1 # 1000))).


(** The deletion-guard scenario of the specification: one open source
    item "Water"; the mirror holds "Water : 3 Bottles" and a crossed-off
    "Eggs : 12"; crossed-off entries are respected, manual entries are
    not preserved, nothing is tracked. *)
Definition default_matcher : ItemMatcher.t := ItemMatcher.mk ∅ " : ".

Definition water : GrocyItem :=
  mkGrocyItem (Some 0%Z) None (Some (Numeric 3)) (Some 8%Z)
    (Some (mkProduct (Some "Water") None (Some 8%Z) (Some 8%Z) None)).

Definition mirror_items : list OgItem :=
  [OgDict (Some "i1") (Some "Water : 3 Bottles") None;
   OgDict (Some "i2") (Some "Eggs : 12") (Some true)].

Definition guards : DeletionConfig := mkDeletionConfig true false true false.

Definition empty_tracker : SyncTracker.t := SyncTracker.mk ∅ [].

Definition config : Config := mkConfig default_matcher ∅ false guards.

(** A mirror on which every request succeeds; a new id is the letter n
    followed by all ids in use, hence longer than each of them; the
    quantity text is the one of the scenario. *)
Definition new_id (used : list string) : string := "n" +:+ String.concat "" used.

Definition bottle : QuantityUnit :=
  mkQuantityUnit (Some "8") (Some (Some "Bottle")) (Some (Some "Bottles")).

Definition environment : Env :=
  mkEnv (fun _ => true) new_id
        (mkRender (fun _ => Some bottle) (fun _ => "3") (fun _ => EmptyString)).

Definition state (items : list OgItem) : State :=
  mkState [("Shopping", "L")] {["L" := items]} None empty_tracker [].

(** A mirror list with an outdated "Water" entry, a crossed-off entry
    and a stale entry. *)
Definition stale_mirror_items : list OgItem :=
  [OgDict (Some "i1") (Some "Water : 2 Bottles") None;
   OgDict (Some "i2") (Some "Eggs : 12") (Some true);
   OgDict (Some "i3") (Some "Bread") None].

(** Two open source lines of the same name "Milk", one unit and two
    units, without product details and without unit; their quantity
    texts are "1" and "2". *)
Definition milk (n : Q) : GrocyItem :=
  mkGrocyItem (Some 0%Z) (Some "Milk") (Some (Numeric n)) None None.

Definition render_amount : Render :=
  mkRender (fun _ => None)
           (fun x => if Qeq_bool x 1 then "1" else "2")
           (fun _ => EmptyString).

Definition milk_environment : Env := mkEnv (fun _ => true) new_id render_amount.

End Scenario.

(** ** Further notions for statements about strings *)

(** Every character of [s] satisfies [P]. *)
Fixpoint all_chars (P : ascii -> bool) (s : string) : bool :=
  match s with
  | EmptyString => true
  | String c s' => P c && all_chars P s'
  end.

(** No parenthesis occurs in [s]. *)
Definition paren_free (s : string) : bool :=
  all_chars (fun c => negb (ItemMatcher.is_paren c)) s.

(** No opening parenthesis occurs in [s]. *)
Definition open_paren_free (s : string) : bool :=
  all_chars (fun c => negb (Ascii.eqb c "("%char)) s.

(** A value in the legacy format: name, parenthesised quantity, and
    whatever follows (such as a counter " (2)"). *)
Definition legacy_value (name quantity rest : string) : string :=
  name +:+ "(" +:+ quantity +:+ ")" +:+ rest.

(** A character that [str.lower] leaves as it is. *)
Definition lower_char (c : ascii) : bool := Ascii.eqb (PyStr.lower_ascii c) c.

(** ** Notions used to reason about the requests of a pass *)

(** The state after a pass differs from the state before it only in
    the mirror list [l]: the known lists are the same, the items and the
    ledger entries of the other lists are the same, the log of ledger
    writes has only grown, and the requests sent since all satisfy [P]. *)
Record frame (P : Sync.Call -> Prop) (l : string) (st st' : Sync.State) : Prop :=
  mk_frame {
    frame_lists : Sync.og_lists st' = Sync.og_lists st;
    frame_items : forall l', l' <> l ->
      Sync.og_items st' !! l' = Sync.og_items st !! l';
    frame_ledger : forall l', l' <> l ->
      SyncTracker.lists (Sync.tracker st') !! l' = SyncTracker.lists (Sync.tracker st) !! l';
    frame_saved : exists w,
      SyncTracker.saved (Sync.tracker st') = SyncTracker.saved (Sync.tracker st) ++ w;
    frame_calls : exists new, Sync.calls st' = Sync.calls st ++ new /\ Forall P new
  }.

(** A request a pass on list [l] may send, given the mirror items [S]
    it read at its start and the source items [gs]: the removal of an
    item of [S], or the creation of the entry of an open source item. *)
Definition justified (env : Sync.Env) (cfg : Sync.Config) (l : string)
    (S : list ItemMatcher.OgItem) (gs : list QuantityFormatter.GrocyItem)
    (c : Sync.Call) : Prop :=
  match c with
  | Sync.CallRemove l' i =>
      l' = l /\ exists it, it ∈ S /\ ItemMatcher.og_id it = Some i
  | Sync.CallAdd l' v cat =>
      l' = l
      /\ exists g n q,
           g ∈ gs /\ Sync.is_done g = false /\ entry env cfg g = Ok (n, q, cat)
           /\ v = Sync.item_value (ItemMatcher.quantity_separator (Sync.matcher cfg)) n q
  end.

(** The mirror client is handed no category for the open items of
    [gs], as it is with categories switched off.  It then sends no
    request of its own for a category. *)
Definition no_categories (cfg : Sync.Config) (gs : list QuantityFormatter.GrocyItem)
  : Prop :=
  forall g, g ∈ gs -> Sync.is_done g = false ->
            snd (Sync._get_product_info cfg g) = None.

(** The removal step of the deletion policy for one marked item. *)
Definition delete_step (env : Sync.Env) (l i : string) (st : Sync.State) : Sync.State :=
  let '(success, st1) := Sync.remove_item_from_list env l i st in
  if success
  then Sync.set_tracker st1 (SyncTracker.remove_tracking (Sync.tracker st1) l i)
  else st1.

(** ** sync/sync_manager.py: the run over all configured lists *)

Module SyncAll.

Import QuantityFormatter Sync.

(** [test_connections] *)
Definition test_connections (grocy_ok og_ok : bool) : bool :=
  if grocy_ok && og_ok then true else false.

(** The loop of [sync_all_lists]; each configured mapping is given as
    the items the source client returns for its list and the name of the
    target list. *)
Fixpoint sync_lists (env : Env) (cfg : Config)
    (mappings : list (list GrocyItem * string)) (success : bool) (st : State)
  : bool * State :=
  match mappings with
  | [] => (success, st)
  | (grocy_items, og_list_name) :: rest =>
      let '(ok, st1) := sync_list env cfg grocy_items og_list_name st in
      sync_lists env cfg rest (if negb ok then false else success) st1
  end.

(** [sync_all_lists]; [grocy_ok] and [og_ok] are the answers of the two
    connection tests. *)
Definition sync_all_lists (env : Env) (cfg : Config) (grocy_ok og_ok : bool)
    (mappings : list (list GrocyItem * string)) (st : State) : bool * State :=
  if negb (test_connections grocy_ok og_ok) then (false, st)
  else sync_lists env cfg mappings true st.

End SyncAll.

(** ** Further scenarios *)

Module Examples.

Import ItemMatcher QuantityFormatter Sync.

(** A mirror that rejects every request. *)
Definition dead_environment : Env :=
  mkEnv (fun _ => false) Scenario.new_id (render Scenario.environment).

(** The deletion settings [DeletionManager] falls back to: disabled,
    dry run, both guards on. *)
Definition default_deletion : DeletionConfig := mkDeletionConfig false true true true.

Definition quiet_config : Config :=
  mkConfig Scenario.default_matcher ∅ false default_deletion.

(** The stale mirror list with its first and third entries tracked. *)
Definition tracked_state : State :=
  mkState [("Shopping", "L")] {["L" := Scenario.stale_mirror_items]} None
          (SyncTracker.mk {["L" := ["i1"; "i3"]]} []) [].

End Examples.

(** ** sync/quantity_formatter.py: the stand-alone conversion *)

Module QuantityUnits.

Import QuantityFormatter.

Local Open Scope Q_scope.

(** [x > 0] *)
Definition float_positive (x : PyFloat) : bool := float_lt (Finite 0) x.

(** [_convert_quantity]: its own two loops over the stored conversions,
    then the conversion with a positive factor.  [int(converted)] raises
    on an infinity, which the [except] clause does not catch, and on NaN,
    which it does; a finite result is an [int] or a float, given by its
    value. *)
Definition _convert_quantity (product : Product) (original_quantity : option PyVal)
    (from_id to_id : option Z) : Res Quantity :=
  conversion_factor ←
    match quantity_unit_conversions product with
    | Some conversions =>
        direct ←
          match List.find (is_conversion from_id to_id) conversions with
          | Some c => f ← factor_of c; Ok (Some f)
          | None => Ok None
          end;
        match direct with
        | Some f => Ok (Some f)
        | None =>
            match List.find (is_conversion to_id from_id) conversions with
            | Some c => f ← factor_of c; i ← py_inverse f; Ok (Some i)
            | None => Ok None
            end
        end
    | None => Ok None
    end;
  match conversion_factor with
  | Some f =>
      if float_truthy (fl f) && float_positive (fl f) then
        match float_of_amount original_quantity with
        | Ok stock_quantity =>
            match py_round2 (float_mul (fl stock_quantity) (fl f)) with
            | Finite converted_quantity => Ok (Converted converted_quantity)
            | Infinity _ => Raise OverflowError
            | NaN => Ok (Original original_quantity)
            end
        | Raise _ => Ok (Original original_quantity)
        end
      else Ok (Original original_quantity)
  | None => Ok (Original original_quantity)
  end.

End QuantityUnits.

(** ** clients/ourgroceries_client.py: retries and category ids *)

Module OurGroceriesClient.

(** How [_run_with_retry] ends: with the value of the first attempt
    that went through, with [OurGroceriesApiError], with the [ValueError]
    of [time.sleep] on a negative delay, or, when the loop has no
    iteration at all, by falling off its end (Python's [None]). *)
Inductive RetryOutcome (A : Type) : Type :=
  | Returned (r : A)
  | ApiError
  | SleepError
  | NoAttempt.

Arguments Returned {A} r.
Arguments ApiError {A}.
Arguments SleepError {A}.
Arguments NoAttempt {A}.

(** The loop [for attempt in range(max_retries + 1)], from iteration
    [attempt] on with [todo] iterations left.  [attempts k] is what the
    k-th attempt (authentication, then the call) gives: a value, or [None]
    when it raised.  The delays slept so far are collected. *)
Fixpoint retry_loop {A : Type} (attempts : nat -> option A)
    (max_retries retry_delay : Z) (todo attempt : nat) (slept : list Z)
  : RetryOutcome A * list Z :=
  match todo with
  | O => (NoAttempt, slept)
  | S todo' =>
      match attempts attempt with
      | Some r => (Returned r, slept)
      | None =>
          if (max_retries <=? Z.of_nat attempt)%Z then (ApiError, slept)
          else
            let delay := (retry_delay * 2 ^ Z.of_nat attempt)%Z in
            if (delay <? 0)%Z then (SleepError, slept)
            else retry_loop attempts max_retries retry_delay todo' (S attempt)
                            (slept ++ [delay])
      end
  end.

(** [_run_with_retry] *)
Definition _run_with_retry {A : Type} (attempts : nat -> option A)
    (max_retries retry_delay : Z) : RetryOutcome A * list Z :=
  retry_loop attempts max_retries retry_delay (Z.to_nat (max_retries + 1)) 0 [].

(** [find_category_in_category_mappings]; [category_ids] is the
    configured dict in its iteration order, keys distinct. *)
Definition find_category_in_category_mappings (category_ids : list (string * string))
    (category_name : string) : option string :=
  let category_name_lower := PyStr.lower category_name in
  match List.find (fun kv => String.eqb (fst kv) category_name_lower) category_ids with
  | Some kv => Some (snd kv)
  | None =>
      snd <$> List.find
                (fun kv => PyStr.contains (fst kv) category_name_lower
                           || PyStr.contains category_name_lower (fst kv))
                category_ids
  end.

End OurGroceriesClient.

(** ** clients/grocy_client.py: requests with retries *)

Module GrocyClient.

(** What one HTTP request gives: a response with a status code, a
    connection error or timeout, or any other exception. *)
Inductive Attempt : Type :=
  | Status (code : Z)
  | ConnectionFailed
  | OtherFailure.

(** How [_make_request] ends: with the response, or with one of
    [GrocyAuthenticationError], [GrocyConnectionError], [GrocyApiError]. *)
Inductive Outcome : Type :=
  | Response (code : Z)
  | AuthenticationError
  | ConnectionError
  | ApiError.

(** [except Exception] around a retry made from inside the [try] block:
    an authentication error passes, every other error becomes
    [GrocyApiError]. *)
Definition rewrap (o : Outcome) : Outcome :=
  match o with
  | Response code => Response code
  | AuthenticationError => AuthenticationError
  | ConnectionError => ApiError
  | ApiError => ApiError
  end.

(** [_make_request] at retry count [retry_count], where [retries_left]
    is [max_retries - retry_count] (so [retry_count < max_retries] reads
    [retries_left] is a successor).  [attempts k] is what the request made
    at retry count [k] gives; the waits are collected. *)
Fixpoint request_from (attempts : nat -> Attempt) (retries_left retry_count : nat)
    (waited : list Z) : Outcome * list Z :=
  match attempts retry_count with
  | Status code =>
      if (code =? 401)%Z then (AuthenticationError, waited)
      else if ((400 <=? code) && (code <? 600))%Z then
        if (500 <=? code)%Z then
          match retries_left with
          | S remaining =>
              let '(o, w) :=
                request_from attempts remaining (S retry_count)
                             (waited ++ [(2 ^ Z.of_nat retry_count)%Z]) in
              (rewrap o, w)
          | O => (ApiError, waited)
          end
        else (ApiError, waited)
      else (Response code, waited)
  | ConnectionFailed =>
      match retries_left with
      | S remaining =>
          request_from attempts remaining (S retry_count)
                       (waited ++ [(2 ^ Z.of_nat retry_count)%Z])
      | O => (ConnectionError, waited)
      end
  | OtherFailure => (ApiError, waited)
  end.

(** [_make_request] as the methods of the client call it. *)
Definition _make_request (attempts : nat -> Attempt) (max_retries : Z)
  : Outcome * list Z :=
  request_from attempts (Z.to_nat max_retries) 0 [].

(** [test_connection] *)
Definition test_connection (attempts : nat -> Attempt) (max_retries : Z) : bool :=
  match fst (_make_request attempts max_retries) with
  | Response _ => true
  | _ => false
  end.

(** An attempt after which [_make_request] tries again when it may. *)
Definition retried (a : Attempt) : bool :=
  match a with
  | Status code => (500 <=? code)%Z && (code <? 600)%Z
  | ConnectionFailed => true
  | OtherFailure => false
  end.

End GrocyClient.

(** ** clients/ourgroceries_client.py: the cache of list items

    The client of module [Sync] is the client below seen through its
    cache: [service] is what the mirror holds per list, [cache_items] and
    [cache_time] are [_cache['list_items']] and
    [_cache_time['list_items']].  Whether a request (with its retries)
    goes through is an argument of each method; time is in seconds. *)

Module CachedClient.

Import ItemMatcher.

Local Open Scope Q_scope.

Record Client : Type := mkClient {
  service : gmap string (list OgItem);
  cache_items : gmap string (list OgItem);
  cache_time : gmap string Q
}.

(** [_cache_expiry['list_items']] *)
Definition expiry : Q := 60.

(** What the mirror holds for a list. *)
Definition held (c : Client) (list_id : string) : list OgItem :=
  default [] (service c !! list_id).

(** [get_list_items] at time [now]: the cached items while they are
    younger than the expiry; otherwise a request, whose answer is cached,
    or [[]] when the request fails. *)
Definition get_list_items (request_ok : bool) (now : Q) (list_id : string) (c : Client)
  : list OgItem * Client :=
  let fetch :=
    if request_ok then
      let items := held c list_id in
      (items, mkClient (service c) (<[list_id := items]> (cache_items c))
                       (<[list_id := now]> (cache_time c)))
    else ([], c) in
  match cache_time c !! list_id, cache_items c !! list_id with
  | Some t, Some items =>
      if QuantityFormatter.Qltb (now - t) expiry then (items, c) else fetch
  | _, _ => fetch
  end.

(** The invalidation after a request that went through:
    [if list_id in cache: del cache[list_id]; if list_id in times: del
    times[list_id]]. *)
Definition invalidate (list_id : string) (c : Client) : Client :=
  match cache_items c !! list_id with
  | Some _ =>
      mkClient (service c) (delete list_id (cache_items c))
               (delete list_id (cache_time c))
  | None => c
  end.

(** [add_item_to_list]; [item] is the item the mirror stores. *)
Definition add_item_to_list (request_ok : bool) (list_id : string) (item : OgItem)
    (c : Client) : bool * Client :=
  if request_ok then
    (true,
     invalidate list_id
       (mkClient (<[list_id := held c list_id ++ [item]]> (service c))
                 (cache_items c) (cache_time c)))
  else (false, c).

(** [remove_item_from_list] *)
Definition remove_item_from_list (request_ok : bool) (list_id item_id : string)
    (c : Client) : bool * Client :=
  if request_ok then
    (true,
     invalidate list_id
       (mkClient (alter (fun items => Sync.service_remove items item_id) list_id
                        (service c))
                 (cache_items c) (cache_time c)))
  else (false, c).

(** Every cached list is the list the mirror holds. *)
Definition coherent (c : Client) : Prop :=
  forall list_id items, cache_items c !! list_id = Some items -> items = held c list_id.

End CachedClient.

(** ** clients/grocy_client.py: reading a shopping list *)

Module GrocySource.

Import GrocyClient.

(** [get_shopping_list_items]: what the answer holds, product details
    attached, when the request went through ([body], by status code), and
    [[]] on every [GrocyApiError]. *)
Definition get_shopping_list_items (attempts : nat -> Attempt) (max_retries : Z)
    (body : Z -> list QuantityFormatter.GrocyItem) : list QuantityFormatter.GrocyItem :=
  match fst (_make_request attempts max_retries) with
  | Response code => body code
  | _ => []
  end.

End GrocySource.

(** * Properties *)

(** ** ItemMatcher *)

Section ItemMatcherFacts.

Lemma normalize_folded (s : string) : ItemMatcher.normalize (Some s) = folded s.
Proof. destruct s; reflexivity. Qed.

(** C6: [has_quantity_changed a b] is [False] exactly when [a] and [b]
    coincide after lower-casing and removal of all spaces, a missing
    existing quantity counting as the empty string; in particular
    ("1 Gallon", "1gallon") is unchanged and ("1 gallon", "2 gallons") is
    changed. *)
Theorem has_quantity_changed_iff_folded (a : option string) (b : string) :
  (ItemMatcher.has_quantity_changed a b = false <-> folded (default "" a) = folded b)
  /\ ItemMatcher.has_quantity_changed (Some "1 Gallon") "1gallon" = false
  /\ ItemMatcher.has_quantity_changed (Some "1 gallon") "2 gallons" = true.
Proof.
  split; [| split; reflexivity].
  unfold ItemMatcher.has_quantity_changed.
  assert (Hn : ItemMatcher.normalize a = folded (default "" a)).
  { destruct a as [s|]; [apply normalize_folded | reflexivity]. }
  rewrite normalize_folded, Hn.
  destruct (decide (a = Some b)) as [->|Hne].
  - split; [reflexivity | reflexivity].
  - rewrite negb_false_iff. apply String.eqb_eq.
Qed.

(** C5, at a separator with an upper-case letter: the value contains the
    separator, [extract_existing_quantity] splits on it, but
    [extract_base_name] looks for it in the lower-cased value, misses it
    and returns the whole lower-cased value instead of "milk". *)
Theorem extract_base_name_uppercase_separator :
  let m := ItemMatcher.mk ∅ " X " in
  PyStr.contains " X " "Milk X 2" = true
  /\ ItemMatcher.extract_existing_quantity m
       (ItemMatcher.OgDict (Some "i1") (Some "Milk X 2") None) = Ok (Some "2")
  /\ ItemMatcher.extract_base_name m "Milk X 2" = Ok "milk x 2"
  /\ ItemMatcher.extract_base_name m "Milk X 2" <> Ok "milk".
Proof. repeat split; try reflexivity. discriminate. Qed.

End ItemMatcherFacts.

(** ** SyncTracker *)

Section SyncTrackerFacts.

Import SyncTracker.

Lemma is_tracked_ids_of (tr : t) (l i : string) :
  is_tracked_item tr l i = bool_decide (i ∈ ids_of tr l).
Proof.
  unfold is_tracked_item, ids_of. destruct (lists tr !! l); [done|].
  symmetry. apply bool_decide_eq_false_2, not_elem_of_nil.
Qed.

Lemma track_item_tracked (tr : t) (l i : string) :
  is_tracked_item tr l i = true -> track_item tr l i = tr.
Proof.
  intros H. unfold track_item.
  unfold is_tracked_item in H. destruct (lists tr !! l) as [ids|] eqn:E; [|done].
  unfold ids_of. rewrite E. simpl. by rewrite H.
Qed.

Lemma track_item_untracked (tr : t) (l i : string) :
  is_tracked_item tr l i = false ->
  track_item tr l i =
    mk (<[l := ids_of tr l ++ [i]]> (lists tr))
       (saved tr ++ [<[l := ids_of tr l ++ [i]]> (lists tr)]).
Proof.
  intros H. rewrite is_tracked_ids_of in H.
  unfold track_item, ids_of in *.
  destruct (lists tr !! l) as [ids|] eqn:E; simpl in *.
  - rewrite E. simpl. rewrite H. reflexivity.
  - rewrite lookup_insert_eq. simpl.
    unfold _save_tracking_data. simpl. by rewrite insert_insert_eq.
Qed.

Lemma is_tracked_after_track (tr : t) (l i : string) :
  is_tracked_item (track_item tr l i) l i = true.
Proof.
  destruct (is_tracked_item tr l i) eqn:E.
  - by rewrite track_item_tracked.
  - rewrite track_item_untracked by done.
    unfold is_tracked_item. simpl. rewrite lookup_insert_eq.
    apply bool_decide_eq_true. set_solver.
Qed.

(** C9: [track_item] of an id already recorded for the list returns the
    tracker unchanged (same ledger, nothing written); otherwise it appends
    the id and writes the new ledger once.  So a write happens only
    together with a change of the list's ids, and afterwards the id is
    tracked. *)
Theorem track_item_idempotent_write_on_change (tr : t) (l i : string) :
  let tr' := track_item tr l i in
  is_tracked_item tr' l i = true
  /\ (if is_tracked_item tr l i
      then tr' = tr
      else ids_of tr' l = ids_of tr l ++ [i]
           /\ saved tr' = saved tr ++ [lists tr'])
  /\ (saved tr' = saved tr \/ ((i ∉ ids_of tr l) /\ (i ∈ ids_of tr' l)))
  /\ track_item tr' l i = tr'.
Proof.
  intros tr'. subst tr'.
  split; [apply is_tracked_after_track|].
  split; [|split].
  - destruct (is_tracked_item tr l i) eqn:E.
    + by apply track_item_tracked.
    + rewrite track_item_untracked by done. unfold ids_of. simpl.
      rewrite lookup_insert_eq. done.
  - destruct (is_tracked_item tr l i) eqn:E.
    + left. by rewrite track_item_tracked.
    + right. split.
      * rewrite is_tracked_ids_of in E. by apply bool_decide_eq_false in E.
      * pose proof (is_tracked_after_track tr l i) as H.
        rewrite is_tracked_ids_of in H. by apply bool_decide_eq_true in H.
  - apply track_item_tracked, is_tracked_after_track.
Qed.

End SyncTrackerFacts.

(** ** QuantityFormatter *)

(** Comparisons of closed numbers, by evaluation. *)
Ltac qcompute :=
  first [ apply Qle_bool_iff; vm_compute; reflexivity
        | apply (proj2 (Qlt_alt _ _)); vm_compute; reflexivity ].

Section QuantityFormatterFacts.

Import QuantityFormatter.
Local Open Scope Q_scope.

(** *** Powers of two *)

Lemma pow2_pos (k : Z) : 0 < pow2 k.
Proof. apply Qpower_0_lt. reflexivity. Qed.

Lemma pow2_plus (a b : Z) : pow2 (a + b) == pow2 a * pow2 b.
Proof. apply Qpower_plus. discriminate. Qed.

Lemma pow2_le (a b : Z) : (a <= b)%Z -> pow2 a <= pow2 b.
Proof. intros H. apply Qpower_le_compat_l; [exact H | discriminate]. Qed.

Lemma pow2_lt (a b : Z) : (a < b)%Z -> pow2 a < pow2 b.
Proof. intros H. apply Qpower_lt_compat_l; [exact H | reflexivity]. Qed.

Lemma pow2_le_inv (a b : Z) : pow2 a <= pow2 b -> (a <= b)%Z.
Proof. intros H. apply (Qpower_le_compat_l_inv 2); [exact H | reflexivity]. Qed.

Lemma pow2_lt_inv (a b : Z) : pow2 a < pow2 b -> (a < b)%Z.
Proof. intros H. apply (Qpower_lt_compat_l_inv 2); [exact H | reflexivity]. Qed.

Lemma pow2_Z (k : Z) : (0 <= k)%Z -> pow2 k == inject_Z (2 ^ k).
Proof. intros H. unfold pow2. by rewrite Zpower_Qpower. Qed.

Lemma pow2_minus (a b : Z) : pow2 (a - b) * pow2 b == pow2 a.
Proof. rewrite <- pow2_plus. by replace (a - b + b)%Z with a by lia. Qed.

Lemma Qabs_make (q : Q) :
  Qabs q == inject_Z (Z.abs (Qnum q)) / inject_Z (Z.pos (Qden q)).
Proof. destruct q as [n d]. simpl. apply Qmake_Qdiv. Qed.

(** *** The binary logarithm *)

Lemma ilog2_spec (q : Q) :
  ~ q == 0 -> pow2 (ilog2 q) <= Qabs q /\ Qabs q < pow2 (ilog2 q + 1).
Proof.
  intros Hq.
  set (A := Z.abs (Qnum q)). set (B := Z.pos (Qden q)).
  assert (HA : (0 < A)%Z).
  { unfold A. destruct q as [n d]. unfold Qeq in Hq. simpl in *. lia. }
  assert (HB : (0 < B)%Z) by (unfold B; lia).
  destruct (Z.log2_spec A HA) as [HA1 HA2]. destruct (Z.log2_spec B HB) as [HB1 HB2].
  pose proof (Z.log2_nonneg A) as HlA. pose proof (Z.log2_nonneg B) as HlB.
  set (la := Z.log2 A) in *. set (lb := Z.log2 B) in *.
  rewrite Zle_Qle, <- pow2_Z in HA1, HB1 by lia.
  rewrite Zlt_Qlt, <- pow2_Z in HA2, HB2 by lia.
  assert (HBq : 0 < inject_Z B) by (rewrite <- (Zlt_Qlt 0); exact HB).
  assert (Habs : Qabs q == inject_Z A / inject_Z B) by apply Qabs_make.
  assert (Hlow : pow2 (la - lb - 1) <= Qabs q).
  { rewrite Habs. apply Qle_shift_div_l; [exact HBq|].
    eapply Qle_trans; [|exact HA1].
    rewrite <- (pow2_minus la (Z.succ lb)).
    replace (la - Z.succ lb)%Z with (la - lb - 1)%Z by lia.
    apply Qmult_le_l; [apply pow2_pos | apply Qlt_le_weak, HB2]. }
  assert (Hup : Qabs q < pow2 (la - lb + 1)).
  { rewrite Habs. apply Qlt_shift_div_r; [exact HBq|].
    eapply Qlt_le_trans; [exact HA2|].
    rewrite <- (pow2_minus (Z.succ la) lb).
    replace (Z.succ la - lb)%Z with (la - lb + 1)%Z by lia.
    apply Qmult_le_l; [apply pow2_pos | exact HB1]. }
  unfold ilog2. fold A B la lb.
  destruct (Qle_bool (pow2 (la - lb)) (Qabs q)) eqn:E.
  - apply Qle_bool_iff in E. split; [exact E | exact Hup].
  - split; [exact Hlow|].
    replace (la - lb - 1 + 1)%Z with (la - lb)%Z by lia.
    apply Qnot_le_lt. intros H. apply Qle_bool_iff in H. congruence.
Qed.

Lemma ilog2_unique (q : Q) (k : Z) :
  pow2 k <= Qabs q -> Qabs q < pow2 (k + 1) -> ilog2 q = k.
Proof.
  intros H1 H2.
  assert (Hq : ~ q == 0).
  { intros E. rewrite E in H1. change (Qabs 0) with 0 in H1.
    pose proof (pow2_pos k). lra. }
  destruct (ilog2_spec q Hq) as [H3 H4].
  assert (Ha : (ilog2 q < k + 1)%Z) by (apply pow2_lt_inv; lra).
  assert (Hb : (k < ilog2 q + 1)%Z) by (apply pow2_lt_inv; lra).
  lia.
Qed.


(** *** Rounding to an integer *)

Lemma Qltb_lt (a b : Q) : Qltb a b = true <-> a < b.
Proof.
  unfold Qltb. rewrite negb_true_iff. split.
  - intros H. apply Qnot_le_lt. intros Hle. apply Qle_bool_iff in Hle. congruence.
  - intros H. destruct (Qle_bool b a) eqn:E; [|reflexivity].
    apply Qle_bool_iff in E. exfalso. apply (Qlt_not_le _ _ H E).
Qed.

Lemma Qltb_ge (a b : Q) : Qltb a b = false <-> b <= a.
Proof.
  unfold Qltb. rewrite negb_false_iff. apply Qle_bool_iff.
Qed.

Lemma floor_bounds (x : Q) :
  inject_Z (Qfloor x) <= x /\ x < inject_Z (Qfloor x) + 1.
Proof.
  split; [apply Qfloor_le|].
  pose proof (Qlt_floor x) as H. rewrite inject_Z_plus in H. exact H.
Qed.

(** [round(x)] is [floor(x)] or its successor, whichever is nearer. *)
Lemma py_round_cases (x : Q) :
  let f := inject_Z (Qfloor x) in
  (inject_Z (py_round x) == f /\ x - f <= 1 # 2)
  \/ (inject_Z (py_round x) == f + 1 /\ 1 # 2 <= x - f).
Proof.
  intros f. unfold py_round. fold f.
  destruct (Qcompare_spec (x - f) (1 # 2)) as [E|E|E].
  - destruct (Z.even (Qfloor x)).
    + left. split; [reflexivity|]. rewrite E. apply Qle_refl.
    + right. split; [rewrite inject_Z_plus; reflexivity|]. rewrite E. apply Qle_refl.
  - left. split; [reflexivity|]. apply Qlt_le_weak, E.
  - right. split; [rewrite inject_Z_plus; reflexivity|]. apply Qlt_le_weak, E.
Qed.

Lemma py_round_half (x : Q) : Qabs (x - inject_Z (py_round x)) <= 1 # 2.
Proof.
  destruct (floor_bounds x) as [Hl Hu].
  apply Qabs_Qle_condition.
  destruct (py_round_cases x) as [[-> H]|[-> H]]; split; lra.
Qed.

(** No integer is nearer to [x] than [round(x)]. *)
Lemma py_round_nearest (x : Q) (m : Z) :
  Qabs (x - inject_Z (py_round x)) <= Qabs (x - inject_Z m).
Proof.
  destruct (floor_bounds x) as [Hl Hu].
  assert (Hm : inject_Z m <= inject_Z (Qfloor x) \/ inject_Z (Qfloor x) + 1 <= inject_Z m).
  { destruct (Z_le_gt_dec m (Qfloor x)) as [H|H].
    - left. rewrite <- Zle_Qle. exact H.
    - right. assert (H' : (Qfloor x + 1 <= m)%Z) by lia.
      rewrite Zle_Qle, inject_Z_plus in H'. exact H'. }
  pose proof (Qle_Qabs (x - inject_Z m)) as Hp.
  pose proof (Qle_Qabs (- (x - inject_Z m))) as Hn.
  rewrite Qabs_opp in Hn.
  apply Qabs_Qle_condition.
  destruct (py_round_cases x) as [[-> H]|[-> H]]; destruct Hm as [Hm|Hm]; split; lra.
Qed.

Lemma py_round_comp (x y : Q) : x == y -> py_round x = py_round y.
Proof.
  intros E. unfold py_round. rewrite (Qfloor_comp _ _ E).
  assert (E' : x - inject_Z (Qfloor y) == y - inject_Z (Qfloor y)) by (rewrite E; reflexivity).
  by rewrite (Qcompare_comp _ _ E' (1 # 2) (1 # 2) (Qeq_refl _)).
Qed.

Lemma py_round_Z (z : Z) : py_round (inject_Z z) = z.
Proof.
  unfold py_round. rewrite Qfloor_Z.
  destruct (Qcompare_spec (inject_Z z - inject_Z z) (1 # 2)) as [E|E|E];
    [lra | reflexivity | lra].
Qed.

Lemma py_round_le (x : Q) (b : Z) : x <= inject_Z b -> (py_round x <= b)%Z.
Proof.
  intros H. destruct (Z_le_gt_dec (py_round x) b) as [Hle|Hgt]; [exact Hle|].
  exfalso. assert (H' : (b + 1 <= py_round x)%Z) by lia.
  rewrite Zle_Qle, inject_Z_plus in H'.
  pose proof (py_round_half x) as Hh. apply Qabs_Qle_condition in Hh.
  destruct Hh as [Hh1 Hh2]. change (inject_Z 1) with 1 in H'. lra.
Qed.

Lemma py_round_ge (x : Q) (b : Z) : inject_Z b <= x -> (b <= py_round x)%Z.
Proof.
  intros H. destruct (Z_le_gt_dec b (py_round x)) as [Hle|Hgt]; [exact Hle|].
  exfalso. assert (H' : (py_round x + 1 <= b)%Z) by lia.
  rewrite Zle_Qle, inject_Z_plus in H'.
  pose proof (py_round_half x) as Hh. apply Qabs_Qle_condition in Hh.
  destruct Hh as [Hh1 Hh2]. change (inject_Z 1) with 1 in H'. lra.
Qed.


(** *** Rounding to a float *)

Lemma Qabs_scale (a p : Q) : 0 < p -> Qabs (a * p) == Qabs a * p.
Proof. intros H. rewrite Qabs_Qmult, (Qabs_pos p); [reflexivity | lra]. Qed.

Lemma fl_zero (q : Q) : q == 0 -> fl q = Finite 0.
Proof. intros E. unfold fl. by rewrite (proj2 (Qeq_bool_iff q 0) E). Qed.

Lemma fl_nonzero (q : Q) :
  ~ q == 0 ->
  let e := Z.max (ilog2 q - 52) (-1074) in
  let r := Qred (inject_Z (py_round (q / pow2 e)) * pow2 e) in
  fl q = if Qle_bool (pow2 1024) (Qabs r) then Infinity (Qltb q 0) else Finite r.
Proof.
  intros H e r. unfold fl. destruct (Qeq_bool q 0) eqn:E; [|reflexivity].
  apply Qeq_bool_iff in E. contradiction.
Qed.

(** The scaled number has an integer part below [2 ^ 53], and rounding
    it moves the number by at most half a unit in the last place. *)
Lemma fl_scaled (q : Q) :
  ~ q == 0 ->
  let e := Z.max (ilog2 q - 52) (-1074) in
  let m := py_round (q / pow2 e) in
  (Z.abs m <= 2 ^ 53)%Z
  /\ Qabs (inject_Z m * pow2 e - q) <= pow2 (e - 1).
Proof.
  intros Hq e m. destruct (ilog2_spec q Hq) as [Hk1 Hk2].
  pose proof (pow2_pos e) as He.
  assert (Hx : q == q / pow2 e * pow2 e) by (field; lra).
  split.
  - assert (Hb : Qabs (q / pow2 e) <= inject_Z (2 ^ 53)).
    { rewrite <- pow2_Z by lia.
      apply Qmult_le_r with (z := pow2 e); [exact He|].
      rewrite <- Qabs_scale, <- Hx, <- pow2_plus by exact He.
      eapply Qle_trans; [apply Qlt_le_weak, Hk2|]. apply pow2_le. lia. }
    apply Qabs_Qle_condition in Hb. destruct Hb as [Hb1 Hb2].
    rewrite <- inject_Z_opp in Hb1.
    apply py_round_ge in Hb1. apply py_round_le in Hb2. fold m in Hb1, Hb2. lia.
  - pose proof (py_round_half (q / pow2 e)) as Hh. fold m in Hh.
    assert (E : inject_Z m * pow2 e - q == - ((q / pow2 e - inject_Z m) * pow2 e)).
    { rewrite Hx at 1. ring. }
    rewrite E, Qabs_opp, Qabs_scale by exact He.
    assert (E2 : pow2 (e - 1) == (1 # 2) * pow2 e).
    { unfold Z.sub. rewrite Z.add_comm, pow2_plus. reflexivity. }
    rewrite E2. apply Qmult_le_compat_r; [exact Hh | lra].
Qed.

(** The rounding error of a float operation. *)
Lemma fl_error (q r : Q) :
  fl q = Finite r -> Qabs (r - q) <= Qabs q * pow2 (-53) + pow2 (-1075).
Proof.
  intros H. pose proof (Qabs_nonneg q) as Hn.
  pose proof (pow2_pos (-53)) as H53. pose proof (pow2_pos (-1075)) as H1075.
  destruct (Qeq_dec q 0) as [E|Hq].
  - rewrite (fl_zero q E) in H. injection H as <-.
    assert (E' : 0 - q == 0) by (rewrite E; ring). rewrite E'. change (Qabs 0) with 0.
    nra.
  - rewrite (fl_nonzero q Hq) in H. cbv zeta in H.
    destruct (Qle_bool _ _) in H; [discriminate|]. injection H as <-.
    rewrite Qred_correct.
    destruct (fl_scaled q Hq) as [_ Hs]. cbv zeta in Hs.
    eapply Qle_trans; [exact Hs|].
    destruct (ilog2_spec q Hq) as [Hk1 _].
    destruct (Z.max_spec (ilog2 q - 52) (-1074)) as [[_ ->]|[_ ->]].
    + change (-1074 - 1)%Z with (-1075)%Z. nra.
    + replace (ilog2 q - 52 - 1)%Z with (ilog2 q + -53)%Z by lia.
      rewrite pow2_plus.
      assert (pow2 (ilog2 q) * pow2 (-53) <= Qabs q * pow2 (-53)).
      { apply Qmult_le_compat_r; [exact Hk1 | lra]. }
      lra.
Qed.


Lemma ilog2_comp (q q' : Q) : q == q' -> ~ q == 0 -> ilog2 q = ilog2 q'.
Proof.
  intros E Hq. symmetry. destruct (ilog2_spec q Hq) as [H1 H2].
  apply ilog2_unique; rewrite <- E; assumption.
Qed.

Lemma fl_comp (q q' : Q) : q == q' -> fl q = fl q'.
Proof.
  intros E. destruct (Qeq_dec q 0) as [E0|Hq].
  - rewrite (fl_zero q E0), (fl_zero q'); [reflexivity | by rewrite <- E].
  - assert (Hq' : ~ q' == 0) by (by rewrite <- E).
    rewrite (fl_nonzero q Hq), (fl_nonzero q' Hq'). cbv zeta.
    rewrite <- (ilog2_comp q q' E Hq).
    set (e := Z.max (ilog2 q - 52) (-1074)).
    assert (Ed : q / pow2 e == q' / pow2 e) by (by rewrite E).
    rewrite <- (py_round_comp _ _ Ed).
    unfold Qltb. by rewrite (Qleb_comp 0 0 (Qeq_refl 0) q q' E).
Qed.

(** A number with a mantissa below [2 ^ 53] and an exponent from -1074
    on is a float, unless it is too large. *)
Lemma fl_exact (q : Q) (M E : Z) :
  (-1074 <= E)%Z -> (Z.abs M < 2 ^ 53)%Z -> q == inject_Z M * pow2 E ->
  Qabs q < pow2 1024 ->
  fl q = Finite (Qred q).
Proof.
  intros HE HM Hq Hbig. destruct (Qeq_dec q 0) as [E0|Hnz].
  - rewrite (fl_zero q E0). by rewrite (Qred_complete q 0 E0).
  - rewrite (fl_nonzero q Hnz). cbv zeta.
    set (e := Z.max (ilog2 q - 52) (-1074)).
    destruct (ilog2_spec q Hnz) as [Hk1 _].
    pose proof (pow2_pos E) as HpE. pose proof (pow2_pos e) as Hpe.
    assert (Habs : Qabs q == inject_Z (Z.abs M) * pow2 E).
    { rewrite Hq, Qabs_scale by exact HpE. reflexivity. }
    assert (He : (e <= E)%Z).
    { assert (Hlt : pow2 (ilog2 q) < pow2 (53 + E)).
      { eapply Qle_lt_trans; [exact Hk1|]. rewrite Habs, pow2_plus.
        apply Qmult_lt_compat_r; [exact HpE|].
        rewrite pow2_Z by lia. rewrite <- Zlt_Qlt. exact HM. }
      apply pow2_lt_inv in Hlt. unfold e. lia. }
    assert (Hint : q / pow2 e == inject_Z (M * 2 ^ (E - e))).
    { rewrite inject_Z_mult, <- pow2_Z by lia. rewrite Hq, <- (pow2_minus E e).
      field. lra. }
    rewrite (py_round_comp _ _ Hint), py_round_Z.
    assert (Hr : inject_Z (M * 2 ^ (E - e)) * pow2 e == q).
    { rewrite <- Hint. field. lra. }
    rewrite (Qred_complete _ _ Hr).
    destruct (Qle_bool (pow2 1024) (Qabs (Qred q))) eqn:Eb; [|reflexivity].
    apply Qle_bool_iff in Eb. rewrite Qred_correct in Eb. lra.
Qed.

(** What rounding returns has a mantissa below [2 ^ 53]. *)
Lemma fl_form (q r : Q) :
  fl q = Finite r ->
  Qabs r < pow2 1024
  /\ exists M E, (-1074 <= E)%Z /\ (Z.abs M < 2 ^ 53)%Z /\ r == inject_Z M * pow2 E.
Proof.
  intros H. destruct (Qeq_dec q 0) as [E0|Hq].
  - rewrite (fl_zero q E0) in H. injection H as <-. split; [reflexivity|].
    exists 0%Z, 0%Z. split; [lia|]. split; [reflexivity | reflexivity].
  - rewrite (fl_nonzero q Hq) in H. cbv zeta in H.
    set (e := Z.max (ilog2 q - 52) (-1074)) in *.
    set (m := py_round (q / pow2 e)) in *.
    destruct (Qle_bool _ _) eqn:Eb in H; [discriminate|]. injection H as <-.
    split.
    { apply Qnot_le_lt. intros Hle. apply Qle_bool_iff in Hle. congruence. }
    destruct (fl_scaled q Hq) as [Hm _]. cbv zeta in Hm. fold e m in Hm.
    destruct (Z.eq_dec (Z.abs m) (2 ^ 53)%Z) as [Hmax|Hlt].
    + exists (m / 2)%Z, (e + 1)%Z. split; [unfold e; lia|].
      assert (Hm2 : m = (2 * (m / 2))%Z).
      { assert (Hc : m = (2 ^ 53)%Z \/ m = (- 2 ^ 53)%Z) by lia.
        destruct Hc as [-> | ->]; reflexivity. }
      split.
      * assert (Hc : m = (2 ^ 53)%Z \/ m = (- 2 ^ 53)%Z) by lia.
        destruct Hc as [-> | ->]; reflexivity.
      * rewrite Qred_correct, pow2_plus. rewrite Hm2 at 1. rewrite inject_Z_mult.
        change (pow2 1) with 2. change (inject_Z 2) with 2. ring.
    + exists m, e. split; [unfold e; lia|]. split; [lia|]. apply Qred_correct.
Qed.

Lemma fl_is_float (q r : Q) : fl q = Finite r -> is_float r = true.
Proof.
  intros H. destruct (fl_form q r H) as (Hbig & M & E & HE & HM & Hr).
  unfold is_float. rewrite (fl_exact r M E HE HM Hr Hbig).
  apply Qeq_bool_iff, Qred_correct.
Qed.

Lemma is_float_fl (q : Q) : is_float q = true -> fl q = Finite (Qred q).
Proof.
  unfold is_float. destruct (fl q) as [r| |] eqn:E; try discriminate.
  intros H. apply Qeq_bool_iff in H. f_equal.
  destruct (fl_form q r E) as (Hbig & M & E' & HE & HM & Hr).
  assert (Hq : q == inject_Z M * pow2 E') by (by rewrite <- H).
  assert (Hbig' : Qabs q < pow2 1024) by (by rewrite <- H).
  pose proof (fl_exact q M E' HE HM Hq Hbig') as Hx. congruence.
Qed.

Lemma is_float_form (q : Q) :
  is_float q = true <->
  Qabs q < pow2 1024
  /\ exists M E, (-1074 <= E)%Z /\ (Z.abs M < 2 ^ 53)%Z /\ q == inject_Z M * pow2 E.
Proof.
  split.
  - intros H. pose proof (is_float_fl q H) as Hfl.
    destruct (fl_form q _ Hfl) as (Hbig & M & E & HE & HM & Hr).
    rewrite Qred_correct in Hbig, Hr. split; [exact Hbig|]. by exists M, E.
  - intros (Hbig & M & E & HE & HM & Hr). unfold is_float.
    rewrite (fl_exact q M E HE HM Hr Hbig). apply Qeq_bool_iff, Qred_correct.
Qed.

(** Rounding returns a float nearest to the number. *)
Lemma fl_nearest (q r p : Q) :
  fl q = Finite r -> is_float p = true -> Qabs (r - q) <= Qabs (p - q).
Proof.
  intros H Hp. apply is_float_form in Hp. destruct Hp as (_ & M & E & HE & HM & Hp).
  destruct (Qeq_dec q 0) as [E0|Hq].
  - rewrite (fl_zero q E0) in H. injection H as <-.
    assert (E1 : 0 - q == 0) by (rewrite E0; ring). rewrite E1. apply Qabs_nonneg.
  - pose proof H as H'. rewrite (fl_nonzero q Hq) in H'. cbv zeta in H'.
    set (e := Z.max (ilog2 q - 52) (-1074)) in *.
    set (m := py_round (q / pow2 e)) in *.
    destruct (Qle_bool _ _) in H'; [discriminate|]. injection H' as <-.
    rewrite Qred_correct.
    pose proof (pow2_pos e) as Hpe. pose proof (pow2_pos E) as HpE.
    assert (Hx : q == q / pow2 e * pow2 e) by (field; lra).
    (* distance to a multiple of the unit *)
    assert (Hmult : forall z : Z,
               Qabs (inject_Z m * pow2 e - q) <= Qabs (inject_Z z * pow2 e - q)).
    { intros z.
      assert (E1 : forall y, inject_Z y * pow2 e - q
                             == - ((q / pow2 e - inject_Z y) * pow2 e)).
      { intros y. rewrite Hx at 1. ring. }
      rewrite (E1 m), (E1 z), !Qabs_opp, !Qabs_scale by exact Hpe.
      apply Qmult_le_compat_r; [apply py_round_nearest | lra]. }
    destruct (Z_le_gt_dec e E) as [Hle|Hgt].
    + assert (Hp' : p == inject_Z (M * 2 ^ (E - e)) * pow2 e).
      { rewrite inject_Z_mult, <- pow2_Z by lia. rewrite Hp, <- (pow2_minus E e). ring. }
      rewrite Hp'. apply Hmult.
    + assert (Hek : e = (ilog2 q - 52)%Z) by (unfold e in *; lia).
      destruct (ilog2_spec q Hq) as [Hk1 _].
      assert (Hpk : Qabs p < pow2 (ilog2 q)).
      { rewrite Hp, Qabs_scale by exact HpE.
        change (Qabs (inject_Z M)) with (inject_Z (Z.abs M)).
        apply Qlt_le_trans with (y := inject_Z (2 ^ 53) * pow2 E).
        - apply Qmult_lt_compat_r; [exact HpE|]. rewrite <- Zlt_Qlt. exact HM.
        - rewrite <- pow2_Z, <- pow2_plus by lia. apply pow2_le. lia. }
      assert (Hk52 : pow2 (ilog2 q) == inject_Z (2 ^ 52) * pow2 e).
      { rewrite <- pow2_Z, <- pow2_plus by lia. rewrite Hek.
        by replace (52 + (ilog2 q - 52))%Z with (ilog2 q) by lia. }
      pose proof (Qle_Qabs p) as Hp1. pose proof (Qle_Qabs (- p)) as Hp2.
      rewrite Qabs_opp in Hp2.
      destruct (Qlt_le_dec q 0) as [Hneg|Hpos].
      * eapply Qle_trans; [apply (Hmult (- 2 ^ 52)%Z)|].
        rewrite inject_Z_opp.
        assert (E2 : - inject_Z (2 ^ 52) * pow2 e - q == - q - pow2 (ilog2 q))
          by (rewrite Hk52; ring).
        rewrite E2. rewrite (Qabs_neg q) in Hk1 by lra.
        rewrite Qabs_pos by lra.
        eapply Qle_trans; [|apply Qle_Qabs]. lra.
      * eapply Qle_trans; [apply (Hmult (2 ^ 52)%Z)|].
        assert (E2 : inject_Z (2 ^ 52) * pow2 e - q == - (q - pow2 (ilog2 q)))
          by (rewrite Hk52; ring).
        rewrite E2, Qabs_opp. rewrite (Qabs_pos q) in Hk1 by lra.
        rewrite Qabs_pos by lra.
        rewrite <- (Qabs_opp (p - q)). eapply Qle_trans; [|apply Qle_Qabs]. lra.
Qed.

(** *** The collapse test *)

Lemma fl_005 : fl (5 # 100) = Finite (3602879701896397 # 72057594037927936).
Proof. vm_compute. reflexivity. Qed.

Lemma Qabs_inject_Z (z : Z) : Qabs (inject_Z z) = inject_Z (Z.abs z).
Proof. reflexivity. Qed.

(** No float lies between 0.05 and the float nearest to it. *)
Lemma float_lt_005 (t : Q) :
  is_float t = true ->
  Qabs t < 3602879701896397 # 72057594037927936 <-> Qabs t < 5 # 100.
Proof.
  intros Ht. split; [|intros H; eapply Qlt_trans; [exact H | reflexivity]].
  intros Hc. apply Qnot_le_lt. intros Hge.
  apply is_float_form in Ht. destruct Ht as (_ & M & E & HE & HM & Ht).
  pose proof (pow2_pos E) as HpE.
  assert (Habs : Qabs t == inject_Z (Z.abs M) * pow2 E).
  { rewrite Ht, Qabs_scale by exact HpE. reflexivity. }
  assert (HE57 : (-57 <= E)%Z).
  { assert (Hlt : pow2 (-5) < pow2 (53 + E)).
    { apply Qle_lt_trans with (y := Qabs t).
      - eapply Qle_trans; [|exact Hge]. qcompute.
      - rewrite Habs, pow2_plus. apply Qmult_lt_compat_r; [exact HpE|].
        rewrite pow2_Z by lia. rewrite <- Zlt_Qlt. exact HM. }
    apply pow2_lt_inv in Hlt. lia. }
  assert (Hk : Qabs t == inject_Z (Z.abs M * 2 ^ (E + 57)) * pow2 (-57)).
  { rewrite Habs, inject_Z_mult, <- pow2_Z by lia.
    rewrite <- Qmult_assoc, <- pow2_plus.
    by replace (E + 57 + -57)%Z with E by lia. }
  set (K := (Z.abs M * 2 ^ (E + 57))%Z) in *.
  assert (HK : (K < 7205759403792794)%Z).
  { rewrite Zlt_Qlt. apply Qmult_lt_r with (z := pow2 (-57)); [apply pow2_pos|].
    rewrite <- Hk. eapply Qlt_le_trans; [exact Hc|]. qcompute. }
  assert (HK' : (K <= 7205759403792793)%Z) by lia.
  rewrite Zle_Qle in HK'.
  assert (Hle : Qabs t <= inject_Z 7205759403792793 * pow2 (-57)).
  { rewrite Hk. apply Qmult_le_compat_r; [exact HK' | apply Qlt_le_weak, pow2_pos]. }
  assert (Hlt : inject_Z 7205759403792793 * pow2 (-57) < 5 # 100) by qcompute.
  apply (Qlt_irrefl (Qabs t)). eapply Qle_lt_trans; [exact Hle|].
  eapply Qlt_le_trans; [exact Hlt | exact Hge].
Qed.

(** The nearest integer of a float is a float. *)
Lemma round_is_float (r : Q) :
  is_float r = true -> is_float (inject_Z (py_round r)) = true.
Proof.
  intros Hr. apply is_float_form in Hr. destruct Hr as (Hbig & M & E & HE & HM & Hr).
  apply is_float_form.
  destruct (Z_le_gt_dec 0 E) as [Hpos|Hneg].
  - assert (Hint : r == inject_Z (M * 2 ^ E)).
    { rewrite inject_Z_mult, <- pow2_Z by lia. exact Hr. }
    rewrite (py_round_comp _ _ Hint), py_round_Z.
    split; [by rewrite <- Hint|]. exists M, E.
    split; [exact HE|]. split; [exact HM|]. by rewrite <- Hint.
  - pose proof (pow2_pos E) as HpE.
    assert (Hr52 : Qabs r <= inject_Z (2 ^ 52)).
    { rewrite Hr, Qabs_scale by exact HpE. rewrite Qabs_inject_Z.
      apply Qle_trans with (y := inject_Z (2 ^ 53) * pow2 (-1)).
      - apply Qle_trans with (y := inject_Z (2 ^ 53) * pow2 E).
        + apply Qmult_le_compat_r; [|lra]. rewrite <- Zle_Qle. lia.
        + apply Qmult_le_l; [reflexivity|]. apply pow2_le. lia.
      - qcompute. }
    apply Qabs_Qle_condition in Hr52. destruct Hr52 as [H1 H2].
    rewrite <- inject_Z_opp in H1.
    apply py_round_ge in H1. apply py_round_le in H2.
    set (n := py_round r) in *.
    split.
    + rewrite Qabs_inject_Z. apply Qlt_le_trans with (y := inject_Z (2 ^ 53)).
      * rewrite <- Zlt_Qlt. lia.
      * qcompute.
    + exists n, 0%Z. split; [lia|]. split; [lia|].
      change (pow2 0) with 1. ring.
Qed.

(** The distance of a float from its nearest integer is a float. *)
Lemma round_diff_is_float (r : Q) :
  is_float r = true -> is_float (r - inject_Z (py_round r)) = true.
Proof.
  intros Hr. pose proof Hr as Hr0.
  apply is_float_form in Hr. destruct Hr as (Hbig & M & E & HE & HM & Hr).
  pose proof (py_round_half r) as Hh.
  set (n := py_round r) in *.
  apply is_float_form. split.
  { eapply Qle_lt_trans; [exact Hh|]. qcompute. }
  pose proof (pow2_pos E) as HpE.
  destruct (Z_le_gt_dec 0 E) as [Hpos|Hneg].
  - assert (Hint : r == inject_Z (M * 2 ^ E)).
    { rewrite inject_Z_mult, <- pow2_Z by lia. exact Hr. }
    assert (Hn : n = (M * 2 ^ E)%Z).
    { unfold n. by rewrite (py_round_comp _ _ Hint), py_round_Z. }
    exists 0%Z, 0%Z. split; [lia|]. split; [reflexivity|].
    rewrite Hn, <- Hint. ring.
  - destruct (Z_le_gt_dec (-53) E) as [Hmid|Hlow].
    + exists (M - n * 2 ^ (- E))%Z, E. split; [exact HE|].
      assert (Heq : r - inject_Z n == inject_Z (M - n * 2 ^ (- E)) * pow2 E).
      { unfold Zminus. rewrite inject_Z_plus, inject_Z_opp, inject_Z_mult.
        rewrite <- pow2_Z by lia. rewrite Hr.
        assert (H1 : pow2 (- E) * pow2 E == 1).
        { rewrite <- pow2_plus. by replace (- E + E)%Z with 0%Z by lia. }
        transitivity (inject_Z M * pow2 E - inject_Z n * (pow2 (- E) * pow2 E)); [|ring].
        rewrite H1. ring. }
      split; [|exact Heq].
      rewrite Zlt_Qlt, <- Qabs_inject_Z.
      apply Qmult_lt_r with (z := pow2 E); [exact HpE|].
      rewrite <- Qabs_scale, <- Heq by exact HpE.
      eapply Qle_lt_trans; [exact Hh|].
      apply Qlt_le_trans with (y := inject_Z (2 ^ 53) * pow2 (-53)); [qcompute|].
      apply Qmult_le_l; [reflexivity|]. apply pow2_le. lia.
    + assert (Hsmall : Qabs r < 1 # 2).
      { rewrite Hr, Qabs_scale by exact HpE. rewrite Qabs_inject_Z.
        apply Qlt_le_trans with (y := inject_Z (2 ^ 53) * pow2 E).
        - apply Qmult_lt_compat_r; [exact HpE|]. rewrite <- Zlt_Qlt. exact HM.
        - apply Qle_trans with (y := inject_Z (2 ^ 53) * pow2 (-54)); [|qcompute].
          apply Qmult_le_l; [reflexivity|]. apply pow2_le. lia. }
      assert (Hn : n = 0%Z).
      { apply Qabs_Qle_condition in Hh. destruct Hh as [Hh1 Hh2].
        apply Qabs_Qlt_condition in Hsmall. destruct Hsmall as [Hs1 Hs2].
        assert (H1 : inject_Z n < inject_Z 1) by (change (inject_Z 1) with 1; lra).
        assert (H2 : inject_Z (-1) < inject_Z n) by (change (inject_Z (-1)) with (-1); lra).
        rewrite <- Zlt_Qlt in H1, H2. lia. }
      exists M, E. split; [exact HE|]. split; [exact HM|].
      rewrite Hn, <- Hr. change (inject_Z 0) with 0. ring.
Qed.


Lemma Qltb_comp (a a' b b' : Q) : a == a' -> b == b' -> Qltb a b = Qltb a' b'.
Proof. intros Ea Eb. unfold Qltb. by rewrite (Qleb_comp b b' Eb a a' Ea). Qed.

(** On a float, the float comparison of the code is the comparison of
    the exact distance with 0.05. *)
Lemma collapse_test (r : Q) :
  is_float r = true ->
  float_lt (float_abs (float_sub (Finite r) (fl (inject_Z (py_round r))))) (fl (5 # 100))
  = Qltb (Qabs (r - inject_Z (py_round r))) (5 # 100).
Proof.
  intros Hr.
  rewrite (is_float_fl _ (round_is_float r Hr)). set (n := py_round r). cbn [float_sub].
  assert (E : r - Qred (inject_Z n) == r - inject_Z n) by (by rewrite Qred_correct).
  pose proof (round_diff_is_float r Hr) as Hd. fold n in Hd.
  rewrite (fl_comp _ _ E), (is_float_fl _ Hd), fl_005. cbn [float_abs float_lt].
  assert (E' : Qabs (Qred (r - inject_Z n)) == Qabs (r - inject_Z n))
    by (by rewrite Qred_correct).
  rewrite (Qltb_comp _ _ _ _ E' (Qeq_refl _)).
  pose proof (float_lt_005 _ Hd) as Hiff.
  destruct (Qltb (Qabs (r - inject_Z n)) (5 # 100)) eqn:E1.
  - apply Qltb_lt. apply Hiff. by apply Qltb_lt.
  - apply Qltb_ge. apply Qltb_ge in E1.
    destruct (Qlt_le_dec (Qabs (r - inject_Z n)) (3602879701896397 # 72057594037927936))
      as [Hlt|Hge]; [|exact Hge].
    apply Hiff in Hlt. exfalso. apply (Qlt_not_le _ _ Hlt E1).
Qed.

Lemma py_round2_finite (x : PyFloat) (r : Q) :
  py_round2 x = Finite r ->
  exists p, x = Finite p /\ fl (inject_Z (py_round (p * 100)) / 100) = Finite r.
Proof. destruct x as [p| |]; simpl; [|discriminate..]. intros H. by exists p. Qed.

Lemma float_mul_finite (a b : PyFloat) (p : Q) :
  float_mul a b = Finite p ->
  exists x y, a = Finite x /\ b = Finite y /\ fl (x * y) = Finite p.
Proof.
  destruct a as [x|s|], b as [y|s'|]; simpl; try discriminate.
  - intros H. by exists x, y.
  - destruct (Qeq_bool x 0); discriminate.
  - destruct (Qeq_bool y 0); discriminate.
Qed.

(** *** The conversion *)

Lemma convert_finite (a b : PyFloat) (r : Q) :
  py_round2 (float_mul a b) = Finite r ->
  convert a b
  = Ok (if Qltb (Qabs (r - inject_Z (py_round r))) (5 # 100)
        then inject_Z (py_round r) else r).
Proof.
  intros H. unfold convert. rewrite H. cbn [float_round mbind Res_bind].
  destruct (py_round2_finite _ _ H) as (p & _ & Hp).
  rewrite (collapse_test r (fl_is_float _ _ Hp)).
  by destruct (Qltb _ _).
Qed.

Lemma convert_infinite (a b : PyFloat) (s : bool) :
  py_round2 (float_mul a b) = Infinity s -> convert a b = Raise OverflowError.
Proof. intros H. unfold convert. by rewrite H. Qed.

Lemma convert_nan (a b : PyFloat) :
  py_round2 (float_mul a b) = NaN -> convert a b = Raise ValueError.
Proof. intros H. unfold convert. by rewrite H. Qed.

Lemma convert_Ok (a b : PyFloat) (q : Q) :
  convert a b = Ok q ->
  exists r,
    py_round2 (float_mul a b) = Finite r
    /\ q = (if Qltb (Qabs (r - inject_Z (py_round r))) (5 # 100)
            then inject_Z (py_round r) else r).
Proof.
  intros H. destruct (py_round2 (float_mul a b)) as [r|s|] eqn:E.
  - exists r. split; [reflexivity|]. rewrite (convert_finite a b r E) in H. congruence.
  - rewrite (convert_infinite a b s E) in H. discriminate.
  - rewrite (convert_nan a b E) in H. discriminate.
Qed.

(** Rounding a float to two places: the decimal is within 0.005 of the
    float, and the float nearest to the decimal is no farther from the
    decimal than that. *)
Lemma py_round2_error (p r : Q) :
  is_float p = true ->
  py_round2 (Finite p) = Finite r ->
  let d := inject_Z (py_round (p * 100)) / 100 in
  Qabs (d - p) <= 1 # 200 /\ Qabs (r - d) <= Qabs (p - d).
Proof.
  intros Hp H d. split.
  - pose proof (py_round_half (p * 100)) as Hh.
    apply Qabs_Qle_condition in Hh. destruct Hh as [H1 H2].
    apply Qabs_Qle_condition. unfold d.
    set (k := inject_Z (py_round (p * 100))) in *.
    unfold Qdiv. change (/ 100) with (1 # 100). split; lra.
  - apply (fl_nearest d r p); [exact H | exact Hp].
Qed.



(** The converted quantity is within 0.005 + 0.05 of the float product. *)
Lemma convert_error (a b : PyFloat) (p q : Q) :
  float_mul a b = Finite p -> convert a b = Ok q -> Qabs (q - p) <= 11 # 200.
Proof.
  intros Hm Hc. destruct (convert_Ok a b q Hc) as (r & Hr & Hq).
  rewrite Hm in Hr.
  destruct (float_mul_finite a b p Hm) as (x & y & _ & _ & Hxy).
  pose proof (fl_is_float _ _ Hxy) as Hp.
  destruct (py_round2_error p r Hp Hr) as [Hd1 Hd2]. cbv zeta in Hd1, Hd2.
  set (k := py_round (p * 100)) in *. set (n := py_round r) in *.
  set (d := inject_Z k / 100) in *.
  assert (Hk : inject_Z k == 100 * d) by (unfold d; field).
  rewrite <- (Qabs_opp (d - p)) in Hd1.
  assert (Ho : - (d - p) == p - d) by ring. rewrite Ho in Hd1. clear Ho.
  assert (Hd3 : Qabs (r - d) <= 1 # 200) by (eapply Qle_trans; eassumption).
  apply Qabs_Qle_condition in Hd1. destruct Hd1 as [Hp1 Hp2].
  apply Qabs_Qle_condition in Hd3. destruct Hd3 as [Hr1 Hr2].
  destruct (Qltb (Qabs (r - inject_Z n)) (5 # 100)) eqn:Ec; subst q.
  - apply Qltb_lt in Ec. apply Qabs_Qlt_condition in Ec. destruct Ec as [Hc1 Hc2].
    apply Qabs_Qle_condition.
    destruct (Z_le_gt_dec k (100 * n + 5)) as [Hle|Hgt].
    + destruct (Z_le_gt_dec (100 * n - 5) k) as [Hge|Hlt].
      * assert (Hge' : (100 * n + -5 <= k)%Z) by lia. clear Hge. rename Hge' into Hge.
        rewrite Zle_Qle in Hle, Hge.
        rewrite inject_Z_plus, inject_Z_mult in Hle, Hge.
        change (inject_Z 100) with 100 in Hle, Hge.
        change (inject_Z 5) with 5 in Hle. change (inject_Z (-5)) with (-5) in Hge.
        rewrite Hk in Hle, Hge. split; lra.
      * exfalso. assert (Hlt' : (k <= 100 * n + -6)%Z) by lia.
        rewrite Zle_Qle, inject_Z_plus, inject_Z_mult in Hlt'.
        change (inject_Z 100) with 100 in Hlt'. change (inject_Z (-6)) with (-6) in Hlt'.
        rewrite Hk in Hlt'. lra.
    + exfalso. assert (Hgt' : (100 * n + 6 <= k)%Z) by lia.
      rewrite Zle_Qle, inject_Z_plus, inject_Z_mult in Hgt'.
      change (inject_Z 100) with 100 in Hgt'. change (inject_Z 6) with 6 in Hgt'.
      rewrite Hk in Hgt'. lra.
  - apply Qabs_Qle_condition. split; lra.
Qed.

(** *** Conversion-factor lookup *)

Lemma has_conversion_find (product : Product) (a b : option Z) :
  has_conversion product a b = false <->
  match quantity_unit_conversions product with
  | Some cs => List.find (is_conversion a b) cs = None
  | None => True
  end.
Proof.
  unfold has_conversion. destruct (quantity_unit_conversions product) as [cs|]; [|done].
  induction cs as [|c cs IH]; simpl; [done|].
  destruct (is_conversion a b c); simpl; [split; discriminate | exact IH].
Qed.

Lemma find_usable (f : Conversion -> bool) (cs : list Conversion) (c : Conversion) :
  Forall (fun c => usable_factor c = true) cs -> List.find f cs = Some c ->
  exists q, factor_of c = Ok q /\ ~ q == 0.
Proof.
  intros Hall Hf. apply List.find_some in Hf as [Hin _].
  rewrite Forall_forall in Hall. apply list_elem_of_In in Hin.
  specialize (Hall c Hin). unfold usable_factor in Hall. unfold factor_of.
  destruct (factor c) as [[q|s]|]; simpl in *; try discriminate.
  - exists q. split; [done|]. intros E. apply Qeq_bool_iff in E.
    rewrite E in Hall. discriminate.
  - exists 1. split; [done|]. discriminate.
Qed.

Lemma py_inverse_nonzero (q : Q) : ~ q == 0 -> py_inverse q = Ok (1 / q).
Proof.
  intros H. unfold py_inverse. destruct (Qeq_bool q 0) eqn:E; [|done].
  apply Qeq_bool_iff in E. contradiction.
Qed.

(** C3, amended: with factors that are numeric and nonzero wherever
    present, the lookup never raises; it answers [None] exactly when no
    entry exists in either direction, and then the quantity of an item of
    that product passes through unconverted; a missing factor counts as 1,
    so a lone inverse entry without factor yields the factor 1, not
    [None]. *)
Theorem find_conversion_factor_no_raise (product : Product) (a b : option Z) :
  Forall (fun c => usable_factor c = true)
         (default [] (quantity_unit_conversions product)) ->
  exists r,
    _find_conversion_factor product a b = Ok r
    /\ (r = None <->
        has_conversion product a b = false /\ has_conversion product b a = false)
    /\ (forall c, has_conversion product a b = false ->
           (exists cs, quantity_unit_conversions product = Some cs
                       /\ List.find (is_conversion b a) cs = Some c) ->
           factor c = None -> r = Some (1 / 1))
    /\ (forall g, product_details g = Some product ->
           (qu_id g = qu_id_purchase product -> qu_id_purchase product <> qu_id_stock product ->
            a = qu_id_stock product /\ b = qu_id_purchase product) ->
           (qu_id g <> qu_id_purchase product ->
            a = qu_id g /\ b = qu_id_purchase product) ->
           r = None ->
           format_quantity_value g = Ok (Original (amount g), qu_id g)).
Proof.
  intros Hall. unfold _find_conversion_factor.
  pose proof (has_conversion_find product a b) as Hab.
  pose proof (has_conversion_find product b a) as Hba.
  destruct (quantity_unit_conversions product) as [cs|] eqn:Ecs; simpl in Hall.
  2:{ exists None. split; [done|]. split; [|split].
      - split; [intros _|done]. split; [by apply Hab | by apply Hba].
      - intros c _ (cs & Hcs & _). discriminate.
      - intros g Hg H1 H2 _. unfold format_quantity_value. rewrite Hg.
        unfold _find_conversion_factor. rewrite Ecs. simpl.
        repeat case_match; done. }
  destruct (List.find (is_conversion a b) cs) as [c|] eqn:Ed.
  - destruct (find_usable _ _ _ Hall Ed) as (q & Hq & Hnz).
    rewrite Hq. simpl. exists (Some q). split; [done|]. split; [|split].
    + split; [discriminate|]. intros [H _]. apply Hab in H. discriminate.
    + intros c' H. apply Hab in H. discriminate.
    + discriminate.
  - destruct (List.find (is_conversion b a) cs) as [c|] eqn:Ei.
    + destruct (find_usable _ _ _ Hall Ei) as (q & Hq & Hnz).
      rewrite Hq. simpl. rewrite (py_inverse_nonzero q Hnz). simpl.
      exists (Some (1 / q)). split; [done|]. split; [|split].
      * split; [discriminate|]. intros [_ H]. apply Hba in H. discriminate.
      * intros c' _ (cs' & Hcs' & Hc') Hnone.
        assert (c' = c) as -> by congruence.
        unfold factor_of in Hq. rewrite Hnone in Hq. simpl in Hq.
        by inversion Hq.
      * discriminate.
    + exists None. split; [done|]. split; [|split].
      * split; [intros _|done]. split; [by apply Hab | by apply Hba].
      * intros c _ (cs' & Hcs' & Hc'). congruence.
      * intros g Hg H1 H2 _. unfold format_quantity_value. rewrite Hg.
        unfold same_unit.
        destruct (decide (qu_id g = qu_id_purchase product)) as [E1|E1].
        -- rewrite (bool_decide_eq_true_2 _ E1).
           destruct (decide (qu_id_purchase product = qu_id_stock product)) as [E2|E2].
           ++ rewrite (bool_decide_eq_true_2 _ E2). done.
           ++ rewrite (bool_decide_eq_false_2 _ E2). simpl.
              destruct (H1 E1 E2) as [<- <-].
              unfold _find_conversion_factor. rewrite Ecs, Ed, Ei. done.
        -- rewrite (bool_decide_eq_false_2 _ E1). simpl.
           destruct (H2 E1) as [<- <-].
           unfold _find_conversion_factor. rewrite Ecs, Ed, Ei. done.
Qed.


(** *** Converted quantities *)





(** *** Round trips *)

Lemma Qmult_le_compat_left (x y z : Q) : x <= y -> 0 <= z -> z * x <= z * y.
Proof. intros H Hz. rewrite !(Qmult_comm z). by apply Qmult_le_compat_r. Qed.


Lemma lookup_pair_reciprocal (product : Product) (a b : option Z) (f g : Q) :
  _find_conversion_factor product a b = Ok (Some f) ->
  _find_conversion_factor product b a = Ok (Some g) ->
  has_conversion product a b = false \/ has_conversion product b a = false ->
  f * g == 1.
Proof.
  unfold _find_conversion_factor. intros Hf Hg Hone.
  rewrite !has_conversion_find in Hone.
  destruct (quantity_unit_conversions product) as [cs|]; [|discriminate].
  assert (Hinv : forall q i, py_inverse q = Ok i -> q * i == 1).
  { intros q i. unfold py_inverse. destruct (Qeq_bool q 0) eqn:E; [discriminate|].
    intros [= <-]. apply Qeq_bool_neq in E. field. exact E. }
  destruct Hone as [Hab|Hba].
  - rewrite Hab in Hf, Hg.
    destruct (List.find (is_conversion b a) cs) as [c|]; [|discriminate].
    destruct (factor_of c) as [q|]; [|discriminate]. simpl in *.
    destruct (py_inverse q) as [i|] eqn:Ei; [|discriminate]. simpl in *.
    injection Hf as <-. injection Hg as <-. rewrite Qmult_comm. by apply Hinv.
  - rewrite Hba in Hf, Hg.
    destruct (List.find (is_conversion a b) cs) as [c|]; [|discriminate].
    destruct (factor_of c) as [q|]; [|discriminate]. simpl in *.
    destruct (py_inverse q) as [i|] eqn:Ei; [|discriminate]. simpl in *.
    injection Hf as <-. injection Hg as <-. by apply Hinv.
Qed.

Lemma convert_is_float (a b : PyFloat) (q : Q) :
  convert a b = Ok q -> is_float q = true.
Proof.
  intros H. destruct (convert_Ok a b q H) as (r & Hr & ->).
  destruct (py_round2_finite _ _ Hr) as (p & _ & Hp).
  pose proof (fl_is_float _ _ Hp) as Hfr.
  destruct (Qltb _ _); [by apply round_is_float | exact Hfr].
Qed.

(** What a conversion computes, with the rounding errors of its float
    product. *)
Lemma convert_steps (a b : PyFloat) (q : Q) :
  convert a b = Ok q ->
  exists x y p,
    a = Finite x /\ b = Finite y /\ fl (x * y) = Finite p
    /\ Qabs (q - p) <= 11 # 200
    /\ Qabs (p - x * y) <= Qabs (x * y) * pow2 (-53) + pow2 (-1075).
Proof.
  intros H. destruct (convert_Ok a b q H) as (r & Hr & _).
  destruct (py_round2_finite _ _ Hr) as (p & Hm & _).
  destruct (float_mul_finite _ _ p Hm) as (x & y & -> & -> & Hxy).
  exists x, y, p. split; [done|]. split; [done|]. split; [exact Hxy|].
  split; [apply (convert_error _ _ p q Hm H) | apply (fl_error _ _ Hxy)].
Qed.

(** The floats of two reciprocal factors are reciprocal up to their
    rounding errors. *)
Lemma reciprocal_floats (f g F G : Q) :
  f * g == 1 -> fl f = Finite F -> fl g = Finite G ->
  Qabs (F * G - 1) <= pow2 (-51) + pow2 (-1074) * (Qabs f + Qabs G).
Proof.
  intros Hfg HF HG.
  pose proof (fl_error _ _ HF) as EF. pose proof (fl_error _ _ HG) as EG.
  assert (Hab : Qabs f * Qabs g == 1) by (rewrite <- Qabs_Qmult, Hfg; reflexivity).
  assert (E : F * G - 1 == (F - f) * G + f * (G - g)).
  { transitivity (F * G - f * g); [rewrite Hfg|]; ring. }
  rewrite E. eapply Qle_trans; [apply Qabs_triangle|]. rewrite !Qabs_Qmult.
  pose proof (Qabs_nonneg f) as Hf0. pose proof (Qabs_nonneg g) as Hg0.
  pose proof (Qabs_nonneg G) as HG0.
  pose proof (Qabs_nonneg (F - f)) as HFf0. pose proof (Qabs_nonneg (G - g)) as HGg0.
  assert (HGb : Qabs G <= Qabs g + Qabs (G - g)).
  { assert (E2 : G == g + (G - g)) by ring. rewrite E2 at 1. apply Qabs_triangle. }
  set (u := pow2 (-53)) in *. set (h := pow2 (-1075)) in *.
  assert (Hu : u == 1 # 9007199254740992) by reflexivity.
  assert (Hh : 0 < h) by apply pow2_pos.
  assert (H51 : pow2 (-51) == 4 * u) by reflexivity.
  assert (H1074 : pow2 (-1074) == 2 * h) by reflexivity.
  rewrite H51, H1074.
  set (A := Qabs f) in *. set (B := Qabs g) in *. set (C := Qabs G) in *.
  set (dF := Qabs (F - f)) in *. set (dG := Qabs (G - g)) in *.
  clearbody A B C dF dG u h.
  (* products *)
  assert (P1 : dF * C <= (A * u + h) * C) by (apply Qmult_le_compat_r; assumption).
  assert (P2 : A * dG <= A * (B * u + h)) by (apply Qmult_le_compat_left; assumption).
  assert (P3 : A * C <= A * (B + (B * u + h))).
  { apply Qmult_le_compat_left; [lra | exact Hf0]. }
  nra.
Qed.


(** C8, amended: when a product stores the conversion between [a] and
    [b] in one direction only, the factors found for [a -> b] and for
    [b -> a] are reciprocal.  Converting [x] there gives a float [y], and
    converting [y] back gives [z], whose distance from [x] is at most
    0.055 (the rounding and collapse of the way back) plus 0.055 times
    the back factor (the rounding and collapse of the way there, scaled),
    plus the rounding errors of the float arithmetic: those of the two
    products, each at most [2 ^ -53] of the product, and that of the two
    factors, whose floats multiply to 1 up to about [2 ^ -51]. *)
Theorem round_trip_scaled_tolerance (product : Product) (a b : option Z) (f g x y z : Q) :
  _find_conversion_factor product a b = Ok (Some f) ->
  _find_conversion_factor product b a = Ok (Some g) ->
  has_conversion product a b = false \/ has_conversion product b a = false ->
  convert (fl x) (fl f) = Ok y ->
  convert (fl y) (fl g) = Ok z ->
  f * g == 1
  /\ is_float y = true
  /\ exists X F G,
       fl x = Finite X /\ fl f = Finite F /\ fl g = Finite G
       /\ Qabs (z - X)
          <= (11 # 200) + (11 # 200) * Qabs G
             + Qabs X * Qabs (F * G - 1)
             + pow2 (-53) * (Qabs (y * G) + Qabs (X * F) * Qabs G)
             + pow2 (-1075) * (1 + Qabs G)
       /\ Qabs (F * G - 1) <= pow2 (-51) + pow2 (-1074) * (Qabs f + Qabs G).
Proof.
  intros Hf Hg Hone Hy Hz.
  pose proof (lookup_pair_reciprocal product a b f g Hf Hg Hone) as Hfg.
  split; [exact Hfg|].
  pose proof (convert_is_float _ _ _ Hy) as Hfy. split; [exact Hfy|].
  destruct (convert_steps _ _ _ Hy) as (X & F & p1 & HX & HF & _ & Hy1 & Hp1).
  destruct (convert_steps _ _ _ Hz) as (Y & G & p2 & HY & HG & _ & Hz2 & Hp2).
  assert (EY : Y == y).
  { rewrite (is_float_fl y Hfy) in HY. injection HY as <-. apply Qred_correct. }
  exists X, F, G. split; [exact HX|]. split; [exact HF|]. split; [exact HG|].
  split; [|apply (reciprocal_floats f g F G Hfg HF HG)].
  rewrite EY in Hp2.
  assert (E : z - X == (z - p2) + (p2 - y * G) + (y - p1) * G + (p1 - X * F) * G
                       + X * (F * G - 1)) by ring.
  rewrite E. clear E.
  pose proof (Qabs_triangle (z - p2 + (p2 - y * G) + (y - p1) * G + (p1 - X * F) * G)
                            (X * (F * G - 1))) as T1.
  pose proof (Qabs_triangle (z - p2 + (p2 - y * G) + (y - p1) * G)
                            ((p1 - X * F) * G)) as T2.
  pose proof (Qabs_triangle (z - p2 + (p2 - y * G)) ((y - p1) * G)) as T3.
  pose proof (Qabs_triangle (z - p2) (p2 - y * G)) as T4.
  rewrite !Qabs_Qmult.
  pose proof (Qabs_nonneg G) as HG0.
  assert (P1 : Qabs (y - p1) * Qabs G <= (11 # 200) * Qabs G)
    by (apply Qmult_le_compat_r; assumption).
  assert (P2 : Qabs (p1 - X * F) * Qabs G
               <= (Qabs (X * F) * pow2 (-53) + pow2 (-1075)) * Qabs G)
    by (apply Qmult_le_compat_r; assumption).
  rewrite !Qabs_Qmult in *.
  set (u := pow2 (-53)) in *. set (h := pow2 (-1075)) in *.
  generalize dependent
    (Qabs (z - p2 + (p2 - y * G) + (y - p1) * G + (p1 - X * F) * G + X * (F * G - 1))).
  generalize dependent (Qabs (z - p2 + (p2 - y * G) + (y - p1) * G + (p1 - X * F) * G)).
  generalize dependent (Qabs (z - p2 + (p2 - y * G) + (y - p1) * G)).
  generalize dependent (Qabs (z - p2 + (p2 - y * G))).
  generalize dependent (Qabs (z - p2)). generalize dependent (Qabs (p2 - y * G)).
  generalize dependent (Qabs (y - p1)). generalize dependent (Qabs (p1 - X * F)).
  generalize dependent (Qabs (F * G - 1)).
  generalize dependent (Qabs X). generalize dependent (Qabs F).
  generalize dependent (Qabs G). generalize dependent (Qabs y).
  intros. clearbody u h. nra.
Qed.


(** *** The theorems at concrete products *)

(** C3 as stated fails: a lone inverse entry without factor yields the
    factor 1 rather than [None], and one with factor 0 raises. *)
Lemma find_conversion_factor_missing_or_zero :
  _find_conversion_factor (Scenario.product_with (Scenario.purchase_to_stock None))
                          (Some 5%Z) (Some 8%Z) = Ok (Some (1 # 1))
  /\ _find_conversion_factor (Scenario.product_with (Scenario.purchase_to_stock None))
                             (Some 5%Z) (Some 8%Z) <> Ok None
  /\ _find_conversion_factor
       (Scenario.product_with (Scenario.purchase_to_stock (Some (Numeric 0))))
       (Some 5%Z) (Some 8%Z) = Raise ZeroDivisionError.
Proof. split; [reflexivity|]. split; [discriminate | reflexivity]. Qed.

Lemma find_conversion_factor_no_raise_witness :
  Forall (fun c => usable_factor c = true) [Scenario.purchase_to_stock None]
  /\ exists r,
       _find_conversion_factor (Scenario.product_with (Scenario.purchase_to_stock None))
                               (Some 5%Z) (Some 8%Z) = Ok r
       /\ r <> None.
Proof.
  assert (H : Forall (fun c => usable_factor c = true) [Scenario.purchase_to_stock None]).
  { repeat constructor. }
  split; [exact H|].
  destruct (find_conversion_factor_no_raise
              (Scenario.product_with (Scenario.purchase_to_stock None))
              (Some 5%Z) (Some 8%Z) H) as (r & Hr & Hnone & _).
  exists r. split; [exact Hr|].
  intros E. apply Hnone in E. destruct E as [_ E]. discriminate E.
Defined.


(** A hundredth that is exactly 0.05 away from an integer collapses or
    not as its float falls: 41 * 0.05 is shown as 2, while 21 * 0.05
    stays 1.05, and 59 * 0.05 is shown as 3. *)
Lemma collapse_at_boundary :
  convert (fl 41) (fl (5 # 100)) = Ok 2
  /\ (exists r, convert (fl 21) (fl (5 # 100)) = Ok r /\ fl (105 # 100) = Finite r)
  /\ convert (fl 59) (fl (5 # 100)) = Ok 3.
Proof.
  split; [vm_compute; reflexivity|]. split; [|vm_compute; reflexivity].
  eexists. split; vm_compute; reflexivity.
Qed.

(** C8 as stated fails: one gram converted to kilograms is displayed as
    0, and 0 converted back is 0, a whole unit away from the original. *)
Lemma round_trip_loses_small_quantity :
  let p := Scenario.product_with Scenario.gram_to_kilogram in
  exists f g,
    _find_conversion_factor p (Some 5%Z) (Some 8%Z) = Ok (Some f)
    /\ _find_conversion_factor p (Some 8%Z) (Some 5%Z) = Ok (Some g)
    /\ f * g == 1
    /\ format_quantity_value
         (mkGrocyItem (Some 0%Z) None (Some (Numeric 1)) (Some 5%Z) (Some p))
       = Ok (Converted 0, Some 8%Z)
    /\ convert (fl 1) (fl f) = Ok 0
    /\ convert (fl 0) (fl g) = Ok 0
    /\ ~ Qabs (0 - 1) <= 2 * ((1 # 200) + (5 # 100)).
Proof.
  exists (1 # 1000), (1 / (1 # 1000)).
  split; [reflexivity|]. split; [reflexivity|]. split; [reflexivity|].
  split; [vm_compute; reflexivity|]. split; [vm_compute; reflexivity|].
  split; [vm_compute; reflexivity|].
  intros H. vm_compute in H. apply H. reflexivity.
Qed.

Lemma round_trip_scaled_tolerance_witness :
  let p := Scenario.product_with Scenario.stock_to_purchase in
  convert (fl 3) (fl 2) = Ok 6
  /\ convert (fl 6) (fl (1 / 2)) = Ok 3
  /\ exists X F G,
       fl 3 = Finite X /\ fl 2 = Finite F /\ fl (1 / 2) = Finite G
       /\ Qabs (3 - X)
          <= (11 # 200) + (11 # 200) * Qabs G
             + Qabs X * Qabs (F * G - 1)
             + pow2 (-53) * (Qabs (6 * G) + Qabs (X * F) * Qabs G)
             + pow2 (-1075) * (1 + Qabs G).
Proof.
  intros p.
  assert (H1 : convert (fl 3) (fl 2) = Ok 6) by (vm_compute; reflexivity).
  assert (H2 : convert (fl 6) (fl (1 / 2)) = Ok 3) by (vm_compute; reflexivity).
  split; [exact H1|]. split; [exact H2|].
  destruct (round_trip_scaled_tolerance p (Some 5%Z) (Some 8%Z) 2 (1 / 2) 3 6 3
              eq_refl eq_refl (or_intror eq_refl) H1 H2)
    as (_ & _ & X & F & G & HX & HF & HG & Hb & _).
  exists X, F, G. by repeat split.
Defined.

End QuantityFormatterFacts.

(** ** The mirror client and the orchestrator *)

Section SyncFacts.

Import ItemMatcher QuantityFormatter Sync.

Implicit Types (env : Env) (cfg : Config) (st : State) (it : OgItem).

(** C10: with an empty source snapshot [sync_list] answers [True] at
    once; the deletion policy is not run, no request is sent to the
    mirror, and the mirror items and the ledger are as before, whatever the
    mirror holds and whatever the ledger tracks. *)
Theorem sync_list_empty_source_is_noop env cfg (ourgroceries_list_name : string) st :
  sync_list env cfg [] ourgroceries_list_name st = (true, st)
  /\ calls (snd (sync_list env cfg [] ourgroceries_list_name st)) = calls st
  /\ og_items (snd (sync_list env cfg [] ourgroceries_list_name st)) = og_items st
  /\ tracker (snd (sync_list env cfg [] ourgroceries_list_name st)) = tracker st.
Proof. repeat split. Qed.

(** *** What the client calls do to the state *)

Lemma get_list_items_removed env (l i : string) st :
  succeeds env (length (calls st)) = true ->
  get_list_items (snd (remove_item_from_list env l i st)) l
  = service_remove (get_list_items st l) i.
Proof.
  intros H. unfold remove_item_from_list, get_list_items. rewrite H. simpl.
  rewrite lookup_alter_eq. by destruct (og_items st !! l).
Qed.

Lemma get_list_items_added env (sep l n q : string) (cat : option string) st :
  succeeds env (length (calls st)) = true ->
  get_list_items (snd (add_item_to_list env sep l n q cat st)) l
  = service_add (fresh_id env (omap og_id (get_list_items st l)))
                (item_value sep n q) (get_list_items st l).
Proof.
  intros H. unfold add_item_to_list. rewrite H. unfold get_list_items at 1. simpl.
  by rewrite lookup_insert_eq.
Qed.

Lemma track_last_added_og_items (l : string) st :
  og_items (track_last_added l st) = og_items st.
Proof. unfold track_last_added, set_tracker. repeat case_match; reflexivity. Qed.

Lemma track_last_added_calls (l : string) st :
  calls (track_last_added l st) = calls st.
Proof. unfold track_last_added, set_tracker. repeat case_match; reflexivity. Qed.

Lemma track_last_added_og_lists (l : string) st :
  og_lists (track_last_added l st) = og_lists st.
Proof. unfold track_last_added, set_tracker. repeat case_match; reflexivity. Qed.

Lemma get_list_items_tracked (l l' : string) st :
  get_list_items (track_last_added l st) l' = get_list_items st l'.
Proof. unfold get_list_items. by rewrite track_last_added_og_items. Qed.

Lemma extract_existing_quantity_total (m : ItemMatcher.t) it :
  quantity_separator m <> EmptyString ->
  exists eq, extract_existing_quantity m it = Ok eq.
Proof.
  intros Hsep. unfold extract_existing_quantity.
  destruct it as [|i [v|] c]; [by eexists | | by eexists].
  destruct (PyStr.contains (quantity_separator m) v); [|by eexists].
  unfold PyStr.split_once. destruct (quantity_separator m) as [|c0 s0]; [done|].
  destruct (PyStr.partition _ v) as [[x y]|]; simpl; by eexists.
Qed.

(** The four ways [_update_existing_item] can go. *)
Lemma update_existing_item_cases env cfg
    (id value : string) (crossed : option bool)
    (og_item_name quantity_str : string) (category : option string)
    (og_list_id : string) st :
  quantity_separator (matcher cfg) <> EmptyString ->
  let existing := OgDict (Some id) (Some value) crossed in
  let sep := quantity_separator (matcher cfg) in
  let n := length (calls st) in
  let new_value := item_value sep og_item_name quantity_str in
  let new_id :=
    fresh_id env (omap og_id (service_remove (get_list_items st og_list_id) id)) in
  exists existing_quantity st',
    extract_existing_quantity (matcher cfg) existing = Ok existing_quantity
    /\ _update_existing_item env cfg existing og_item_name quantity_str category
                             og_list_id st = (Ok (), st')
    /\ if has_quantity_changed existing_quantity quantity_str then
         if succeeds env n then
           if succeeds env (S n) then
             calls st' = calls st ++ [CallRemove og_list_id id;
                                      CallAdd og_list_id new_value category]
             /\ get_list_items st' og_list_id
                = service_add new_id new_value
                    (service_remove (get_list_items st og_list_id) id)
             /\ (PyStr.truthy new_id = true ->
                 tracker st' = SyncTracker.track_item (tracker st) og_list_id new_id
                 /\ SyncTracker.is_tracked_item (tracker st') og_list_id new_id = true)
           else
             calls st' = calls st ++ [CallRemove og_list_id id;
                                      CallAdd og_list_id new_value category]
             /\ get_list_items st' og_list_id
                = service_remove (get_list_items st og_list_id) id
             /\ tracker st' = tracker st
         else
           calls st' = calls st ++ [CallRemove og_list_id id]
           /\ og_items st' = og_items st
           /\ tracker st' = tracker st
       else st' = st.
Proof.
  intros Hsep existing sep n new_value new_id.
  destruct (extract_existing_quantity_total (matcher cfg) existing Hsep) as [eq Heq].
  unfold _update_existing_item. rewrite Heq.
  destruct (has_quantity_changed eq quantity_str) eqn:Hch.
  2:{ exists eq, st. rewrite Hch. done. }
  simpl og_id. cbv iota.
  destruct (remove_item_from_list env og_list_id id st) as [removed st1] eqn:Hrem.
  pose proof (get_list_items_removed env og_list_id id st) as Hitems1.
  rewrite Hrem in Hitems1. simpl in Hitems1.
  unfold remove_item_from_list in Hrem. fold n in Hrem, Hitems1.
  destruct (succeeds env n) eqn:Hs1; injection Hrem as <- <-.
  2:{ eexists eq, _. split; [done|]. split; [done|]. rewrite Hch. done. }
  specialize (Hitems1 eq_refl).
  match goal with |- context [add_item_to_list ?e ?s ?l ?nm ?q ?c ?s1] =>
    set (st1 := s1) in *;
    pose proof (get_list_items_added e s l nm q c st1) as Hitems2;
    destruct (add_item_to_list e s l nm q c st1) as [added st2] eqn:Hadd
  end.
  assert (Hlen : length (calls st1) = S n).
  { subst st1. simpl. rewrite length_app. simpl. unfold n. lia. }
  unfold add_item_to_list in Hadd. rewrite Hlen in Hadd, Hitems2.
  cbn [snd] in Hitems2.
  fold sep in Hadd. fold new_value in Hadd.
  destruct (succeeds env (S n)) eqn:Hs2; injection Hadd as <- <-.
  - eexists eq, _. split; [done|]. split; [done|]. rewrite Hch.
    specialize (Hitems2 eq_refl). rewrite Hitems1 in Hitems2.
    fold sep new_value new_id in Hitems2.
    split; [|split].
    + rewrite track_last_added_calls. simpl. by rewrite <- app_assoc.
    + rewrite get_list_items_tracked. rewrite !Hitems1. exact Hitems2.
    + intros Ht. unfold track_last_added, get_last_added_item_id, set_tracker. simpl.
      rewrite Hitems1. fold new_id. rewrite Ht. simpl. rewrite Ht. simpl.
      split; [reflexivity|]. apply is_tracked_after_track.
  - eexists eq, _. split; [done|]. split; [done|]. rewrite Hch.
    simpl. split; [by rewrite <- app_assoc|]. split; [|done].
    rewrite <- Hitems1. reflexivity.
Qed.

(** C4: a matched item whose quantity changed is replaced by a remove
    request followed by an add request.  When the remove fails no add is
    sent and the ledger is untouched; when the add fails the ledger is
    untouched; when both succeed the ledger gains the id of the new item;
    when the quantity did not change nothing is sent and nothing changes. *)
Theorem update_existing_item_remove_then_create env cfg
    (id value : string) (crossed : option bool)
    (og_item_name quantity_str : string) (category : option string)
    (og_list_id : string) st :
  quantity_separator (matcher cfg) <> EmptyString ->
  let existing := OgDict (Some id) (Some value) crossed in
  let sep := quantity_separator (matcher cfg) in
  let n := length (calls st) in
  let new_value := item_value sep og_item_name quantity_str in
  let new_id :=
    fresh_id env (omap og_id (service_remove (get_list_items st og_list_id) id)) in
  exists existing_quantity st',
    extract_existing_quantity (matcher cfg) existing = Ok existing_quantity
    /\ _update_existing_item env cfg existing og_item_name quantity_str category
                             og_list_id st = (Ok (), st')
    /\ if has_quantity_changed existing_quantity quantity_str then
         if succeeds env n then
           if succeeds env (S n) then
             calls st' = calls st ++ [CallRemove og_list_id id;
                                      CallAdd og_list_id new_value category]
             /\ get_list_items st' og_list_id
                = service_add new_id new_value
                    (service_remove (get_list_items st og_list_id) id)
             /\ (PyStr.truthy new_id = true ->
                 tracker st' = SyncTracker.track_item (tracker st) og_list_id new_id
                 /\ SyncTracker.is_tracked_item (tracker st') og_list_id new_id = true)
           else
             calls st' = calls st ++ [CallRemove og_list_id id;
                                      CallAdd og_list_id new_value category]
             /\ get_list_items st' og_list_id
                = service_remove (get_list_items st og_list_id) id
             /\ tracker st' = tracker st
         else
           calls st' = calls st ++ [CallRemove og_list_id id]
           /\ og_items st' = og_items st
           /\ tracker st' = tracker st
       else st' = st.
Proof.
  intros Hsep. by apply update_existing_item_cases.
Qed.


(** *** The deletion policy *)

Lemma extract_base_name_total (m : ItemMatcher.t) (v : string) :
  quantity_separator m <> EmptyString -> exists b, extract_base_name m v = Ok b.
Proof.
  intros Hsep. unfold extract_base_name.
  destruct (PyStr.contains (quantity_separator m) (PyStr.lower v)).
  - unfold PyStr.split_head. destruct (quantity_separator m) as [|c0 s0]; [done|].
    destruct (PyStr.partition _ _) as [[x y]|]; simpl; by eexists.
  - destruct (PyStr.contains "(" (PyStr.lower v)); [|by eexists].
    unfold PyStr.split_head.
    destruct (PyStr.partition _ _) as [[x y]|]; simpl; by eexists.
Qed.

Lemma map_item_name_is_Some (m : ItemMatcher.t) (n : option string) :
  n <> None -> exists s, map_item_name m n = Some s.
Proof.
  destruct n as [n|]; [intros _|done]. simpl.
  destruct (name_mappings m !! n); by eexists.
Qed.

Lemma grocy_product_names_spec (m : ItemMatcher.t) (gs : list GrocyItem) :
  Forall (fun g => is_done g = false -> product_name g <> None) gs ->
  exists names,
    grocy_product_names m gs = Ok names
    /\ forall n, n ∈ names <->
         exists g s, g ∈ gs /\ is_done g = false
                     /\ map_item_name m (product_name g) = Some s
                     /\ n = PyStr.lower s.
Proof.
  induction gs as [|g gs IH]; intros Hall.
  - exists ∅. split; [done|]. intros n. split; [set_solver|].
    intros (g & s & Hin & _). by apply elem_of_nil in Hin.
  - apply Forall_cons in Hall as [Hg Hall].
    destruct (IH Hall) as (names & Hnames & Hspec). simpl.
    destruct (is_done g) eqn:Hd.
    + exists names. split; [done|]. intros n. rewrite Hspec. split.
      * intros (g' & s & Hin & H). exists g', s. split; [by right | done].
      * intros (g' & s & Hin & Hd' & H). apply elem_of_cons in Hin as [->|Hin].
        -- congruence.
        -- by exists g', s.
    + destruct (map_item_name_is_Some m (product_name g) (Hg eq_refl)) as [s Hs].
      rewrite Hs, Hnames. simpl. exists ({[PyStr.lower s]} ∪ names).
      split; [done|]. intros n. rewrite elem_of_union, elem_of_singleton, Hspec. split.
      * intros [->|(g' & s' & Hin & H)].
        -- exists g, s. split; [by left | done].
        -- exists g', s'. split; [by right | done].
      * intros (g' & s' & Hin & Hd' & Hm & ->). apply elem_of_cons in Hin as [->|Hin].
        -- left. congruence.
        -- right. by exists g', s'.
Qed.

Lemma items_to_remove_spec (d : DeletionConfig) (m : ItemMatcher.t) (tr : SyncTracker.t)
    (l : string) (names : gset string) (ogs : list OgItem) :
  quantity_separator m <> EmptyString ->
  exists marked,
    items_to_remove d m tr l names ogs = Ok marked
    /\ forall it, it ∈ marked <->
         it ∈ ogs
         /\ exists id v c b,
              it = OgDict (Some id) (Some v) c
              /\ respect_crossed_off d && default false c = false
              /\ preserve_manual_items d
                 && negb (SyncTracker.is_tracked_item tr l id) = false
              /\ extract_base_name m v = Ok b
              /\ b ∉ names.
Proof.
  intros Hsep. induction ogs as [|it ogs (marked & Hm & Hspec)].
  - exists []. split; [done|]. intros it. split; [intros H|intros [H _]];
      by apply elem_of_nil in H.
  - assert (Hskip : forall marked' : list OgItem,
      (forall x, x ∈ marked' <-> x ∈ marked) ->
      (forall id v c b, it = OgDict (Some id) (Some v) c ->
         respect_crossed_off d && default false c = false ->
         preserve_manual_items d && negb (SyncTracker.is_tracked_item tr l id) = false ->
         extract_base_name m v = Ok b -> b ∉ names -> False) ->
      forall x, x ∈ marked' <->
        x ∈ it :: ogs
        /\ exists id v c b,
             x = OgDict (Some id) (Some v) c
             /\ respect_crossed_off d && default false c = false
             /\ preserve_manual_items d
                && negb (SyncTracker.is_tracked_item tr l id) = false
             /\ extract_base_name m v = Ok b
             /\ b ∉ names).
    { intros marked' Heq Hno x. rewrite Heq, Hspec. split.
      - intros [Hin H]. split; [by right | done].
      - intros [Hin (id & v & c & b & -> & H1 & H2 & H3 & H4)].
        apply elem_of_cons in Hin as [<-|Hin].
        + exfalso. by eapply Hno.
        + split; [done|]. by exists id, v, c, b. }
    simpl. destruct it as [|[id|] [v|] c];
      try (exists marked; split; [done|]; apply Hskip; [done|]; intros; discriminate).
    destruct (respect_crossed_off d && default false c) eqn:E1.
    { exists marked. split; [done|]. apply Hskip; [done|].
      intros ???? [= <- <- <-]. congruence. }
    destruct (preserve_manual_items d && negb (SyncTracker.is_tracked_item tr l id)) eqn:E2.
    { exists marked. split; [done|]. apply Hskip; [done|].
      intros ???? [= <- <- <-]. congruence. }
    destruct (extract_base_name_total m v Hsep) as [b Hb]. rewrite Hb, Hm. simpl.
    destruct (decide (b ∈ names)) as [Hin|Hin].
    + rewrite (bool_decide_eq_true_2 _ Hin). exists marked. split; [done|].
      apply Hskip; [done|]. intros ???? [= <- <- <-] _ _ Hb' Hn.
      rewrite Hb in Hb'. injection Hb' as <-. done.
    + rewrite (bool_decide_eq_false_2 _ Hin).
      exists (OgDict (Some id) (Some v) c :: marked). split; [done|].
      intros x. rewrite elem_of_cons, Hspec. split.
      * intros [->|[Hx H]].
        -- split; [by left|]. by exists id, v, c, b.
        -- split; [by right | done].
      * intros [Hx H]. apply elem_of_cons in Hx as [->|Hx]; [by left|].
        right. done.
Qed.

(** C1: with deletion enabled, a non-empty separator and a name for
    every open source item, [process_deletions] runs to completion and
    hands to its removal loop exactly the mirror items it marked: those
    that are a dict with an id and a value, are not protected by the
    crossed-off guard, are not protected by the manual-items guard, and
    whose base name is not among the lower-cased mapped names of the open
    source items.  (With deletion disabled nothing is marked or removed.) *)
Theorem deletion_policy_marks_exactly env (d : DeletionConfig) (m : ItemMatcher.t)
    (og_list_id : string) (grocy_items : list GrocyItem) (og_items : list OgItem) st :
  quantity_separator m <> EmptyString ->
  Forall (fun g => is_done g = false -> product_name g <> None) grocy_items ->
  exists names marked,
    grocy_product_names m grocy_items = Ok names
    /\ items_to_remove d m (tracker st) og_list_id names og_items = Ok marked
    /\ process_deletions env d m og_list_id grocy_items og_items st
       = (Ok (), if enabled d then process_removals env d og_list_id marked st else st)
    /\ (forall n, n ∈ names <->
          exists g s, g ∈ grocy_items /\ is_done g = false
                      /\ map_item_name m (product_name g) = Some s
                      /\ n = PyStr.lower s)
    /\ (forall it, it ∈ marked <->
          it ∈ og_items
          /\ exists id value crossed base_name,
               it = OgDict (Some id) (Some value) crossed
               /\ respect_crossed_off d && default false crossed = false
               /\ preserve_manual_items d
                  && negb (SyncTracker.is_tracked_item (tracker st) og_list_id id) = false
               /\ extract_base_name m value = Ok base_name
               /\ base_name ∉ names).
Proof.
  intros Hsep Hall.
  destruct (grocy_product_names_spec m grocy_items Hall) as (names & Hn & Hnames).
  destruct (items_to_remove_spec d m (tracker st) og_list_id names og_items Hsep)
    as (marked & Hm & Hmarked).
  exists names, marked. split; [done|]. split; [done|]. split; [|done].
  unfold process_deletions. rewrite Hn, Hm. by destruct (enabled d).
Qed.

(** *** The theorems at concrete states *)

Lemma update_existing_item_remove_then_create_witness :
  quantity_separator (matcher Scenario.config) <> EmptyString
  /\ exists st',
       _update_existing_item Scenario.environment Scenario.config
         (OgDict (Some "i1") (Some "Water : 2 Bottles") None)
         "Water" "3 Bottles" None "L"
         (Scenario.state [OgDict (Some "i1") (Some "Water : 2 Bottles") None])
       = (Ok (), st')
       /\ calls st' = [CallRemove "L" "i1"; CallAdd "L" "Water : 3 Bottles" None]
       /\ get_list_items st' "L" = [OgDict (Some "n") (Some "Water : 3 Bottles") None].
Proof.
  assert (Hsep : quantity_separator (matcher Scenario.config) <> EmptyString) by done.
  split; [exact Hsep|].
  destruct (update_existing_item_remove_then_create Scenario.environment Scenario.config
              "i1" "Water : 2 Bottles" None "Water" "3 Bottles" None "L"
              (Scenario.state [OgDict (Some "i1") (Some "Water : 2 Bottles") None]) Hsep)
    as (eq & st' & Heq & Hupd & Hrest).
  exists st'. split; [exact Hupd|].
  vm_compute in Heq. injection Heq as <-.
  vm_compute in Hrest. destruct Hrest as (Hc & Hi & _).
  split; [exact Hc|]. exact Hi.
Defined.

(** The deletion-guard scenario: nothing is marked, nothing is removed. *)
Lemma deletion_policy_scenario :
  quantity_separator Scenario.default_matcher <> EmptyString
  /\ Forall (fun g => is_done g = false -> product_name g <> None) [Scenario.water]
  /\ exists names,
       grocy_product_names Scenario.default_matcher [Scenario.water] = Ok names
       /\ items_to_remove Scenario.guards Scenario.default_matcher Scenario.empty_tracker
                          "L" names Scenario.mirror_items = Ok []
       /\ process_deletions Scenario.environment Scenario.guards Scenario.default_matcher
            "L" [Scenario.water] Scenario.mirror_items
            (Scenario.state Scenario.mirror_items)
          = (Ok (), Scenario.state Scenario.mirror_items).
Proof.
  assert (Hsep : quantity_separator Scenario.default_matcher <> EmptyString) by done.
  assert (Hall : Forall (fun g => is_done g = false -> product_name g <> None)
                        [Scenario.water]).
  { repeat constructor. discriminate. }
  split; [exact Hsep|]. split; [exact Hall|].
  destruct (deletion_policy_marks_exactly Scenario.environment Scenario.guards
              Scenario.default_matcher "L" [Scenario.water] Scenario.mirror_items
              (Scenario.state Scenario.mirror_items) Hsep Hall)
    as (names & marked & Hn & Hm & Hp & _ & _).
  exists names. split; [exact Hn|].
  vm_compute in Hn. injection Hn as <-.
  assert (Hmarked : marked = []).
  { vm_compute in Hm. by injection Hm as <-. }
  subst marked. split; [exact Hm|]. rewrite Hp. reflexivity.
Defined.

End SyncFacts.

(** ** Strings: first occurrences and lower-casing *)

Section PyStrFacts.

Lemma lower_app (a b : string) :
  PyStr.lower (a +:+ b) = PyStr.lower a +:+ PyStr.lower b.
Proof. induction a as [|c a IH]; simpl; [done | by rewrite IH]. Qed.

Lemma startswith_app (p s : string) : PyStr.startswith p (p +:+ s) = true.
Proof. induction p as [|c p IH]; simpl; [done | by rewrite Ascii.eqb_refl]. Qed.

Lemma drop_length_app (p s : string) : PyStr.drop (String.length p) (p +:+ s) = s.
Proof. induction p as [|c p IH]; simpl; [by destruct s | exact IH]. Qed.

(** A prefix of [s +:+ t] no longer than [s] is a prefix of [s]. *)
Lemma startswith_shorter (p s t : string) :
  String.length p <= String.length s ->
  PyStr.startswith p (s +:+ t) = true -> PyStr.startswith p s = true.
Proof.
  revert s. induction p as [|c p IH]; intros s Hlen H; [done|].
  destruct s as [|c' s]; simpl in *; [lia|].
  destruct (Ascii.eqb c c'); [|done]. apply IH; [lia | done].
Qed.

Lemma startswith_lower (p s : string) :
  PyStr.startswith p s = true ->
  PyStr.startswith (PyStr.lower p) (PyStr.lower s) = true.
Proof.
  revert s. induction p as [|c p IH]; intros s H; [done|].
  destruct s as [|c' s]; simpl in *; [done|].
  destruct (Ascii.eqb c c') eqn:E; [|done].
  apply Ascii.eqb_eq in E as ->. rewrite Ascii.eqb_refl. by apply IH.
Qed.

Lemma string_length_app (a b : string) :
  String.length (a +:+ b) = String.length a + String.length b.
Proof. induction a as [|c a IH]; simpl; [done | by rewrite IH]. Qed.

Lemma partition_unfold (sep s : string) :
  PyStr.partition sep s =
  if PyStr.startswith sep s then Some (EmptyString, PyStr.drop (String.length sep) s)
  else match s with
       | EmptyString => None
       | String c s' =>
           match PyStr.partition sep s' with
           | Some (a, b) => Some (String c a, b)
           | None => None
           end
       end.
Proof. destruct s; reflexivity. Qed.

Lemma partition_at_start (sep s : string) :
  PyStr.partition sep (sep +:+ s) = Some (EmptyString, s).
Proof. by rewrite partition_unfold, startswith_app, drop_length_app. Qed.

Lemma app_cons (c : ascii) (a b : string) : String c a +:+ b = String c (a +:+ b).
Proof. reflexivity. Qed.

Lemma app_empty_r (s : string) : s +:+ EmptyString = s.
Proof. induction s as [|c s IH]; [done | by rewrite app_cons, IH]. Qed.

Lemma app_assoc_str (a b c : string) : (a +:+ b) +:+ c = a +:+ b +:+ c.
Proof. induction a as [|x a IH]; [done | by rewrite !app_cons, IH]. Qed.

(** When the separator first occurs in [a +:+ sep] at the end of [a], it
    first occurs there in [a +:+ sep +:+ q] too. *)
Lemma partition_extend (sep a q : string) :
  PyStr.partition sep (a +:+ sep) = Some (a, EmptyString) ->
  PyStr.partition sep (a +:+ sep +:+ q) = Some (a, q).
Proof.
  induction a as [|c a IH]; intros H.
  - exact (partition_at_start sep q).
  - change (String c a +:+ sep) with (String c (a +:+ sep)) in H.
    change (String c a +:+ sep +:+ q) with (String c (a +:+ sep +:+ q)).
    rewrite partition_unfold in H. rewrite partition_unfold.
    destruct (PyStr.startswith sep (String c (a +:+ sep))) eqn:E1; [done|].
    destruct (PyStr.partition sep (a +:+ sep)) as [[x y]|] eqn:E2; [|done].
    injection H as -> ->.
    destruct (PyStr.startswith sep (String c (a +:+ sep +:+ q))) eqn:E3.
    + exfalso.
      assert (Hlen : String.length sep <= String.length (String c (a +:+ sep))).
      { cbn [String.length]. rewrite string_length_app. lia. }
      assert (Hassoc : String c (a +:+ sep +:+ q) = (String c (a +:+ sep)) +:+ q).
      { by rewrite app_cons, app_assoc_str. }
      rewrite Hassoc in E3.
      pose proof (startswith_shorter sep _ q Hlen E3). congruence.
    + by rewrite (IH eq_refl).
Qed.

(** A separator unchanged by lower-casing that first occurs at the end
    of the lower-cased name also first occurs at the end of the name. *)
Lemma partition_raw (sep a : string) :
  PyStr.lower sep = sep ->
  PyStr.partition sep (PyStr.lower a +:+ sep) = Some (PyStr.lower a, EmptyString) ->
  PyStr.partition sep (a +:+ sep) = Some (a, EmptyString).
Proof.
  intros Hsep. induction a as [|c a IH]; intros H.
  - pose proof (partition_at_start sep EmptyString) as Hp.
    by rewrite app_empty_r in Hp.
  - change (PyStr.lower (String c a) +:+ sep)
      with (String (PyStr.lower_ascii c) (PyStr.lower a +:+ sep)) in H.
    change (PyStr.lower (String c a))
      with (String (PyStr.lower_ascii c) (PyStr.lower a)) in H.
    change (String c a +:+ sep) with (String c (a +:+ sep)).
    rewrite partition_unfold in H. rewrite partition_unfold.
    destruct (PyStr.startswith sep (String (PyStr.lower_ascii c) (PyStr.lower a +:+ sep)))
      eqn:E1; [done|].
    destruct (PyStr.partition sep (PyStr.lower a +:+ sep)) as [[x y]|] eqn:E2; [|done].
    injection H as -> ->.
    destruct (PyStr.startswith sep (String c (a +:+ sep))) eqn:E3.
    + exfalso. apply startswith_lower in E3.
      change (PyStr.lower (String c (a +:+ sep)))
        with (String (PyStr.lower_ascii c) (PyStr.lower (a +:+ sep))) in E3.
      rewrite lower_app, !Hsep in E3. congruence.
    + by rewrite (IH eq_refl).
Qed.

Lemma contains_lower (sep s : string) :
  PyStr.lower sep = sep ->
  PyStr.contains sep (PyStr.lower s) = false -> PyStr.contains sep s = false.
Proof.
  intros Hsep. unfold PyStr.contains.
  induction s as [|c s IH]; intros H.
  - exact H.
  - change (PyStr.lower (String c s))
      with (String (PyStr.lower_ascii c) (PyStr.lower s)) in H.
    rewrite partition_unfold in H. rewrite partition_unfold.
    destruct (PyStr.startswith sep (String (PyStr.lower_ascii c) (PyStr.lower s)))
      eqn:E1; [done|].
    destruct (PyStr.startswith sep (String c s)) eqn:E3.
    + apply startswith_lower in E3.
      change (PyStr.lower (String c s))
        with (String (PyStr.lower_ascii c) (PyStr.lower s)) in E3.
      rewrite Hsep in E3. congruence.
    + destruct (PyStr.partition sep (PyStr.lower s)) as [[x y]|]; [done|].
      specialize (IH eq_refl).
      by destruct (PyStr.partition sep s) as [[x y]|].
Qed.

Lemma startswith_char (a b : ascii) (s : string) :
  PyStr.startswith (String a EmptyString) (String b s) = Ascii.eqb a b.
Proof. cbn [PyStr.startswith]. by destruct (Ascii.eqb a b). Qed.

(** Without an opening parenthesis there is no legacy quantity. *)
Lemma legacy_search_no_paren (s : string) :
  PyStr.contains "(" (PyStr.lower s) = false -> ItemMatcher.legacy_search s = None.
Proof.
  unfold PyStr.contains. induction s as [|c s IH]; intros H; [done|].
  change (PyStr.lower (String c s))
    with (String (PyStr.lower_ascii c) (PyStr.lower s)) in H.
  rewrite partition_unfold, startswith_char in H.
  destruct (Ascii.eqb "(" (PyStr.lower_ascii c)) eqn:E1; [done|].
  destruct (PyStr.partition "(" (PyStr.lower s)) as [[x y]|] eqn:E2; [done|].
  cbn [ItemMatcher.legacy_search].
  destruct (Ascii.eqb c "(") eqn:E3.
  - apply Ascii.eqb_eq in E3 as ->. vm_compute in E1. done.
  - by apply IH.
Qed.

End PyStrFacts.

(** ** One pass after another *)

Section ListFacts.

Context {A B : Type}.

Lemma find_snoc (P : A -> bool) (l : list A) (x : A) :
  List.find P (l ++ [x]) =
  match List.find P l with
  | Some y => Some y
  | None => if P x then Some x else None
  end.
Proof.
  induction l as [|y l IH]; simpl; [done|]. destruct (P y); [done | exact IH].
Qed.

Lemma find_filter_Some (P : A -> bool) (Q : A -> Prop) `{!forall x, Decision (Q x)}
    (l : list A) (x : A) :
  List.find P l = Some x -> Q x -> List.find P (filter Q l) = Some x.
Proof.
  induction l as [|y l IH]; simpl; [done|]. intros Hf HQ.
  destruct (P y) eqn:E.
  - injection Hf as ->. rewrite filter_cons_True by done. simpl. by rewrite E.
  - destruct (decide (Q y)).
    + rewrite filter_cons_True by done. simpl. rewrite E. by apply IH.
    + rewrite filter_cons_False by done. by apply IH.
Qed.

Lemma find_None_iff (P : A -> bool) (l : list A) :
  List.find P l = None <-> forall x, x ∈ l -> P x = false.
Proof.
  split.
  - intros H x Hx. apply list_elem_of_In in Hx. by eapply List.find_none.
  - intros H. induction l as [|y l IH]; [done|]. simpl.
    rewrite (H y) by left. apply IH. intros x Hx. apply H. by right.
Qed.

Lemma find_Some_elem (P : A -> bool) (l : list A) (x : A) :
  List.find P l = Some x -> x ∈ l /\ P x = true.
Proof.
  intros H. apply List.find_some in H as [H1 H2]. by apply list_elem_of_In in H1.
Qed.

(** When at most one element satisfies [P], [find] returns it. *)
Lemma find_unique (P : A -> bool) (l : list A) (x : A) :
  x ∈ l -> P x = true -> (forall y, y ∈ l -> P y = true -> y = x) ->
  List.find P l = Some x.
Proof.
  intros Hx HP Huniq. destruct (List.find P l) as [y|] eqn:E.
  - apply find_Some_elem in E as [Hy HPy]. f_equal. by apply Huniq.
  - rewrite find_None_iff in E. rewrite (E x Hx) in HP. done.
Qed.

Lemma NoDup_omap_inj (f : A -> option B) (l : list A) (x y : A) (b : B) :
  NoDup (omap f l) -> x ∈ l -> y ∈ l -> f x = Some b -> f y = Some b -> x = y.
Proof.
  induction l as [|z l IH]; intros Hnd Hx Hy Hfx Hfy; [by apply elem_of_nil in Hx|].
  simpl in Hnd.
  assert (Hin : forall w, w ∈ l -> f w = Some b -> b ∈ omap f l).
  { intros w Hw Hfw. apply list_elem_of_omap. by exists w. }
  apply elem_of_cons in Hx as [->|Hx]; apply elem_of_cons in Hy as [->|Hy].
  - done.
  - rewrite Hfx in Hnd. apply NoDup_cons in Hnd as [Hn _]. exfalso. by eapply Hn, Hin.
  - rewrite Hfy in Hnd. apply NoDup_cons in Hnd as [Hn _]. exfalso. by eapply Hn, Hin.
  - destruct (f z); [apply NoDup_cons in Hnd as [_ Hnd]|]; by apply IH.
Qed.

Lemma NoDup_omap_filter (f : A -> option B) (Q : A -> Prop) `{!forall x, Decision (Q x)}
    (l : list A) :
  NoDup (omap f l) -> NoDup (omap f (filter Q l)).
Proof.
  induction l as [|z l IH]; intros Hnd; [done|]. simpl in Hnd.
  assert (Hsub : forall b, b ∈ omap f (filter Q l) -> b ∈ omap f l).
  { intros b. rewrite !list_elem_of_omap. intros (w & Hw & Hf).
    apply list_elem_of_filter in Hw as [_ Hw]. by exists w. }
  destruct (decide (Q z)).
  - rewrite filter_cons_True by done. simpl. destruct (f z) as [b|].
    + apply NoDup_cons in Hnd as [Hn Hnd]. apply NoDup_cons. split; [|by apply IH].
      intros Hb. by apply Hn, Hsub.
    + by apply IH.
  - rewrite filter_cons_False by done. apply IH.
    destruct (f z); [by apply NoDup_cons in Hnd as [_ Hnd] | done].
Qed.

End ListFacts.

Section CreatedValues.

Import ItemMatcher Sync.

Variable m : ItemMatcher.t.
Hypothesis sep_nonempty : quantity_separator m <> EmptyString.
Hypothesis sep_lower : PyStr.lower (quantity_separator m) = quantity_separator m.

Lemma split_head_partition (s a b : string) :
  PyStr.partition (quantity_separator m) s = Some (a, b) ->
  PyStr.contains (quantity_separator m) s = true
  /\ PyStr.split_head (quantity_separator m) s = Ok a
  /\ PyStr.split_once (quantity_separator m) s = Ok [a; b].
Proof.
  intros H. unfold PyStr.contains, PyStr.split_head, PyStr.split_once. rewrite H.
  by destruct (quantity_separator m).
Qed.

(** What the two extractions do for a separator without upper-case
    letters: the quantity is the text after the first separator of the
    value, the base name the trimmed text before the first separator of
    the lower-cased value. *)
Lemma extract_at_lowercase_separator (i : option string) (c : option bool)
    (v a b : string) :
  PyStr.partition (quantity_separator m) v = Some (a, b) ->
  extract_existing_quantity m (OgDict i (Some v) c) = Ok (Some b)
  /\ exists a' b',
       PyStr.partition (quantity_separator m) (PyStr.lower v) = Some (a', b')
       /\ extract_base_name m v = Ok (PyStr.strip a').
Proof.
  intros H. destruct (split_head_partition _ _ _ H) as (Hc & _ & Hs).
  split.
  - unfold extract_existing_quantity. by rewrite Hc, Hs.
  - destruct (PyStr.partition (quantity_separator m) (PyStr.lower v)) as [[a' b']|] eqn:E.
    + exists a', b'. split; [done|]. unfold extract_base_name.
      destruct (split_head_partition _ _ _ E) as (-> & -> & _). done.
    + exfalso. assert (Hl : PyStr.contains (quantity_separator m) (PyStr.lower v) = false).
      { unfold PyStr.contains. by rewrite E. }
      apply (contains_lower _ _ sep_lower) in Hl. congruence.
Qed.

(** The item written for a clean entry has the entry's key as base name. *)
Lemma base_of_created (i : string) (c : option bool) (e : string * string * option string) :
  clean_entry (quantity_separator m) e = true ->
  base_of m (OgDict (Some i)
                    (Some (item_value (quantity_separator m) (fst (fst e)) (snd (fst e)))) c)
  = Some (entry_key e).
Proof.
  destruct e as [[n q] cat]. unfold clean_entry, entry_key, item_value. simpl fst. simpl snd.
  intros H. apply andb_true_iff in H as [Hstrip H].
  apply bool_decide_eq_true in Hstrip. unfold base_of, extract_base_name.
  destruct (PyStr.truthy q).
  - apply bool_decide_eq_true in H.
    apply (partition_extend _ _ (PyStr.lower q)) in H.
    rewrite !lower_app, sep_lower.
    destruct (split_head_partition _ _ _ H) as (-> & -> & _). simpl. by rewrite Hstrip.
  - apply andb_true_iff in H as [H1 H2].
    apply negb_true_iff in H1. apply negb_true_iff in H2. by rewrite H1, H2.
Qed.

(** ... and its quantity compares as unchanged. *)
Lemma unchanged_created (i : string) (c : option bool) (e : string * string * option string) :
  clean_entry (quantity_separator m) e = true ->
  exists eq,
    extract_existing_quantity m
      (OgDict (Some i)
              (Some (item_value (quantity_separator m) (fst (fst e)) (snd (fst e)))) c)
    = Ok eq
    /\ has_quantity_changed eq (snd (fst e)) = false.
Proof.
  destruct e as [[n q] cat]. unfold clean_entry, entry_key, item_value. simpl fst. simpl snd.
  intros H. apply andb_true_iff in H as [_ H]. unfold extract_existing_quantity.
  destruct (PyStr.truthy q) eqn:Hq.
  - apply bool_decide_eq_true in H. apply (partition_raw _ _ sep_lower) in H.
    apply (partition_extend _ _ q) in H.
    destruct (split_head_partition _ _ _ H) as (-> & _ & ->). simpl.
    exists (Some q). split; [done|]. unfold has_quantity_changed.
    by rewrite decide_True.
  - apply andb_true_iff in H as [H1 H2].
    apply negb_true_iff in H1. apply negb_true_iff in H2.
    rewrite (contains_lower _ _ sep_lower H1), (legacy_search_no_paren _ H2).
    exists None. split; [done|]. by destruct q.
Qed.

Lemma base_of_Some_inv (it : OgItem) (b : string) :
  base_of m it = Some b ->
  exists i v c, it = OgDict (Some i) (Some v) c /\ extract_base_name m v = Ok b.
Proof.
  destruct it as [|[i|] [v|] c]; simpl; try done.
  destruct (extract_base_name m v) as [b'|] eqn:E; [|done].
  intros [= <-]. by exists i, v, c.
Qed.

Lemma has_base_true (ln : string) (it : OgItem) :
  has_base m ln it = true <-> base_of m it = Some ln.
Proof. unfold has_base. apply bool_decide_eq_true. Qed.

(** With a non-empty separator the matching loop never raises and is a
    search for the first item of the wanted base name. *)
Lemma find_loop_find (ln : string) (M : list OgItem) :
  find_loop m ln M = Ok (List.find (has_base m ln) M).
Proof.
  induction M as [|it M IH]; [done|]. simpl.
  destruct it as [|[i|] [v|] c]; try exact IH.
  destruct (extract_base_name_total m v sep_nonempty) as [b Hb].
  unfold has_base at 1. simpl. rewrite Hb. simpl.
  destruct (String.eqb ln b) eqn:E.
  - apply String.eqb_eq in E as ->. by rewrite bool_decide_eq_true_2.
  - apply String.eqb_neq in E. rewrite bool_decide_eq_false_2; [exact IH|].
    intros [= ->]. done.
Qed.

End CreatedValues.

Section PassInvariant.

Import ItemMatcher Sync.

Variable m : ItemMatcher.t.
Hypothesis sep_nonempty : quantity_separator m <> EmptyString.
Hypothesis sep_lower : PyStr.lower (quantity_separator m) = quantity_separator m.

Variable fresh : list string -> string.
Hypothesis fresh_is_new : forall used, fresh used ∉ used.

Variable S0 : list OgItem.
Hypothesis S0_bases : NoDup (omap (base_of m) S0).

Variable N : list string.

Implicit Types (e : string * string * option string) (M : list OgItem).

Lemma pass_inv_init : NoDup (omap og_id S0) -> pass_inv m S0 N [] S0.
Proof.
  intros Hids. constructor.
  - intros e He. by apply elem_of_nil in He.
  - intros e He. by apply elem_of_nil in He.
  - done.
  - intros x b Hx _. by left.
  - done.
  - intros y x b Hy Hny. done.
Qed.

Lemma elem_of_service_remove M (i : string) (x : OgItem) :
  x ∈ service_remove M i <-> og_id x <> Some i /\ x ∈ M.
Proof. unfold service_remove. by rewrite list_elem_of_filter. Qed.

Lemma key_in_keys e (P : list (string * string * option string)) :
  e ∈ P -> entry_key e ∈ entry_key <$> P.
Proof. intros H. apply list_elem_of_fmap. by exists e. Qed.

(** Adding the item written for [e] to items that hold no item of its
    base name, and that kept everything of another base name. *)
Lemma pass_inv_add (P : list (string * string * option string)) M M1 e :
  pass_inv m S0 N P M ->
  clean_entry (quantity_separator m) e = true ->
  entry_key e ∈ N ->
  (forall x, x ∈ M1 -> x ∈ M) ->
  (forall x, x ∈ M1 -> base_of m x <> Some (entry_key e)) ->
  (forall x b, x ∈ M -> base_of m x = Some b -> b <> entry_key e -> x ∈ M1) ->
  (forall x, x ∈ S0 -> base_of m x = Some (entry_key e) -> x ∉ M1) ->
  NoDup (omap og_id M1) ->
  (forall e' it, entry_key e' <> entry_key e ->
     List.find (has_base m (entry_key e')) M = Some it ->
     List.find (has_base m (entry_key e')) M1 = Some it) ->
  entry_key e ∉ entry_key <$> P ->
  pass_inv m S0 N (P ++ [e])
    (service_add (fresh (omap og_id M1))
       (item_value (quantity_separator m) (fst (fst e)) (snd (fst e))) M1).
Proof.
  intros [Hset Hkeys Hkept Horig Hids Hfr] Hclean HN Hsub Hnone Hsurv Hgone Hids1 Hfind Hnew.
  unfold service_add.
  set (c := OgDict (Some (fresh (omap og_id M1)))
                   (Some (item_value (quantity_separator m) (fst (fst e)) (snd (fst e))))
                   None).
  assert (Hcb : base_of m c = Some (entry_key e)).
  { by apply base_of_created. }
  constructor.
  - intros e' He'. apply elem_of_app in He' as [He'|He'].
    + destruct (Hset e' He') as (it & eq & Hf & He & Hc).
      exists it, eq. split; [|done]. rewrite find_snoc.
      rewrite (Hfind e' it); [done| |done].
      intros Heq. apply Hnew. rewrite <- Heq. by apply key_in_keys.
    + apply list_elem_of_singleton in He' as ->.
      destruct (unchanged_created m sep_nonempty sep_lower
                  (fresh (omap og_id M1)) None e Hclean) as (eq & He & Hc).
      exists c, eq. split; [|done]. rewrite find_snoc.
      assert (Hn : List.find (has_base m (entry_key e)) M1 = None).
      { apply find_None_iff. intros x Hx.
        destruct (has_base m (entry_key e) x) eqn:E; [|done].
        apply has_base_true in E. by apply Hnone in Hx. }
      rewrite Hn. by rewrite (proj2 (has_base_true m _ c) Hcb).
  - intros e' He'. apply elem_of_app in He' as [He'|He']; [by apply Hkeys|].
    by apply list_elem_of_singleton in He' as ->.
  - intros x b Hx Hb Hnb. rewrite fmap_app, elem_of_app in Hnb.
    apply elem_of_app. left. apply (Hsurv x b); [|done|].
    + apply (Hkept x b); [done..|]. intros H. apply Hnb. by left.
    + intros ->. apply Hnb. right. simpl. by left.
  - intros x b Hx Hb. rewrite fmap_app, elem_of_app.
    apply elem_of_app in Hx as [Hx|Hx].
    + destruct (Horig x b (Hsub x Hx) Hb) as [H|H]; [by left | right; by left].
    + apply list_elem_of_singleton in Hx as ->. right. right.
      rewrite Hcb in Hb. injection Hb as <-. simpl. by left.
  - rewrite omap_app. simpl. apply NoDup_app. split; [done|]. split.
    + intros i Hi Hi'. apply list_elem_of_singleton in Hi' as ->.
      by apply fresh_is_new in Hi.
    + apply NoDup_singleton.
  - intros y x b Hy HyS Hx Hb HbN.
    apply elem_of_app in Hy as [Hy|Hy]; [by apply (Hfr y x b); auto|].
    apply list_elem_of_singleton in Hy as ->. simpl.
    destruct (base_of_Some_inv m x b Hb) as (i & v & cx & -> & _). simpl.
    intros [= Hi].
    assert (HxM : OgDict (Some i) (Some v) cx ∈ M).
    { apply (Hkept _ b); [done..|]. intros H.
      apply list_elem_of_fmap in H as (e' & -> & He'). by apply HbN, Hkeys. }
    assert (HxM1 : OgDict (Some i) (Some v) cx ∈ M1).
    { apply (Hsurv _ b); [done..|]. intros ->. done. }
    apply (fresh_is_new (omap og_id M1)). rewrite Hi.
    apply list_elem_of_omap. by eexists.
Qed.

(** One entry of the first pass keeps the relation. *)
Lemma pass_inv_step (P : list (string * string * option string)) M e :
  pass_inv m S0 N P M ->
  clean_entry (quantity_separator m) e = true ->
  entry_key e ∈ N ->
  entry_key e ∉ entry_key <$> P ->
  pass_inv m S0 N (P ++ [e]) (step_items fresh m S0 M e).
Proof.
  intros Hinv Hclean HN Hnew.
  pose proof Hinv as [Hset Hkeys Hkept Horig Hids Hfr].
  unfold step_items.
  destruct (List.find (has_base m (entry_key e)) S0) as [it|] eqn:Efind.
  - apply find_Some_elem in Efind as [HitS0 Hitb]. apply has_base_true in Hitb.
    destruct (base_of_Some_inv m it _ Hitb) as (i & v & c & -> & Hb).
    set (it := OgDict (Some i) (Some v) c) in *.
    destruct (extract_existing_quantity_total m it sep_nonempty) as [eq Heq].
    rewrite Heq. simpl og_id. cbv iota.
    assert (HitM : it ∈ M) by (by eapply Hkept).
    assert (Huniq : forall x, x ∈ M -> base_of m x = Some (entry_key e) -> x = it).
    { intros x Hx Hbx. destruct (Horig x _ Hx Hbx) as [HxS|Hc]; [|done].
      by eapply (NoDup_omap_inj (base_of m) S0). }
    assert (Hid : forall x, x ∈ M -> og_id x = Some i -> x = it).
    { intros x Hx Hix. by eapply (NoDup_omap_inj og_id M). }
    destruct (has_quantity_changed eq (snd (fst e))) eqn:Hch.
    + apply (pass_inv_add P M); try done.
      * intros x Hx. by apply elem_of_service_remove in Hx as [_ Hx].
      * intros x Hx Hbx. apply elem_of_service_remove in Hx as [Hne Hx].
        apply Hne. by rewrite (Huniq x Hx Hbx).
      * intros x b Hx Hbx Hne. apply elem_of_service_remove. split; [|done].
        intros Hix. rewrite (Hid x Hx Hix) in Hbx. congruence.
      * intros x Hx Hbx Hx1. apply elem_of_service_remove in Hx1 as [Hne Hx1].
        apply Hne. by rewrite (Huniq x Hx1 Hbx).
      * by apply NoDup_omap_filter.
      * intros e' it' Hne Hf. apply find_filter_Some; [done|].
        apply find_Some_elem in Hf as [Hit' Hb']. apply has_base_true in Hb'.
        intros Hix. rewrite (Hid it' Hit' Hix) in Hb'. congruence.
    + constructor.
      * intros e' He'. apply elem_of_app in He' as [He'|He']; [by apply Hset|].
        apply list_elem_of_singleton in He' as ->. exists it, eq.
        split; [|done]. apply find_unique; [done| |].
        -- by apply has_base_true.
        -- intros y Hy Hby. apply has_base_true in Hby. by apply Huniq.
      * intros e' He'. apply elem_of_app in He' as [He'|He']; [by apply Hkeys|].
        by apply list_elem_of_singleton in He' as ->.
      * intros x b Hx Hbx Hnb. apply (Hkept x b); [done..|].
        intros H. apply Hnb. rewrite fmap_app. apply elem_of_app. by left.
      * intros x b Hx Hbx. rewrite fmap_app, elem_of_app.
        destruct (Horig x b Hx Hbx); [by left | right; by left].
      * done.
      * done.
  - rewrite find_None_iff in Efind.
    assert (HnoS0 : forall x, x ∈ S0 -> base_of m x <> Some (entry_key e)).
    { intros x Hx Hbx. apply has_base_true in Hbx. rewrite (Efind x Hx) in Hbx. done. }
    apply (pass_inv_add P M); try done.
    + intros x Hx Hbx. destruct (Horig x _ Hx Hbx) as [HxS|Hc]; [|done].
      by apply (HnoS0 x).
    + intros x Hx Hbx. by apply HnoS0 in Hbx.
Qed.

End PassInvariant.

Section Passes.

Import ItemMatcher QuantityFormatter Sync.

Variables (env : Env) (cfg : Config).

Let m := matcher cfg.

Hypothesis sep_nonempty : quantity_separator m <> EmptyString.
Hypothesis all_succeed : forall n, succeeds env n = true.

Variable og_list_id : string.

Implicit Types (e : string * string * option string) (st : State)
  (M : list OgItem) (g : GrocyItem).

Lemma get_product_info_name g : fst (_get_product_info cfg g) = product_name g.
Proof. unfold _get_product_info, product_name. by destruct (product_details g). Qed.

Lemma process_grocy_item_raise g (S : list OgItem) st (x : exn) :
  entry env cfg g = Raise x ->
  _process_grocy_item env cfg g og_list_id S st = (Raise x, st).
Proof.
  unfold entry, _process_grocy_item. intros H.
  pose proof (get_product_info_name g) as Hn.
  destruct (_get_product_info cfg g) as [pn cat]. simpl in Hn. subst pn.
  destruct (format_quantity (render env) g) as [[qv qs]|y]; [|congruence].
  fold m in H.
  destruct (map_item_name m (product_name g)) as [n|] eqn:E; [done|].
  injection H as <-. unfold find_matching_item. fold m. by rewrite E.
Qed.

Lemma process_grocy_item_ok g (S : list OgItem) st e :
  entry env cfg g = Ok e ->
  _process_grocy_item env cfg g og_list_id S st =
  match List.find (has_base m (entry_key e)) S with
  | Some it =>
      _update_existing_item env cfg it (fst (fst e)) (snd (fst e)) (snd e) og_list_id st
  | None =>
      (Ok (), _add_new_item env cfg og_list_id (fst (fst e)) (snd (fst e)) (snd e) st)
  end.
Proof.
  unfold entry, _process_grocy_item. intros H.
  pose proof (get_product_info_name g) as Hn.
  destruct (_get_product_info cfg g) as [pn cat]. simpl in Hn. subst pn.
  destruct (format_quantity (render env) g) as [[qv qs]|y]; [|done].
  fold m in H |- *.
  destruct (map_item_name m (product_name g)) as [n|] eqn:E; [|done].
  injection H as <-. unfold find_matching_item. rewrite E. simpl.
  unfold mbind, Res_bind. rewrite (find_loop_find m sep_nonempty).
  reflexivity.
Qed.

Lemma update_existing_item_og_lists (it : OgItem) (n q : string) (cat : option string) st :
  og_lists (snd (_update_existing_item env cfg it n q cat og_list_id st)) = og_lists st.
Proof.
  unfold _update_existing_item, remove_item_from_list, add_item_to_list.
  repeat (case_match; simplify_eq; simpl; rewrite ?track_last_added_og_lists; try done).
Qed.

Lemma add_new_item_state (n q : string) (cat : option string) st :
  let st' := _add_new_item env cfg og_list_id n q cat st in
  og_lists st' = og_lists st
  /\ get_list_items st' og_list_id
     = service_add (fresh_id env (omap og_id (get_list_items st og_list_id)))
                   (item_value (quantity_separator m) n q)
                   (get_list_items st og_list_id).
Proof.
  unfold _add_new_item.
  pose proof (get_list_items_added env (quantity_separator m) og_list_id n q cat st
                (all_succeed _)) as H.
  fold m. destruct (add_item_to_list env (quantity_separator m) og_list_id n q cat st)
    as [ok st1] eqn:E.
  simpl in H. unfold add_item_to_list in E. rewrite all_succeed in E.
  injection E as <- <-. rewrite track_last_added_og_lists, get_list_items_tracked.
  split; [done | exact H].
Qed.

(** One source item of the first pass, in terms of the mirror items. *)
Lemma process_grocy_item_step g (S0 : list OgItem) st e :
  entry env cfg g = Ok e ->
  exists st',
    _process_grocy_item env cfg g og_list_id S0 st = (Ok (), st')
    /\ og_lists st' = og_lists st
    /\ get_list_items st' og_list_id
       = step_items (fresh_id env) m S0 (get_list_items st og_list_id) e.
Proof.
  intros He. rewrite (process_grocy_item_ok g S0 st e He). unfold step_items.
  destruct (List.find (has_base m (entry_key e)) S0) as [it|] eqn:Efind.
  - apply find_Some_elem in Efind as [_ Hb]. apply has_base_true in Hb.
    destruct (base_of_Some_inv m it _ Hb) as (i & v & c & -> & _).
    destruct (update_existing_item_cases env cfg i v c (fst (fst e)) (snd (fst e))
                (snd e) og_list_id st sep_nonempty) as (eq & st' & Heq & Hupd & Hcases).
    exists st'. split; [exact Hupd|].
    pose proof (update_existing_item_og_lists (OgDict (Some i) (Some v) c)
                  (fst (fst e)) (snd (fst e)) (snd e) st) as Hl.
    rewrite Hupd in Hl. split; [exact Hl|].
    fold m in Heq. rewrite Heq. simpl og_id. cbv iota.
    destruct (has_quantity_changed eq (snd (fst e))).
    + rewrite !all_succeed in Hcases. by destruct Hcases as (_ & H & _).
    + by subst st'.
  - destruct (add_new_item_state (fst (fst e)) (snd (fst e)) (snd e) st) as [Hl Hi].
    eexists. split; [reflexivity|]. split; [exact Hl | exact Hi].
Qed.

(** An entry the mirror already holds is skipped, state untouched. *)
Lemma process_grocy_item_settled g M st e :
  entry env cfg g = Ok e -> settled m M e ->
  _process_grocy_item env cfg g og_list_id M st = (Ok (), st).
Proof.
  intros He (it & eq & Hf & Heq & Hc).
  rewrite (process_grocy_item_ok g M st e He), Hf.
  unfold _update_existing_item. fold m. by rewrite Heq, Hc.
Qed.

(** The first pass over the source items. *)
Lemma process_items_first (S0 : list OgItem) (gs : list GrocyItem) st :
  exists st',
    process_items env cfg og_list_id S0 gs st = (snd (run_entries env cfg gs), st')
    /\ og_lists st' = og_lists st
    /\ get_list_items st' og_list_id
       = fold_left (step_items (fresh_id env) m S0) (fst (run_entries env cfg gs))
                   (get_list_items st og_list_id).
Proof.
  revert st. induction gs as [|g gs IH]; intros st; [by exists st|].
  simpl. destruct (is_done g); [apply IH|].
  destruct (entry env cfg g) as [e|x] eqn:He.
  - destruct (process_grocy_item_step g S0 st e He) as (st1 & -> & Hl & Hi).
    destruct (IH st1) as (st' & Hp & Hl' & Hi').
    destruct (run_entries env cfg gs) as [es r]. simpl in *.
    exists st'. split; [exact Hp|]. split; [congruence|]. by rewrite Hi', Hi.
  - rewrite (process_grocy_item_raise g S0 st x He). by exists st.
Qed.

(** A pass over source items whose entries the mirror already holds. *)
Lemma process_items_settled M (gs : list GrocyItem) st :
  (forall e, e ∈ fst (run_entries env cfg gs) -> settled m M e) ->
  process_items env cfg og_list_id M gs st = (snd (run_entries env cfg gs), st).
Proof.
  induction gs as [|g gs IH]; intros Hs; [done|].
  simpl in *. destruct (is_done g); [by apply IH|].
  destruct (entry env cfg g) as [e|x] eqn:He.
  - destruct (run_entries env cfg gs) as [es r] eqn:Er. simpl in *.
    rewrite (process_grocy_item_settled g M st e He); [|apply Hs; by left].
    apply IH. intros e' He'. apply Hs. by right.
  - by rewrite (process_grocy_item_raise g M st x He).
Qed.

Lemma entries_cons g (gs : list GrocyItem) :
  entries env cfg (g :: gs) =
  if is_done g then entries env cfg gs
  else match entry env cfg g with
       | Ok e => e :: entries env cfg gs
       | Raise _ => entries env cfg gs
       end.
Proof.
  unfold entries. simpl. destruct (is_done g); [done|]. by destruct (entry env cfg g).
Qed.

Lemma run_entries_prefix (gs : list GrocyItem) :
  exists rest, entries env cfg gs = fst (run_entries env cfg gs) ++ rest.
Proof.
  induction gs as [|g gs [rest IH]]; [by exists []|].
  rewrite entries_cons. simpl. destruct (is_done g); [by exists rest|].
  destruct (entry env cfg g) as [e|x].
  - destruct (run_entries env cfg gs) as [es r]. simpl in *.
    exists rest. by rewrite IH.
  - by eexists.
Qed.

Lemma run_entries_all (gs : list GrocyItem) :
  snd (run_entries env cfg gs) = Ok () ->
  fst (run_entries env cfg gs) = entries env cfg gs
  /\ Forall (fun g => is_done g = false -> exists e, entry env cfg g = Ok e) gs.
Proof.
  induction gs as [|g gs IH]; [done|].
  rewrite entries_cons. simpl. destruct (is_done g) eqn:Hd.
  - intros H. destruct (IH H) as [H1 H2]. split; [done|].
    apply Forall_cons. split; [intros ?; congruence | exact H2].
  - destruct (entry env cfg g) as [e|x] eqn:He; [|done].
    destruct (run_entries env cfg gs) as [es r]. simpl in *.
    intros H. destruct (IH H) as [H1 H2]. split; [by rewrite H1|].
    apply Forall_cons. split; [intros _; by eexists | exact H2].
Qed.

Lemma entry_name g e :
  entry env cfg g = Ok e -> map_item_name m (product_name g) = Some (fst (fst e)).
Proof.
  unfold entry. destruct (format_quantity (render env) g) as [[qv qs]|]; [|done].
  fold m. destruct (map_item_name m (product_name g)); [|done]. by intros [= <-].
Qed.

Lemma elem_of_entries (gs : list GrocyItem) e :
  e ∈ entries env cfg gs <->
  exists g, g ∈ gs /\ is_done g = false /\ entry env cfg g = Ok e.
Proof.
  unfold entries. rewrite list_elem_of_omap. split.
  - intros (g & Hg & H). exists g. split; [done|].
    destruct (is_done g); [done|]. destruct (entry env cfg g); [|done].
    by injection H as ->.
  - intros (g & Hg & Hd & He). exists g. split; [done|]. by rewrite Hd, He.
Qed.

End Passes.

Section Removals.

Import ItemMatcher Sync.

Variables (env : Env) (d : DeletionConfig) (og_list_id : string).

Hypothesis all_succeed : forall n, succeeds env n = true.

Implicit Types (st : State) (marked : list OgItem).

Lemma list_remove_first_subset (x y : string) (l : list string) :
  y ∈ SyncTracker.list_remove_first x l -> y ∈ l.
Proof.
  induction l as [|z l IH]; simpl; [done|].
  destruct (decide (x = z)); [by right|].
  intros H. apply elem_of_cons in H as [->|H]; [by left | right; by apply IH].
Qed.

(** Forgetting an id never makes another id tracked. *)
Lemma remove_tracking_tracked (tr : SyncTracker.t) (l i j : string) :
  SyncTracker.is_tracked_item (SyncTracker.remove_tracking tr l i) l j = true ->
  SyncTracker.is_tracked_item tr l j = true.
Proof.
  unfold SyncTracker.remove_tracking.
  destruct (SyncTracker.is_tracked_item tr l i) eqn:E; [|done].
  unfold SyncTracker.is_tracked_item, SyncTracker._save_tracking_data,
    SyncTracker.ids_of in *. simpl.
  rewrite lookup_insert_eq. destruct (SyncTracker.lists tr !! l) as [ids|]; [|done].
  simpl. intros H. apply bool_decide_eq_true in H. apply bool_decide_eq_true.
  by eapply list_remove_first_subset.
Qed.

Lemma process_removals_dry_run marked st :
  dry_run d = true -> process_removals env d og_list_id marked st = st.
Proof.
  intros Hd. induction marked as [|x marked IH]; [done|]. simpl. by rewrite Hd.
Qed.

(** The removals of a live run on a mirror that accepts them all. *)
Lemma process_removals_live marked st :
  dry_run d = false ->
  let st' := process_removals env d og_list_id marked st in
  og_lists st' = og_lists st
  /\ (forall y, y ∈ get_list_items st' og_list_id ->
        y ∈ get_list_items st og_list_id
        /\ forall x i, x ∈ marked -> og_id x = Some i -> og_id y <> Some i)
  /\ (forall (P : OgItem -> bool) it,
        List.find P (get_list_items st og_list_id) = Some it ->
        (forall x i, x ∈ marked -> og_id x = Some i -> og_id it <> Some i) ->
        List.find P (get_list_items st' og_list_id) = Some it)
  /\ (forall j, SyncTracker.is_tracked_item (tracker st') og_list_id j = true ->
        SyncTracker.is_tracked_item (tracker st) og_list_id j = true).
Proof.
  intros Hd. revert st. induction marked as [|x marked IH]; intros st; simpl.
  - split; [done|]. split; [|done]. intros y Hy. split; [done|].
    intros x i Hx. by apply elem_of_nil in Hx.
  - rewrite Hd. destruct (og_id x) as [i|] eqn:Hi.
    + pose proof (get_list_items_removed env og_list_id i st (all_succeed _)) as Hrem.
      destruct (remove_item_from_list env og_list_id i st) as [ok st1] eqn:E.
      simpl in Hrem. unfold remove_item_from_list in E. rewrite all_succeed in E.
      injection E as <- <-.
      match goal with |- context [process_removals _ _ _ _ ?s] => set (st2 := s) end.
      assert (Hi2 : get_list_items st2 og_list_id
                    = service_remove (get_list_items st og_list_id) i) by exact Hrem.
      destruct (IH st2) as (Hl & Hmem & Hfind & Htr).
      split; [exact Hl|]. split; [|split].
      * intros y Hy. destruct (Hmem y Hy) as [Hy2 Hny]. rewrite Hi2 in Hy2.
        apply elem_of_service_remove in Hy2 as [Hne Hy2]. split; [done|].
        intros x' i' Hx' Hi'. apply elem_of_cons in Hx' as [->|Hx'].
        -- congruence.
        -- by eapply Hny.
      * intros P it Hf Hne. apply Hfind.
        -- rewrite Hi2. apply find_filter_Some; [done|]. apply (Hne x); [by left | done].
        -- intros x' i' Hx'. apply Hne. by right.
      * intros j Hj. apply Htr in Hj. simpl in Hj.
        by apply remove_tracking_tracked in Hj.
    + destruct (IH st) as (Hl & Hmem & Hfind & Htr).
      split; [exact Hl|]. split; [|split].
      * intros y Hy. destruct (Hmem y Hy) as [Hy2 Hny]. split; [done|].
        intros x' i' Hx' Hi'. apply elem_of_cons in Hx' as [->|Hx'].
        -- congruence.
        -- by eapply Hny.
      * intros P it Hf Hne. apply Hfind; [done|].
        intros x' i' Hx'. apply Hne. by right.
      * exact Htr.
Qed.

End Removals.

Section PassInvariantFold.

Import ItemMatcher Sync.

Variable m : ItemMatcher.t.
Hypothesis sep_nonempty : quantity_separator m <> EmptyString.
Hypothesis sep_lower : PyStr.lower (quantity_separator m) = quantity_separator m.
Variable fresh : list string -> string.
Hypothesis fresh_is_new : forall used, fresh used ∉ used.
Variable S0 : list OgItem.
Hypothesis S0_bases : NoDup (omap (base_of m) S0).
Variable N : list string.

(** A run of entries of the first pass keeps the relation. *)
Lemma pass_inv_fold (es P : list (string * string * option string)) (M : list OgItem) :
  pass_inv m S0 N P M ->
  Forall (fun e => clean_entry (quantity_separator m) e = true) es ->
  (forall e, e ∈ es -> entry_key e ∈ N) ->
  NoDup (entry_key <$> (P ++ es)) ->
  pass_inv m S0 N (P ++ es) (fold_left (step_items fresh m S0) es M).
Proof.
  revert P M. induction es as [|e es IH]; intros P M Hinv Hclean HN Hnd.
  - by rewrite app_nil_r.
  - apply Forall_cons in Hclean as [Hce Hclean]. simpl.
    replace (P ++ e :: es) with ((P ++ [e]) ++ es) in * by (by rewrite <- app_assoc).
    apply IH; [|done| |done].
    + apply pass_inv_step; try done.
      * apply HN. by left.
      * rewrite !fmap_app in Hnd. apply NoDup_app in Hnd as [Hnd _].
        apply NoDup_app in Hnd as (_ & Hnd & _). intros H.
        apply (Hnd _ H). simpl. by left.
    + intros e' He'. apply HN. by right.
Qed.

End PassInvariantFold.

Section TwoPasses.

Import ItemMatcher QuantityFormatter Sync.

Variables (env env2 : Env) (cfg : Config).

Let m := matcher cfg.
Let d := deletion cfg.

Hypothesis all_succeed : forall n, succeeds env n = true.
Hypothesis fresh_is_new : forall used, fresh_id env used ∉ used.
Hypothesis same_render : render env2 = render env.
Hypothesis sep_nonempty : quantity_separator m <> EmptyString.
Hypothesis sep_lower : PyStr.lower (quantity_separator m) = quantity_separator m.

Variable gs : list GrocyItem.

Hypothesis entries_clean :
  Forall (fun e => clean_entry (quantity_separator m) e = true) (entries env cfg gs).
Hypothesis entries_distinct : NoDup (entry_key <$> entries env cfg gs).

Lemma run_entries_render : run_entries env2 cfg gs = run_entries env cfg gs.
Proof.
  clear entries_clean entries_distinct.
  induction gs as [|g l IH]; [done|]. simpl. rewrite IH.
  unfold entry. by rewrite same_render.
Qed.

Lemma sync_list_unfold (e : Env) (name : string) (st : State) :
  gs <> [] ->
  sync_list e cfg gs name st =
  match get_list_by_name st name with
  | None => (false, st)
  | Some og_list_id =>
      match process_items e cfg og_list_id (get_list_items st og_list_id) gs st with
      | (Raise _, st1) => (false, st1)
      | (Ok _, st1) =>
          match process_deletions e d m og_list_id gs (get_list_items st og_list_id) st1 with
          | (Raise _, st2) => (false, st2)
          | (Ok _, st2) => (true, st2)
          end
      end
  end.
Proof. clear. intros H. by destruct gs. Qed.

Lemma entries_have_names :
  snd (run_entries env cfg gs) = Ok () ->
  Forall (fun g => is_done g = false -> product_name g <> None) gs.
Proof.
  intros H. destruct (run_entries_all env cfg gs H) as [_ Hall].
  eapply Forall_impl; [exact Hall|]. simpl. intros g Hg Hd.
  destruct (Hg Hd) as [e He]. apply entry_name in He.
  intros Hn. rewrite Hn in He. done.
Qed.

Lemma entry_key_in_names (names : gset string) (e : string * string * option string) :
  (forall n, n ∈ names <->
     exists g s, g ∈ gs /\ is_done g = false
                 /\ map_item_name m (product_name g) = Some s
                 /\ n = PyStr.lower s) ->
  e ∈ entries env cfg gs -> entry_key e ∈ names.
Proof.
  intros Hn He. apply elem_of_entries in He as (g & Hg & Hd & He).
  apply Hn. exists g, (fst (fst e)). split; [done|]. split; [done|].
  split; [by apply entry_name in He | done].
Qed.

(** After a first pass on a mirror that accepts every request, a
    second pass over the same source changes nothing. *)
Lemma second_pass_changes_nothing (name : string) (st0 : State) :
  NoDup (omap og_id (mirror_snapshot st0 name)) ->
  NoDup (omap (base_of m) (mirror_snapshot st0 name)) ->
  sync_list env2 cfg gs name (snd (sync_list env cfg gs name st0))
  = sync_list env cfg gs name st0.
Proof.
  intros Hids Hbases. destruct (decide (gs = [])) as [Hnil|Hnil].
  { by rewrite Hnil. }
  unfold mirror_snapshot in Hids, Hbases.
  rewrite (sync_list_unfold env name st0 Hnil).
  destruct (get_list_by_name st0 name) as [l|] eqn:Elist.
  2:{ simpl. by rewrite (sync_list_unfold env2 name st0 Hnil), Elist. }
  set (S0 := get_list_items st0 l) in *.
  set (N := entry_key <$> entries env cfg gs).
  destruct (process_items_first env cfg sep_nonempty all_succeed l S0 gs st0)
    as (st1 & Hp1 & Hl1 & Hi1).
  rewrite Hp1. fold S0 in Hi1.
  set (es := fst (run_entries env cfg gs)) in *.
  destruct (run_entries_prefix env cfg gs) as [rest Hrest]. fold es in Hrest.
  assert (Hes : forall e, e ∈ es -> e ∈ entries env cfg gs).
  { intros e He. rewrite Hrest. apply elem_of_app. by left. }
  assert (Hinv : pass_inv m S0 N es (get_list_items st1 l)).
  { rewrite Hi1. change es with ([] ++ es).
    apply (pass_inv_fold m sep_nonempty sep_lower (fresh_id env) fresh_is_new S0 Hbases N).
    - by apply pass_inv_init.
    - rewrite Hrest in entries_clean. by apply Forall_app in entries_clean as [H _].
    - intros e He. by apply key_in_keys, Hes.
    - simpl. rewrite Hrest, fmap_app in entries_distinct.
      by apply NoDup_app in entries_distinct as [H _]. }
  assert (Hlist1 : forall st, og_lists st = og_lists st1 -> get_list_by_name st name = Some l).
  { intros st Hst. unfold get_list_by_name in *. by rewrite Hst, Hl1. }
  assert (Hsecond : forall st M,
    (forall e, e ∈ es -> settled m M e) ->
    process_items env2 cfg l M gs st = (snd (run_entries env cfg gs), st)).
  { intros st M Hs. rewrite <- run_entries_render.
    apply (process_items_settled env2 cfg sep_nonempty).
    rewrite run_entries_render. exact Hs. }
  destruct (snd (run_entries env cfg gs)) as [[]|x] eqn:Er.
  - (* the loop over the source items completed *)
    unfold process_deletions. destruct (enabled d) eqn:Hen; simpl negb; cbv iota.
    2:{ simpl. rewrite (sync_list_unfold env2 name st1 Hnil), (Hlist1 st1 eq_refl).
        rewrite (Hsecond st1 _ (inv_settled _ _ _ _ _ Hinv)).
        unfold process_deletions. by rewrite Hen. }
    destruct (grocy_product_names_spec m gs (entries_have_names Er))
      as (names & Hnames & Hnspec).
    rewrite Hnames.
    destruct (items_to_remove_spec d m (tracker st1) l names S0 sep_nonempty)
      as (marked & Hmarked & Hmspec).
    rewrite Hmarked.
    assert (Hkey : forall e, e ∈ es -> entry_key e ∈ names).
    { intros e He. by apply (entry_key_in_names names e Hnspec), Hes. }
    assert (HnotN : forall b, b ∉ names -> b ∉ N).
    { intros b Hb HbN. apply list_elem_of_fmap in HbN as (e & -> & He).
      by apply Hb, (entry_key_in_names names e Hnspec). }
    assert (Hnotes : forall b, b ∉ names -> b ∉ entry_key <$> es).
    { intros b Hb Hbe. apply list_elem_of_fmap in Hbe as (e & -> & He).
      by apply Hb, Hkey. }
    destruct (dry_run d) eqn:Hdry.
    + rewrite (process_removals_dry_run env d l marked st1 Hdry). simpl.
      rewrite (sync_list_unfold env2 name st1 Hnil), (Hlist1 st1 eq_refl).
      rewrite (Hsecond st1 _ (inv_settled _ _ _ _ _ Hinv)).
      unfold process_deletions. rewrite Hen, Hnames. simpl negb. cbv iota.
      destruct (items_to_remove_spec d m (tracker st1) l names (get_list_items st1 l)
                  sep_nonempty) as (marked2 & -> & _).
      by rewrite (process_removals_dry_run env2 d l marked2 st1 Hdry).
    + destruct (process_removals_live env d l all_succeed marked st1 Hdry)
        as (Hl2 & Hmem & Hfind & Htr).
      set (st2 := process_removals env d l marked st1) in *. simpl.
      rewrite (sync_list_unfold env2 name st2 Hnil), (Hlist1 st2 Hl2).
      assert (Hbase_marked : forall x i, x ∈ marked -> og_id x = Some i ->
                exists b, x ∈ S0 /\ base_of m x = Some b /\ b ∉ names).
      { intros x i Hx Hi. apply Hmspec in Hx as (HxS & id & v & c & b & -> & _ & _ & Hb & Hn).
        exists b. split; [done|]. split; [|done]. simpl. by rewrite Hb. }
      rewrite (Hsecond st2 (get_list_items st2 l)).
      2:{ intros e He. destruct (inv_settled _ _ _ _ _ Hinv e He) as (it & eq & Hf & Heq & Hc).
          exists it, eq. split; [|done]. apply Hfind; [done|].
          intros x i Hx Hi Hit.
          destruct (Hbase_marked x i Hx Hi) as (b & HxS & Hb & Hn).
          apply find_Some_elem in Hf as [HitM Hitb]. apply has_base_true in Hitb.
          destruct (decide (it ∈ S0)) as [HitS|HitS].
          - assert (it = x) as -> by (by eapply (NoDup_omap_inj og_id S0)).
            rewrite Hb in Hitb. injection Hitb as ->. by apply Hn, Hkey.
          - apply (inv_fresh _ _ _ _ _ Hinv it x b); try done.
            + by apply HnotN.
            + congruence. }
      unfold process_deletions. rewrite Hen, Hnames. simpl negb. cbv iota.
      destruct (items_to_remove_spec d m (tracker st2) l names (get_list_items st2 l)
                  sep_nonempty) as (marked2 & -> & Hm2).
      destruct marked2 as [|z zs]; [done|]. exfalso.
      destruct (proj1 (Hm2 z) ltac:(by left))
        as (Hz & id & v & c & b & -> & Hcross & Hman & Hb & Hn).
      destruct (Hmem _ Hz) as [Hz1 Hnot].
      assert (Hzb : base_of m (OgDict (Some id) (Some v) c) = Some b).
      { simpl. by rewrite Hb. }
      destruct (inv_origin _ _ _ _ _ Hinv _ b Hz1 Hzb) as [HzS|Hbad].
      2:{ by apply (Hnotes b Hn). }
      apply (Hnot (OgDict (Some id) (Some v) c) id); [|done..].
      apply Hmspec. split; [done|]. exists id, v, c, b.
      split; [done|]. split; [done|]. split; [|done].
      destruct (preserve_manual_items d); [|done]. simpl in *.
      apply negb_false_iff in Hman. apply negb_false_iff. by apply Htr.
  - (* an entry raised: the pass stopped there, and will again *)
    simpl. rewrite (sync_list_unfold env2 name st1 Hnil), (Hlist1 st1 eq_refl).
    by rewrite (Hsecond st1 _ (inv_settled _ _ _ _ _ Hinv)).
Qed.

End TwoPasses.

(** ** Idempotence of the pass *)

Section Idempotence.

Import ItemMatcher QuantityFormatter Sync.

(** C2, amended: take a non-empty separator without upper-case
    letters, a source whose open items have clean and pairwise distinct
    lower-cased mapped names, a mirror list whose items have pairwise
    distinct ids and base names, and a mirror that accepts every request
    of the first pass and hands out unused ids.  Then every value the
    first pass writes is matched again by base name with an unchanged
    quantity, and a second pass over the same source sends no request
    (no creation, no update, no removal), leaves mirror and ledger as
    they are and ends like the first. *)
Theorem sync_list_second_pass_is_noop (env env2 : Env) (cfg : Config)
    (grocy_items : list GrocyItem) (ourgroceries_list_name : string) (st0 : State) :
  let sep := quantity_separator (matcher cfg) in
  (forall n, succeeds env n = true) ->
  (forall used, fresh_id env used ∉ used) ->
  render env2 = render env ->
  sep <> EmptyString ->
  PyStr.lower sep = sep ->
  Forall (fun e => clean_entry sep e = true) (entries env cfg grocy_items) ->
  NoDup (entry_key <$> entries env cfg grocy_items) ->
  NoDup (omap og_id (mirror_snapshot st0 ourgroceries_list_name)) ->
  NoDup (omap (base_of (matcher cfg)) (mirror_snapshot st0 ourgroceries_list_name)) ->
  let first := sync_list env cfg grocy_items ourgroceries_list_name st0 in
  let second := sync_list env2 cfg grocy_items ourgroceries_list_name (snd first) in
  snd second = snd first
  /\ fst second = fst first
  /\ calls (snd second) = calls (snd first)
  /\ og_items (snd second) = og_items (snd first)
  /\ tracker (snd second) = tracker (snd first)
  /\ forall e id crossed,
       e ∈ entries env cfg grocy_items ->
       let written :=
         OgDict (Some id) (Some (item_value sep (fst (fst e)) (snd (fst e)))) crossed in
       base_of (matcher cfg) written = Some (entry_key e)
       /\ exists existing_quantity,
            extract_existing_quantity (matcher cfg) written = Ok existing_quantity
            /\ has_quantity_changed existing_quantity (snd (fst e)) = false.
Proof.
  intros sep Hsucc Hfresh Hrender Hne Hlow Hclean Hdistinct Hids Hbases first second.
  assert (H : second = first).
  { by apply second_pass_changes_nothing. }
  rewrite H. repeat (split; [reflexivity|]).
  intros e id crossed He written.
  rewrite Forall_forall in Hclean. specialize (Hclean e He).
  split.
  - by apply base_of_created.
  - by apply unchanged_created.
Qed.

(** C2 as stated fails: with two open source lines of the same name and
    different quantities, the first pass creates both, and the second
    pass matches the second line with the first entry, finds the quantity
    changed, removes that entry and creates another one. *)
Lemma second_pass_updates_duplicate_name :
  let source := [Scenario.milk 1; Scenario.milk 2] in
  let first := sync_list Scenario.milk_environment Scenario.config source "Shopping"
                         (Scenario.state []) in
  let second := sync_list Scenario.milk_environment Scenario.config source "Shopping"
                          (snd first) in
  fst first = true
  /\ calls (snd first) = [CallAdd "L" "Milk : 1" None; CallAdd "L" "Milk : 2" None]
  /\ get_list_items (snd first) "L"
     = [OgDict (Some "n") (Some "Milk : 1") None; OgDict (Some "nn") (Some "Milk : 2") None]
  /\ fst second = true
  /\ calls (snd second)
     = calls (snd first) ++ [CallRemove "L" "n"; CallAdd "L" "Milk : 2" None]
  /\ calls (snd second) <> calls (snd first).
Proof. vm_compute. repeat (split; [reflexivity|]). discriminate. Qed.

Lemma concat_length_ge (x : string) (l : list string) :
  x ∈ l -> String.length x <= String.length (String.concat "" l).
Proof.
  induction l as [|y l IH]; intros Hx; [by apply elem_of_nil in Hx|].
  assert (E : String.concat "" (y :: l) = y +:+ String.concat "" l).
  { destruct l; simpl; [by rewrite app_empty_r | done]. }
  rewrite E, string_length_app.
  apply elem_of_cons in Hx as [->|Hx]; [lia|]. specialize (IH Hx). lia.
Qed.

Lemma new_id_is_new (used : list string) : Scenario.new_id used ∉ used.
Proof.
  intros H. apply concat_length_ge in H. unfold Scenario.new_id in H.
  rewrite (string_length_app "n") in H. simpl in H. lia.
Qed.

Lemma sync_list_second_pass_is_noop_witness :
  let first := sync_list Scenario.environment Scenario.config [Scenario.water] "Shopping"
                         (Scenario.state Scenario.stale_mirror_items) in
  let second := sync_list Scenario.environment Scenario.config [Scenario.water] "Shopping"
                          (snd first) in
  calls (snd first) = [CallRemove "L" "i1"; CallAdd "L" "Water : 3 Bottles" None;
                       CallRemove "L" "i3"]
  /\ snd second = snd first
  /\ calls (snd second) = calls (snd first).
Proof.
  intros first second. split; [reflexivity|].
  destruct (sync_list_second_pass_is_noop Scenario.environment Scenario.environment
              Scenario.config [Scenario.water] "Shopping"
              (Scenario.state Scenario.stale_mirror_items))
    as (H1 & _ & H2 & _).
  - intros n. reflexivity.
  - apply new_id_is_new.
  - reflexivity.
  - discriminate.
  - reflexivity.
  - repeat constructor.
  - refine (bool_decide_unpack _ _). vm_compute. exact I.
  - refine (bool_decide_unpack _ _). vm_compute. exact I.
  - refine (bool_decide_unpack _ _). vm_compute. exact I.
  - split; [exact H1 | exact H2].
Defined.

End Idempotence.

(** * Further properties *)

(** ** More on the matcher *)

Section MatcherMore.

Import ItemMatcher.

Lemma find_split {A : Type} (P : A -> bool) (l : list A) (x : A) :
  List.find P l = Some x ->
  exists before after,
    l = before ++ x :: after /\ P x = true /\ forall y, y ∈ before -> P y = false.
Proof.
  induction l as [|y l IH]; simpl; [done|].
  destruct (P y) eqn:E.
  - intros [= ->]. exists [], l. split; [done|]. split; [done|].
    intros z Hz. by apply elem_of_nil in Hz.
  - intros H. destruct (IH H) as (before & after & -> & HP & Hb).
    exists (y :: before), after. split; [done|]. split; [done|].
    intros z Hz. apply elem_of_cons in Hz as [->|Hz]; [done | by apply Hb].
Qed.

(** X1: [find_matching_item] raises on a missing name; otherwise it
    returns the first mirror item, in snapshot order, that has an id and
    a value and whose base name is the lower-cased mapped name, and [None]
    exactly when there is no such item. *)
Theorem find_matching_item_first_match (m : ItemMatcher.t) (grocy_name : string)
    (og_items : list OgItem) :
  quantity_separator m <> EmptyString ->
  let key := PyStr.lower (default grocy_name (name_mappings m !! grocy_name)) in
  find_matching_item m None og_items = Raise AttributeError
  /\ exists r,
       find_matching_item m (Some grocy_name) og_items = Ok r
       /\ match r with
          | Some it =>
              exists before after id value crossed,
                og_items = before ++ it :: after
                /\ it = OgDict (Some id) (Some value) crossed
                /\ extract_base_name m value = Ok key
                /\ forall x, x ∈ before -> base_of m x <> Some key
          | None => forall x, x ∈ og_items -> base_of m x <> Some key
          end.
Proof.
  intros Hsep key. split; [done|].
  unfold find_matching_item. simpl.
  assert (Hn : lower_name
                 match name_mappings m !! grocy_name with
                 | Some mapped => Some mapped
                 | None => Some grocy_name
                 end = Ok key).
  { unfold key. by destruct (name_mappings m !! grocy_name). }
  rewrite Hn. simpl. unfold mbind, Res_bind. rewrite (find_loop_find m Hsep).
  eexists. split; [reflexivity|].
  destruct (List.find (has_base m key) og_items) as [it|] eqn:E.
  - destruct (find_split _ _ _ E) as (before & after & Hl & HP & Hb).
    apply has_base_true in HP.
    destruct (base_of_Some_inv m it key HP) as (i & v & c & -> & Hv).
    exists before, after, i, v, c. repeat (split; [done|]).
    intros x Hx Hbx. apply has_base_true in Hbx. by rewrite (Hb x Hx) in Hbx.
  - intros x Hx Hbx. apply has_base_true in Hbx.
    rewrite find_None_iff in E. by rewrite (E x Hx) in Hbx.
Qed.

Lemma find_matching_item_first_match_witness :
  quantity_separator Scenario.default_matcher <> EmptyString
  /\ find_matching_item Scenario.default_matcher (Some "WATER") Scenario.mirror_items
     = Ok (Some (OgDict (Some "i1") (Some "Water : 3 Bottles") None)).
Proof.
  assert (H : quantity_separator Scenario.default_matcher <> EmptyString) by done.
  split; [exact H|].
  destruct (find_matching_item_first_match Scenario.default_matcher "WATER"
              Scenario.mirror_items H) as (_ & r & Hr & _).
  rewrite Hr. vm_compute in Hr. by injection Hr as <-.
Defined.

(** *** The legacy parenthesised format *)

Lemma span_non_paren_app (q rest : string) :
  paren_free q = true ->
  span_non_paren (q +:+ ")" +:+ rest) = (q, ")" +:+ rest).
Proof.
  induction q as [|c q IH]; intros H; [done|].
  simpl in H. apply andb_true_iff in H as [Hc Hq]. apply negb_true_iff in Hc.
  rewrite app_cons. cbn [span_non_paren]. rewrite Hc. by rewrite (IH Hq).
Qed.

Lemma legacy_search_skip (name s : string) :
  open_paren_free name = true ->
  legacy_search (name +:+ s) = legacy_search s.
Proof.
  induction name as [|c name IH]; intros H; [done|].
  simpl in H. apply andb_true_iff in H as [Hc Hn]. apply negb_true_iff in Hc.
  rewrite app_cons. cbn [legacy_search]. rewrite Hc. by apply IH.
Qed.

Lemma legacy_search_here (q rest : string) :
  q <> EmptyString -> paren_free q = true ->
  legacy_search ("(" +:+ q +:+ ")" +:+ rest) = Some q.
Proof.
  intros Hne Hq. change ("(" +:+ q +:+ ")" +:+ rest) with (String "(" (q +:+ ")" +:+ rest)).
  cbn [legacy_search]. rewrite Ascii.eqb_refl, (span_non_paren_app q rest Hq).
  destruct q; [done|]. reflexivity.
Qed.

Lemma lower_ascii_open_paren (c : ascii) :
  Ascii.eqb (PyStr.lower_ascii c) "(" = Ascii.eqb c "(".
Proof. destruct c as [[] [] [] [] [] [] [] []]; reflexivity. Qed.

Lemma open_paren_free_lower (s : string) :
  open_paren_free (PyStr.lower s) = open_paren_free s.
Proof.
  unfold open_paren_free. induction s as [|c s IH]; [done|].
  cbn [PyStr.lower all_chars]. by rewrite lower_ascii_open_paren, IH.
Qed.

Lemma partition_open_paren (name s : string) :
  open_paren_free name = true ->
  PyStr.partition "(" (name +:+ "(" +:+ s) = Some (name, s).
Proof.
  induction name as [|c name IH]; intros H.
  - exact (partition_at_start "(" s).
  - simpl in H. apply andb_true_iff in H as [Hc Hn]. apply negb_true_iff in Hc.
    rewrite app_cons, partition_unfold, startswith_char.
    rewrite Ascii.eqb_sym, Hc. by rewrite (IH Hn).
Qed.

(** X2: for a value in the legacy format "name (quantity)rest" that
    does not contain the separator (as written or lower-cased), with no
    opening parenthesis in the name and a non-empty quantity free of
    parentheses, the existing quantity is "quantity" whatever follows the
    closing parenthesis, and the base name is the lower-cased, trimmed
    name. *)
Theorem legacy_format_extraction (m : ItemMatcher.t) (i : option string)
    (c : option bool) (name quantity rest : string) :
  let value := legacy_value name quantity rest in
  PyStr.contains (quantity_separator m) value = false ->
  PyStr.contains (quantity_separator m) (PyStr.lower value) = false ->
  open_paren_free name = true ->
  quantity <> EmptyString ->
  paren_free quantity = true ->
  extract_existing_quantity m (OgDict i (Some value) c) = Ok (Some quantity)
  /\ extract_base_name m value = Ok (PyStr.strip (PyStr.lower name)).
Proof.
  intros value Hraw Hlow Hname Hne Hq. split.
  - unfold extract_existing_quantity. rewrite Hraw. unfold value, legacy_value.
    by rewrite (legacy_search_skip name _ Hname), (legacy_search_here quantity rest Hne Hq).
  - unfold extract_base_name. rewrite Hlow.
    assert (Hp : PyStr.partition "(" (PyStr.lower value)
                 = Some (PyStr.lower name, PyStr.lower (quantity +:+ ")" +:+ rest))).
    { unfold value, legacy_value. rewrite lower_app.
      change (PyStr.lower ("(" +:+ quantity +:+ ")" +:+ rest))
        with ("(" +:+ PyStr.lower (quantity +:+ ")" +:+ rest)).
      apply partition_open_paren. by rewrite open_paren_free_lower. }
    unfold PyStr.contains, PyStr.split_head. rewrite Hp. reflexivity.
Qed.

Lemma legacy_format_extraction_witness :
  extract_existing_quantity Scenario.default_matcher
    (OgDict (Some "i1") (Some "Milk (1 gallon) (2)") None) = Ok (Some "1 gallon")
  /\ extract_base_name Scenario.default_matcher "Milk (1 gallon) (2)" = Ok "milk".
Proof.
  apply (legacy_format_extraction Scenario.default_matcher (Some "i1") None
           "Milk " "1 gallon" " (2)"); try reflexivity. discriminate.
Defined.

End MatcherMore.

Section MatcherCase.

Import ItemMatcher.

Lemma span_non_paren_spec (s : string) :
  let '(run, rest) := span_non_paren s in
  s = run +:+ rest /\ paren_free run = true.
Proof.
  induction s as [|c s IH]; [done|]. cbn [span_non_paren].
  destruct (is_paren c) eqn:E; [done|].
  destruct (span_non_paren s) as [run rest]. destruct IH as [-> Hrun].
  split; [done|]. unfold paren_free in *. cbn [all_chars]. by rewrite E, Hrun.
Qed.

(** X3: the legacy pattern finds a quantity exactly when the value
    contains a non-empty text free of parentheses between an opening and a
    closing parenthesis, and what it returns is such a text of the value. *)
Theorem legacy_search_parenthesised (v : string) :
  match legacy_search v with
  | Some q =>
      q <> EmptyString /\ paren_free q = true
      /\ exists pre post, v = legacy_value pre q post
  | None =>
      forall pre q post,
        q <> EmptyString -> paren_free q = true -> v <> legacy_value pre q post
  end.
Proof.
  destruct (legacy_search v) as [q|] eqn:E.
  - revert q E. induction v as [|c v IH]; intros q E; [done|].
    cbn [legacy_search] in E.
    assert (Hrec : legacy_search v = Some q ->
              q <> EmptyString /\ paren_free q = true
              /\ exists pre post, String c v = legacy_value pre q post).
    { intros H. destruct (IH q H) as (H1 & H2 & pre & post & ->).
      split; [done|]. split; [done|]. by exists (String c pre), post. }
    destruct (Ascii.eqb c "(") eqn:Ec; [|by apply Hrec].
    apply Ascii.eqb_eq in Ec as ->.
    pose proof (span_non_paren_spec v) as Hs.
    destruct (span_non_paren v) as [run rest]. destruct Hs as [-> Hrun].
    destruct run as [|r run]; [by apply Hrec|].
    destruct rest as [|c' rest]; [by apply Hrec|].
    destruct c' as [[] [] [] [] [] [] [] []]; try (by apply Hrec).
    injection E as <-. split; [done|]. split; [done|].
    by exists EmptyString, rest.
  - intros pre q post Hne Hq ->. revert E. unfold legacy_value.
    induction pre as [|c pre IH].
    + change (EmptyString +:+ "(" +:+ q +:+ ")" +:+ post)
        with ("(" +:+ q +:+ ")" +:+ post).
      by rewrite (legacy_search_here q post Hne Hq).
    + rewrite app_cons. cbn [legacy_search].
      destruct (Ascii.eqb c "("); [|exact IH].
      destruct (span_non_paren _) as [[|r run] [|c' rest]]; try exact IH.
      destruct c' as [[] [] [] [] [] [] [] []]; try exact IH. done.
Qed.

Lemma lower_ascii_idem (c : ascii) :
  PyStr.lower_ascii (PyStr.lower_ascii c) = PyStr.lower_ascii c.
Proof. destruct c as [[] [] [] [] [] [] [] []]; reflexivity. Qed.

Lemma lower_idem (s : string) : PyStr.lower (PyStr.lower s) = PyStr.lower s.
Proof.
  induction s as [|c s IH]; [done|]. cbn [PyStr.lower]. by rewrite lower_ascii_idem, IH.
Qed.

Lemma all_lower_iff (s : string) : all_chars lower_char s = true <-> PyStr.lower s = s.
Proof.
  induction s as [|c s IH]; [done|]. cbn [all_chars PyStr.lower]. unfold lower_char at 1.
  rewrite andb_true_iff, IH, Ascii.eqb_eq. split; [intros [-> ->]; done|].
  by intros [= -> ->].
Qed.

Lemma all_chars_drop (P : ascii -> bool) (n : nat) (s : string) :
  all_chars P s = true -> all_chars P (PyStr.drop n s) = true.
Proof.
  revert s. induction n as [|n IH]; intros s H; [by destruct s|].
  destruct s as [|c s]; [done|]. cbn [PyStr.drop]. apply IH.
  cbn [all_chars] in H. by apply andb_true_iff in H as [_ H].
Qed.

Lemma all_chars_partition (P : ascii -> bool) (sep s a b : string) :
  PyStr.partition sep s = Some (a, b) -> all_chars P s = true ->
  all_chars P a = true /\ all_chars P b = true.
Proof.
  revert a b. induction s as [|c s IH]; intros a b H Hs; rewrite partition_unfold in H.
  - destruct (PyStr.startswith sep EmptyString); [|done]. injection H as <- <-.
    split; [done|]. by apply all_chars_drop.
  - destruct (PyStr.startswith sep (String c s)).
    + injection H as <- <-. split; [done|]. by apply all_chars_drop.
    + destruct (PyStr.partition sep s) as [[x y]|]; [|done]. injection H as <- <-.
      cbn [all_chars] in Hs. apply andb_true_iff in Hs as [Hc Hs].
      destruct (IH x y eq_refl Hs) as [Hx Hy]. split; [|done].
      cbn [all_chars]. by rewrite Hc, Hx.
Qed.

Lemma all_chars_strip (P : ascii -> bool) (s : string) :
  all_chars P s = true -> all_chars P (PyStr.strip s) = true.
Proof.
  unfold PyStr.strip. intros H.
  assert (Hl : all_chars P (PyStr.lstrip s) = true).
  { induction s as [|c s IH]; [done|]. cbn [PyStr.lstrip].
    destruct (PyStr.is_space c); [|done]. apply IH.
    cbn [all_chars] in H. by apply andb_true_iff in H as [_ H]. }
  clear H. induction (PyStr.lstrip s) as [|c t IH]; [done|].
  cbn [all_chars] in Hl. apply andb_true_iff in Hl as [Hc Ht].
  cbn [PyStr.rstrip]. specialize (IH Ht).
  destruct (PyStr.rstrip t) as [|c' r].
  - destruct (PyStr.is_space c); [done|]. cbn [all_chars]. by rewrite Hc.
  - cbn [all_chars] in *. by rewrite Hc, IH.
Qed.

Lemma extract_base_name_lowercase (m : ItemMatcher.t) (v b : string) :
  extract_base_name m v = Ok b -> PyStr.lower b = b.
Proof.
  unfold extract_base_name. intros H. apply all_lower_iff.
  assert (Hv : all_chars lower_char (PyStr.lower v) = true).
  { apply all_lower_iff, lower_idem. }
  assert (Hsplit : forall sep h, PyStr.split_head sep (PyStr.lower v) = Ok h ->
                     all_chars lower_char h = true).
  { intros sep h. unfold PyStr.split_head. destruct sep; [done|].
    destruct (PyStr.partition _ _) as [[x y]|] eqn:E; intros [= <-]; [|done].
    by destruct (all_chars_partition _ _ _ _ _ E Hv). }
  destruct (PyStr.contains (quantity_separator m) (PyStr.lower v)).
  - destruct (PyStr.split_head _ _) as [h|] eqn:E; [|done]. simpl in H.
    injection H as <-. by apply all_chars_strip, (Hsplit _ _ E).
  - destruct (PyStr.contains "(" (PyStr.lower v)).
    + destruct (PyStr.split_head _ _) as [h|] eqn:E; [|done]. simpl in H.
      injection H as <-. by apply all_chars_strip, (Hsplit _ _ E).
    + by injection H as <-.
Qed.

(** X4: matching ignores letter case on both sides: mirror values that
    differ only in case have the same base name, the base name is itself
    lower-case, and source names whose mapped names differ only in case
    find the same mirror item. *)
Theorem matching_ignores_case (m : ItemMatcher.t) (v1 v2 n1 n2 : string)
    (og_items : list OgItem) :
  PyStr.lower v1 = PyStr.lower v2 ->
  PyStr.lower (default n1 (name_mappings m !! n1))
  = PyStr.lower (default n2 (name_mappings m !! n2)) ->
  extract_base_name m v1 = extract_base_name m v2
  /\ (forall b, extract_base_name m v1 = Ok b -> PyStr.lower b = b)
  /\ find_matching_item m (Some n1) og_items = find_matching_item m (Some n2) og_items.
Proof.
  intros Hv Hn. split; [|split].
  - unfold extract_base_name. by rewrite Hv.
  - intros b. apply extract_base_name_lowercase.
  - unfold find_matching_item, map_item_name, lower_name.
    destruct (name_mappings m !! n1), (name_mappings m !! n2); simpl in *; by rewrite Hn.
Qed.

Lemma matching_ignores_case_witness :
  extract_base_name Scenario.default_matcher "WATER : 3 Bottles"
  = extract_base_name Scenario.default_matcher "water : 3 bottles"
  /\ find_matching_item Scenario.default_matcher (Some "WATER") Scenario.mirror_items
     = find_matching_item Scenario.default_matcher (Some "water") Scenario.mirror_items.
Proof.
  destruct (matching_ignores_case Scenario.default_matcher
              "WATER : 3 Bottles" "water : 3 bottles" "WATER" "water"
              Scenario.mirror_items eq_refl eq_refl) as (H1 & _ & H2).
  split; [exact H1 | exact H2].
Defined.

End MatcherCase.

Section TrackerMore.

Import SyncTracker.

Lemma ids_of_track_other (tr : t) (l l' i : string) :
  l <> l' -> ids_of (track_item tr l i) l' = ids_of tr l'.
Proof.
  intros Hne. destruct (is_tracked_item tr l i) eqn:E.
  - by rewrite track_item_tracked.
  - rewrite track_item_untracked by done. unfold ids_of at 1. simpl.
    by rewrite lookup_insert_ne.
Qed.

Lemma ids_of_track_same (tr : t) (l i : string) :
  ids_of (track_item tr l i) l
  = if is_tracked_item tr l i then ids_of tr l else ids_of tr l ++ [i].
Proof.
  destruct (is_tracked_item tr l i) eqn:E.
  - by rewrite track_item_tracked.
  - rewrite track_item_untracked by done. unfold ids_of at 1. simpl.
    by rewrite lookup_insert_eq.
Qed.

Lemma ids_of_remove_other (tr : t) (l l' i : string) :
  l <> l' -> ids_of (remove_tracking tr l i) l' = ids_of tr l'.
Proof.
  intros Hne. unfold remove_tracking. destruct (is_tracked_item tr l i); [|done].
  unfold ids_of at 1. simpl. by rewrite lookup_insert_ne.
Qed.

Lemma ids_of_remove_same (tr : t) (l i : string) :
  ids_of (remove_tracking tr l i) l = list_remove_first i (ids_of tr l).
Proof.
  unfold remove_tracking. destruct (is_tracked_item tr l i) eqn:E.
  - unfold ids_of at 1. simpl. by rewrite lookup_insert_eq.
  - rewrite is_tracked_ids_of in E. apply bool_decide_eq_false in E.
    induction (ids_of tr l) as [|j ids IH]; [done|]. simpl.
    destruct (decide (i = j)) as [->|Hne]; [exfalso; apply E; by left|].
    f_equal. apply IH. intros H. apply E. by right.
Qed.

Lemma list_remove_first_snoc (i : string) (ids : list string) :
  i ∉ ids -> list_remove_first i (ids ++ [i]) = ids.
Proof.
  induction ids as [|j ids IH]; intros H; simpl.
  - by rewrite decide_True.
  - destruct (decide (i = j)) as [->|Hne]; [exfalso; apply H; by left|].
    f_equal. apply IH. intros Hi. apply H. by right.
Qed.

Lemma list_remove_first_NoDup (i : string) (ids : list string) :
  NoDup ids -> NoDup (list_remove_first i ids) /\ i ∉ list_remove_first i ids.
Proof.
  induction ids as [|j ids IH]; intros H; simpl.
  - split; [done|]. apply not_elem_of_nil.
  - apply NoDup_cons in H as [Hj H]. destruct (IH H) as [H1 H2].
    destruct (decide (i = j)) as [->|Hne]; [done|]. split.
    + apply NoDup_cons. split; [|done]. intros Hin. apply Hj.
      by eapply list_remove_first_subset.
    + intros Hin. apply elem_of_cons in Hin as [->|Hin]; done.
Qed.

Lemma list_remove_first_other (i j : string) (ids : list string) :
  i <> j -> j ∈ list_remove_first i ids <-> j ∈ ids.
Proof.
  intros Hne. induction ids as [|k ids IH]; simpl; [done|].
  destruct (decide (i = k)) as [->|Hk].
  - rewrite elem_of_cons. split; [by right|]. intros [->|H]; done.
  - rewrite !elem_of_cons, IH. done.
Qed.

(** X5: a ledger without repeated ids stays so under [track_item] and
    [remove_tracking] (for every list), and on such a ledger
    [remove_tracking] really forgets the id, leaves every other id of the
    list as it was, and does not touch the other lists. *)
Theorem ledger_without_repeats (tr : t) (l i : string) :
  (forall l', NoDup (ids_of tr l')) ->
  (forall l', NoDup (ids_of (track_item tr l i) l'))
  /\ (forall l', NoDup (ids_of (remove_tracking tr l i) l'))
  /\ is_tracked_item (remove_tracking tr l i) l i = false
  /\ (forall j, j <> i ->
        is_tracked_item (remove_tracking tr l i) l j = is_tracked_item tr l j)
  /\ (forall l' j, l' <> l ->
        is_tracked_item (remove_tracking tr l i) l' j = is_tracked_item tr l' j
        /\ is_tracked_item (track_item tr l i) l' j = is_tracked_item tr l' j).
Proof.
  intros Hnd. split; [|split; [|split; [|split]]].
  - intros l'. destruct (decide (l = l')) as [<-|Hne].
    + rewrite ids_of_track_same. destruct (is_tracked_item tr l i) eqn:E; [done|].
      rewrite is_tracked_ids_of in E. apply bool_decide_eq_false in E.
      apply NoDup_app. split; [done|]. split; [|apply NoDup_singleton].
      intros x Hx Hx'. apply list_elem_of_singleton in Hx' as ->. done.
    + by rewrite ids_of_track_other.
  - intros l'. destruct (decide (l = l')) as [<-|Hne].
    + rewrite ids_of_remove_same. by apply list_remove_first_NoDup.
    + by rewrite ids_of_remove_other.
  - rewrite is_tracked_ids_of, ids_of_remove_same. apply bool_decide_eq_false.
    by apply list_remove_first_NoDup.
  - intros j Hj. rewrite !is_tracked_ids_of, ids_of_remove_same.
    apply bool_decide_ext. by apply list_remove_first_other.
  - intros l' j Hl. rewrite !is_tracked_ids_of.
    by rewrite ids_of_remove_other, ids_of_track_other.
Qed.

Lemma ledger_without_repeats_witness :
  (forall l', NoDup (ids_of Scenario.empty_tracker l'))
  /\ is_tracked_item
       (remove_tracking (track_item Scenario.empty_tracker "L" "i1") "L" "i1") "L" "i1"
     = false.
Proof.
  assert (H0 : forall l', NoDup (ids_of Scenario.empty_tracker l')).
  { intros l'. unfold ids_of. simpl. rewrite lookup_empty. apply NoDup_nil_2. }
  split; [exact H0|].
  destruct (ledger_without_repeats Scenario.empty_tracker "L" "i1" H0) as (H1 & _).
  by destruct (ledger_without_repeats (track_item Scenario.empty_tracker "L" "i1")
                 "L" "i1" H1) as (_ & _ & H & _).
Defined.

(** X6: tracking an id that was not tracked and removing it again gives
    back the ids of every list, at the price of two writes; removing an
    id that is not tracked changes nothing and writes nothing. *)
Theorem track_then_remove (tr : t) (l i : string) :
  is_tracked_item tr l i = false ->
  let tr' := remove_tracking (track_item tr l i) l i in
  (forall l', ids_of tr' l' = ids_of tr l')
  /\ length (saved tr') = length (saved tr) + 2
  /\ remove_tracking tr l i = tr.
Proof.
  intros H tr'. split; [|split].
  - intros l'. unfold tr'. destruct (decide (l = l')) as [<-|Hne].
    + rewrite ids_of_remove_same, ids_of_track_same, H.
      apply list_remove_first_snoc. rewrite is_tracked_ids_of in H.
      by apply bool_decide_eq_false in H.
    + by rewrite ids_of_remove_other, ids_of_track_other.
  - unfold tr', remove_tracking. rewrite is_tracked_after_track.
    rewrite track_item_untracked by done. simpl. rewrite !length_app. simpl. lia.
  - unfold remove_tracking. by rewrite H.
Qed.

Lemma track_then_remove_witness :
  is_tracked_item Scenario.empty_tracker "L" "i1" = false
  /\ ids_of (remove_tracking (track_item Scenario.empty_tracker "L" "i1") "L" "i1") "L"
     = ids_of Scenario.empty_tracker "L".
Proof.
  split; [reflexivity|].
  by destruct (track_then_remove Scenario.empty_tracker "L" "i1" eq_refl) as [H _].
Defined.

End TrackerMore.

Section PassSteps.

Import ItemMatcher QuantityFormatter Sync.

Variables (env : Env) (cfg : Config) (l : string).
Variables (S : list OgItem) (gs : list GrocyItem).

Let m := matcher cfg.
Let d := deletion cfg.

Variable R : State -> State -> Prop.

Hypothesis R_refl : forall st, R st st.
Hypothesis R_trans : forall st1 st2 st3, R st1 st2 -> R st2 st3 -> R st1 st3.
Hypothesis R_remove : forall st it i,
  it ∈ S -> og_id it = Some i -> R st (snd (remove_item_from_list env l i st)).
Hypothesis R_add : forall st g n q cat,
  g ∈ gs -> is_done g = false -> entry env cfg g = Ok (n, q, cat) ->
  R st (_add_new_item env cfg l n q cat st).
Hypothesis R_delete : forall st it i,
  it ∈ S -> og_id it = Some i -> enabled d = true -> dry_run d = false ->
  R st (delete_step env l i st).

Implicit Types (st : State) (g : GrocyItem).

Lemma find_loop_elem (n : string) (items : list OgItem) (it : OgItem) :
  find_loop m n items = Ok (Some it) -> it ∈ items /\ exists i, og_id it = Some i.
Proof.
  induction items as [|x items IH]; [done|]. cbn [find_loop].
  assert (Hrec : find_loop m n items = Ok (Some it) ->
                 it ∈ x :: items /\ exists i, og_id it = Some i).
  { intros H. destruct (IH H) as [H1 H2]. split; [by right | done]. }
  destruct x as [|[i|] [v|] c]; try exact Hrec.
  destruct (extract_base_name m v) as [b|e]; [|done]. simpl.
  destruct (String.eqb n b); [|exact Hrec].
  intros [= <-]. split; [by left | by exists i].
Qed.

Lemma process_grocy_item_entry g (items : list OgItem) st :
  _process_grocy_item env cfg g l items st =
  match entry env cfg g with
  | Raise x => (Raise x, st)
  | Ok (n, q, cat) =>
      match find_matching_item m (product_name g) items with
      | Raise x => (Raise x, st)
      | Ok (Some it) => _update_existing_item env cfg it n q cat l st
      | Ok None => (Ok (), _add_new_item env cfg l n q cat st)
      end
  end.
Proof.
  unfold entry, _process_grocy_item.
  pose proof (get_product_info_name cfg g) as Hn.
  destruct (_get_product_info cfg g) as [pn cat]. simpl in Hn. subst pn. simpl.
  destruct (format_quantity (render env) g) as [[qv qs]|y]; [|done].
  fold m. destruct (map_item_name m (product_name g)) as [n|] eqn:E.
  - by destruct (find_matching_item m (product_name g) items) as [[it|]|x].
  - unfold find_matching_item. by rewrite E.
Qed.

Lemma update_existing_item_steps st g it n q cat :
  g ∈ gs -> is_done g = false -> entry env cfg g = Ok (n, q, cat) ->
  it ∈ S ->
  R st (snd (_update_existing_item env cfg it n q cat l st)).
Proof.
  intros Hg Hd He Hit. unfold _update_existing_item.
  destruct (extract_existing_quantity (matcher cfg) it) as [eq|x]; [|apply R_refl].
  destruct (has_quantity_changed eq q); [|apply R_refl].
  destruct (og_id it) as [i|] eqn:Hi; [|apply R_refl].
  pose proof (R_remove st it i Hit Hi) as H1.
  destruct (remove_item_from_list env l i st) as [[] st1]; [|exact H1].
  simpl in H1. eapply R_trans; [exact H1|].
  pose proof (R_add st1 g n q cat Hg Hd He) as H2. unfold _add_new_item in H2.
  by destruct (add_item_to_list _ _ _ _ _ _ st1) as [[] st2].
Qed.

Lemma process_grocy_item_steps st g :
  g ∈ gs -> is_done g = false ->
  R st (snd (_process_grocy_item env cfg g l S st)).
Proof.
  intros Hg Hd. rewrite process_grocy_item_entry.
  destruct (entry env cfg g) as [[[n q] cat]|x] eqn:He; [|apply R_refl].
  destruct (find_matching_item m (product_name g) S) as [[it|]|x] eqn:Hf;
    [| |apply R_refl].
  - apply (update_existing_item_steps st g); try done.
    unfold find_matching_item in Hf.
    destruct (lower_name _) as [ln|]; [|done]. simpl in Hf.
    by destruct (find_loop_elem ln S it Hf).
  - simpl. by apply (R_add st g).
Qed.

Lemma process_items_steps (gs' : list GrocyItem) st :
  gs' ⊆ gs -> R st (snd (process_items env cfg l S gs' st)).
Proof.
  revert st. induction gs' as [|g gs' IH]; intros st Hsub; [apply R_refl|].
  assert (Hsub' : gs' ⊆ gs) by (intros x Hx; apply Hsub; by right).
  cbn [process_items]. destruct (is_done g) eqn:Hd; [by apply IH|].
  pose proof (process_grocy_item_steps st g (Hsub g ltac:(by left)) Hd) as H1.
  destruct (_process_grocy_item env cfg g l S st) as [[u|x] st1]; [|exact H1].
  eapply R_trans; [exact H1 | by apply IH].
Qed.

Lemma items_to_remove_subset (tr : SyncTracker.t) (names : gset string)
    (items marked : list OgItem) :
  items_to_remove d m tr l names items = Ok marked ->
  forall it, it ∈ marked -> it ∈ items /\ exists i, og_id it = Some i.
Proof.
  revert marked. induction items as [|x items IH]; intros marked H it Hit.
  - injection H as <-. by apply elem_of_nil in Hit.
  - cbn [items_to_remove] in H.
    assert (Hrec : items_to_remove d m tr l names items = Ok marked ->
                   it ∈ x :: items /\ exists i, og_id it = Some i).
    { intros H'. destruct (IH marked H' it Hit) as [H1 H2]. split; [by right | done]. }
    destruct x as [|[i|] [v|] c]; try (by apply Hrec).
    destruct (respect_crossed_off d && default false c); [by apply Hrec|].
    destruct (preserve_manual_items d && negb _); [by apply Hrec|].
    destruct (extract_base_name m v) as [b|e]; [|done]. simpl in H.
    destruct (items_to_remove d m tr l names items) as [marked'|e] eqn:E; [|done].
    simpl in H. injection H as <-.
    destruct (bool_decide (b ∈ names)).
    + destruct (IH marked' eq_refl it Hit) as [H1 H2]. split; [by right | done].
    + apply elem_of_cons in Hit as [->|Hit].
      * split; [by left | by exists i].
      * destruct (IH marked' eq_refl it Hit) as [H1 H2]. split; [by right | done].
Qed.

Lemma process_removals_steps (marked : list OgItem) st :
  enabled d = true -> marked ⊆ S ->
  R st (process_removals env d l marked st).
Proof.
  intros Hen. revert st. induction marked as [|x marked IH]; intros st Hsub;
    [apply R_refl|].
  assert (Hsub' : marked ⊆ S) by (intros y Hy; apply Hsub; by right).
  cbn [process_removals].
  destruct (bool_dec (dry_run d) true) as [Hdry|Hdry]; rewrite ?Hdry; [by apply IH|].
  apply not_true_is_false in Hdry. rewrite Hdry.
  destruct (og_id x) as [i|] eqn:Hi; [|by apply IH].
  apply (R_trans _ (delete_step env l i st)).
  - apply (R_delete st x i); try done. apply Hsub. by left.
  - unfold delete_step. destruct (remove_item_from_list env l i st) as [[] st1];
      by apply IH.
Qed.

Lemma process_deletions_steps st :
  R st (snd (process_deletions env d m l gs S st)).
Proof.
  unfold process_deletions.
  destruct (bool_dec (enabled d) true) as [Hen|Hen];
    [rewrite Hen | apply not_true_is_false in Hen; rewrite Hen; apply R_refl].
  simpl.
  destruct (grocy_product_names m gs) as [names|x]; [|apply R_refl].
  destruct (items_to_remove d m (tracker st) l names S) as [marked|x] eqn:E;
    [|apply R_refl].
  simpl. apply process_removals_steps; [done|].
  intros it Hit. by destruct (items_to_remove_subset _ _ _ _ E it Hit).
Qed.

End PassSteps.

Section SyncListSteps.

Import ItemMatcher QuantityFormatter Sync.

Implicit Types (env : Env) (cfg : Config) (st : State) (g : GrocyItem).

(** Whatever relation holds across each request of a pass holds across
    [sync_list]. *)
Lemma sync_list_steps env cfg (gs : list GrocyItem) (name : string) st
    (R : State -> State -> Prop) :
  (forall st1, R st1 st1) ->
  (forall st1 st2 st3, R st1 st2 -> R st2 st3 -> R st1 st3) ->
  (forall l, get_list_by_name st name = Some l ->
     (forall st1 it i, it ∈ get_list_items st l -> og_id it = Some i ->
        R st1 (snd (remove_item_from_list env l i st1)))
     /\ (forall st1 g n q cat,
           g ∈ gs -> is_done g = false -> entry env cfg g = Ok (n, q, cat) ->
           R st1 (_add_new_item env cfg l n q cat st1))
     /\ (forall st1 it i, it ∈ get_list_items st l -> og_id it = Some i ->
           enabled (deletion cfg) = true -> dry_run (deletion cfg) = false ->
           R st1 (delete_step env l i st1))) ->
  R st (snd (sync_list env cfg gs name st)).
Proof.
  intros Hrefl Htrans Hsteps. unfold sync_list.
  destruct gs as [|g0 gs0]; [apply Hrefl|].
  generalize dependent (g0 :: gs0). clear g0 gs0. intros gs Hsteps.
  destruct (get_list_by_name st name) as [l|] eqn:El; [|apply Hrefl].
  destruct (Hsteps l eq_refl) as (Hrem & Hadd & Hdel).
  pose proof (process_items_steps env cfg l (get_list_items st l) gs R Hrefl Htrans
                Hrem Hadd gs st ltac:(done)) as H1.
  destruct (process_items env cfg l (get_list_items st l) gs st) as [[u|x] st1];
    [|exact H1].
  simpl in H1.
  pose proof (process_deletions_steps env cfg l (get_list_items st l) gs R Hrefl Htrans
                Hdel st1) as H2.
  destruct (process_deletions env (deletion cfg) (matcher cfg) l gs
              (get_list_items st l) st1) as [[u'|x] st2]; simpl in H2;
    by eapply Htrans.
Qed.

Lemma frame_refl (P : Call -> Prop) (l : string) st : frame P l st st.
Proof.
  split; try done.
  - exists []. by rewrite app_nil_r.
  - exists []. by rewrite app_nil_r.
Qed.

Lemma frame_trans (P : Call -> Prop) (l : string) st1 st2 st3 :
  frame P l st1 st2 -> frame P l st2 st3 -> frame P l st1 st3.
Proof.
  intros [A1 A2 A3 [w1 A4] (n1 & A5 & A6)] [B1 B2 B3 [w2 B4] (n2 & B5 & B6)].
  split.
  - congruence.
  - intros l' Hl. rewrite B2, A2; done.
  - intros l' Hl. rewrite B3, A3; done.
  - exists (w1 ++ w2). by rewrite B4, A4, app_assoc.
  - exists (n1 ++ n2). split; [by rewrite B5, A5, app_assoc|].
    by apply Forall_app.
Qed.

Lemma frame_remove (P : Call -> Prop) env (l i : string) st :
  P (CallRemove l i) -> frame P l st (snd (remove_item_from_list env l i st)).
Proof.
  intros HP. unfold remove_item_from_list.
  destruct (succeeds env (length (calls st))); simpl; split; simpl; try done.
  - intros l' Hl. by rewrite lookup_alter_ne.
  - exists []. by rewrite app_nil_r.
  - exists [CallRemove l i]. split; [done|]. by apply Forall_singleton.
  - exists []. by rewrite app_nil_r.
  - exists [CallRemove l i]. split; [done|]. by apply Forall_singleton.
Qed.

Lemma lists_track_other (tr : SyncTracker.t) (l l' i : string) :
  l' <> l ->
  SyncTracker.lists (SyncTracker.track_item tr l i) !! l' = SyncTracker.lists tr !! l'.
Proof.
  intros Hne. destruct (SyncTracker.is_tracked_item tr l i) eqn:E.
  - by rewrite track_item_tracked.
  - rewrite track_item_untracked by done. simpl. by rewrite lookup_insert_ne.
Qed.

Lemma saved_track (tr : SyncTracker.t) (l i : string) :
  exists w, SyncTracker.saved (SyncTracker.track_item tr l i) = SyncTracker.saved tr ++ w.
Proof.
  destruct (SyncTracker.is_tracked_item tr l i) eqn:E.
  - rewrite track_item_tracked by done. exists []. by rewrite app_nil_r.
  - rewrite track_item_untracked by done. simpl. by eexists.
Qed.

Lemma lists_remove_other (tr : SyncTracker.t) (l l' i : string) :
  l' <> l ->
  SyncTracker.lists (SyncTracker.remove_tracking tr l i) !! l' = SyncTracker.lists tr !! l'.
Proof.
  intros Hne. unfold SyncTracker.remove_tracking.
  destruct (SyncTracker.is_tracked_item tr l i); [|done].
  simpl. by rewrite lookup_insert_ne.
Qed.

Lemma saved_remove (tr : SyncTracker.t) (l i : string) :
  exists w,
    SyncTracker.saved (SyncTracker.remove_tracking tr l i) = SyncTracker.saved tr ++ w.
Proof.
  unfold SyncTracker.remove_tracking.
  destruct (SyncTracker.is_tracked_item tr l i); simpl.
  - by eexists.
  - exists []. by rewrite app_nil_r.
Qed.

Lemma frame_track (P : Call -> Prop) (l : string) st :
  frame P l st (track_last_added l st).
Proof.
  unfold track_last_added. destruct (get_last_added_item_id st) as [i|];
    [|apply frame_refl].
  destruct (PyStr.truthy i); [|apply frame_refl].
  split; simpl; try done.
  - intros l' Hl. by apply lists_track_other.
  - apply saved_track.
  - exists []. split; [by rewrite app_nil_r | done].
Qed.

Lemma frame_add (P : Call -> Prop) env cfg (l n q : string) (cat : option string) st :
  P (CallAdd l (item_value (quantity_separator (matcher cfg)) n q) cat) ->
  frame P l st (_add_new_item env cfg l n q cat st).
Proof.
  intros HP. unfold _add_new_item.
  assert (H : frame P l st
            (snd (add_item_to_list env (quantity_separator (matcher cfg)) l n q cat st))).
  { unfold add_item_to_list.
    destruct (succeeds env (length (calls st))); simpl; split; simpl; try done.
    - intros l' Hl. by rewrite lookup_insert_ne.
    - exists []. by rewrite app_nil_r.
    - eexists. split; [done|]. by apply Forall_singleton.
    - exists []. by rewrite app_nil_r.
    - eexists. split; [done|]. by apply Forall_singleton. }
  destruct (add_item_to_list _ _ _ _ _ _ st) as [[] st1]; simpl in H; [|done].
  eapply frame_trans; [exact H | apply frame_track].
Qed.

Lemma frame_delete (P : Call -> Prop) env (l i : string) st :
  P (CallRemove l i) -> frame P l st (delete_step env l i st).
Proof.
  intros HP. pose proof (frame_remove P env l i st HP) as H. unfold delete_step.
  destruct (remove_item_from_list env l i st) as [[] st1]; simpl in H; [|done].
  eapply frame_trans; [exact H|]. split; simpl; try done.
  - intros l' Hl. by apply lists_remove_other.
  - apply saved_remove.
  - exists []. split; [by rewrite app_nil_r | done].
Qed.

(** The frame of a pass. *)
Lemma sync_list_frame env cfg (gs : list GrocyItem) (name : string) st :
  match get_list_by_name st name with
  | Some l =>
      frame (justified env cfg l (get_list_items st l) gs) l st
            (snd (sync_list env cfg gs name st))
  | None => snd (sync_list env cfg gs name st) = st
  end.
Proof.
  destruct (get_list_by_name st name) as [l|] eqn:El.
  - apply (sync_list_steps env cfg gs name st
             (frame (justified env cfg l (get_list_items st l) gs) l)).
    + apply frame_refl.
    + apply frame_trans.
    + intros l' Hl'. rewrite El in Hl'. injection Hl' as <-. split; [|split].
      * intros st1 it i Hit Hi. apply frame_remove. split; [done|]. by exists it.
      * intros st1 g n q cat Hg Hd He. apply frame_add. split; [done|].
        by exists g, n, q.
      * intros st1 it i Hit Hi _ _. apply frame_delete. split; [done|]. by exists it.
  - unfold sync_list. rewrite El. by destruct gs.
Qed.

Lemma entry_category env cfg g (n q : string) (cat : option string) :
  entry env cfg g = Ok (n, q, cat) -> cat = snd (_get_product_info cfg g).
Proof.
  unfold entry. destruct (format_quantity (render env) g) as [[qv qs]|x]; [|done].
  destruct (map_item_name (matcher cfg) (product_name g)); [|done]. congruence.
Qed.

Lemma no_categories_off cfg (gs : list GrocyItem) :
  use_categories cfg = false -> no_categories cfg gs.
Proof.
  intros Hoff g _ _. unfold _get_product_info. rewrite Hoff.
  destruct (product_details g) as [p|]; [|done]. simpl. by destruct (category_name p).
Qed.

Lemma justified_no_category env cfg (l : string) (S : list OgItem) (gs : list GrocyItem)
    (l' v : string) (cat : option string) :
  no_categories cfg gs -> justified env cfg l S gs (CallAdd l' v cat) -> cat = None.
Proof.
  intros Hno (_ & g & n & q & Hg & Hd & He & _).
  rewrite (entry_category env cfg g n q cat He). by apply Hno.
Qed.

(** X7: a pass over source items without category changes nothing
    outside the mirror list it is run for: the known lists are as before,
    and for every other list the items the mirror holds and the ids the
    ledger tracks are as before; the ledger file is only ever written
    again, earlier writes are kept in order; and no creation request of
    the pass names a category, so the client sends no request for one. *)
Theorem sync_list_touches_one_list env cfg (gs : list GrocyItem) (name : string) st :
  no_categories cfg gs ->
  let st' := snd (sync_list env cfg gs name st) in
  og_lists st' = og_lists st
  /\ (forall l', get_list_by_name st name <> Some l' ->
        get_list_items st' l' = get_list_items st l'
        /\ SyncTracker.ids_of (tracker st') l' = SyncTracker.ids_of (tracker st) l'
        /\ forall i, SyncTracker.is_tracked_item (tracker st') l' i
                     = SyncTracker.is_tracked_item (tracker st) l' i)
  /\ (exists w,
        SyncTracker.saved (tracker st') = SyncTracker.saved (tracker st) ++ w)
  /\ exists new,
       calls st' = calls st ++ new
       /\ forall l v cat, CallAdd l v cat ∈ new -> cat = None.
Proof.
  intros Hno st'. pose proof (sync_list_frame env cfg gs name st) as H. fold st' in H.
  destruct (get_list_by_name st name) as [l|].
  - destruct H as [H1 H2 H3 H4 (new & Hnew & Hall)]. split; [done|]. split; [|split].
    + intros l' Hl'. assert (Hne : l' <> l) by congruence.
      unfold get_list_items, SyncTracker.ids_of, SyncTracker.is_tracked_item.
      by rewrite (H2 l' Hne), (H3 l' Hne).
    + done.
    + exists new. split; [done|]. intros l' v cat Hc.
      rewrite Forall_forall in Hall.
      by apply (justified_no_category env cfg l (get_list_items st l) gs l' v cat Hno),
               Hall.
  - rewrite H. split; [done|]. split; [done|]. split.
    + exists []. by rewrite app_nil_r.
    + exists []. split; [by rewrite app_nil_r|]. intros l v cat Hc.
      by apply elem_of_nil in Hc.
Qed.

Lemma sync_list_touches_one_list_witness :
  no_categories Scenario.config [Scenario.water]
  /\ exists new,
       calls (snd (sync_list Scenario.environment Scenario.config [Scenario.water]
                             "Shopping" (Scenario.state Scenario.stale_mirror_items)))
       = new
       /\ forall l v cat, CallAdd l v cat ∈ new -> cat = None.
Proof.
  assert (Hno : no_categories Scenario.config [Scenario.water]).
  { intros g Hg _. apply list_elem_of_singleton in Hg. by rewrite Hg. }
  split; [exact Hno|].
  destruct (sync_list_touches_one_list Scenario.environment Scenario.config
              [Scenario.water] "Shopping" (Scenario.state Scenario.stale_mirror_items)
              Hno) as (_ & _ & _ & new & Hnew & Hcat).
  exists new. split; [exact Hnew | exact Hcat].
Defined.



End SyncListSteps.

Section ServiceAnswers.

Import ItemMatcher QuantityFormatter Sync.

Implicit Types (env : Env) (cfg : Config) (st : State) (g : GrocyItem).

Lemma entry_render env env' cfg g :
  render env' = render env -> entry env' cfg g = entry env cfg g.
Proof. intros H. unfold entry. by rewrite H. Qed.

Lemma update_existing_item_result env cfg (it : OgItem) (n q : string)
    (cat : option string) (l : string) st :
  fst (_update_existing_item env cfg it n q cat l st)
  = match extract_existing_quantity (matcher cfg) it with
    | Raise x => Raise x
    | Ok eq =>
        if has_quantity_changed eq q then
          match og_id it with Some _ => Ok () | None => Raise KeyError end
        else Ok ()
    end.
Proof.
  unfold _update_existing_item.
  destruct (extract_existing_quantity (matcher cfg) it) as [eq|x]; [|done].
  destruct (has_quantity_changed eq q); [|done].
  destruct (og_id it) as [i|]; [|done].
  destruct (remove_item_from_list env l i st) as [[] st1]; [|done].
  by destruct (add_item_to_list _ _ _ _ _ _ st1) as [[] st2].
Qed.

Lemma process_grocy_item_result env env' cfg g (l : string) (S : list OgItem) st st' :
  render env' = render env ->
  fst (_process_grocy_item env' cfg g l S st')
  = fst (_process_grocy_item env cfg g l S st).
Proof.
  intros Hr. rewrite !process_grocy_item_entry, (entry_render env env' cfg g Hr).
  destruct (entry env cfg g) as [[[n q] cat]|x]; [|done].
  destruct (find_matching_item _ _ S) as [[it|]|x]; [|done|done].
  by rewrite !update_existing_item_result.
Qed.

Lemma process_items_result env env' cfg (l : string) (S : list OgItem)
    (gs : list GrocyItem) st st' :
  render env' = render env ->
  fst (process_items env' cfg l S gs st') = fst (process_items env cfg l S gs st).
Proof.
  intros Hr. revert st st'. induction gs as [|g gs IH]; intros st st'; [done|].
  cbn [process_items]. destruct (is_done g); [apply IH|].
  pose proof (process_grocy_item_result env env' cfg g l S st st' Hr) as H.
  destruct (_process_grocy_item env' cfg g l S st') as [[u'|x'] st1'],
           (_process_grocy_item env cfg g l S st) as [[u|x] st1]; simpl in H;
    done.
Qed.

Lemma process_deletions_result env (d : DeletionConfig) (m : ItemMatcher.t)
    (l : string) (gs : list GrocyItem) (S : list OgItem) st :
  quantity_separator m <> EmptyString ->
  fst (process_deletions env d m l gs S st)
  = if enabled d then
      match grocy_product_names m gs with Ok _ => Ok () | Raise x => Raise x end
    else Ok ().
Proof.
  intros Hsep. unfold process_deletions. destruct (enabled d); [|done]. simpl.
  destruct (grocy_product_names m gs) as [names|x]; [|done].
  destruct (items_to_remove_spec d m (tracker st) l names S Hsep) as (marked & -> & _).
  done.
Qed.

(** X9: whether a pass reports success does not depend on how the
    mirror answers its requests: two passes over the same source items
    that start from the same known lists and the same items of the target
    list report the same, whatever requests succeed and whatever else the
    states hold.  A rejected create or remove request is therefore never
    reported by [sync_list]. *)
Theorem sync_list_result_ignores_answers env env' cfg (gs : list GrocyItem)
    (name : string) st st' :
  quantity_separator (matcher cfg) <> EmptyString ->
  render env' = render env ->
  og_lists st' = og_lists st ->
  mirror_snapshot st' name = mirror_snapshot st name ->
  fst (sync_list env' cfg gs name st') = fst (sync_list env cfg gs name st).
Proof.
  intros Hsep Hr Hl Hs. unfold mirror_snapshot in Hs. unfold sync_list.
  destruct gs as [|g0 gs0]; [done|]. generalize (g0 :: gs0). clear g0 gs0. intros gs.
  assert (Hn : get_list_by_name st' name = get_list_by_name st name).
  { unfold get_list_by_name. by rewrite Hl. }
  rewrite Hn in Hs |- *. destruct (get_list_by_name st name) as [l|]; [|done].
  rewrite Hs.
  pose proof (process_items_result env env' cfg l (get_list_items st l) gs st st' Hr)
    as H1.
  destruct (process_items env' cfg l (get_list_items st l) gs st') as [[u'|x'] st1'],
           (process_items env cfg l (get_list_items st l) gs st) as [[u|x] st1];
    simpl in H1; try done.
  pose proof (process_deletions_result env' (deletion cfg) (matcher cfg) l gs
                (get_list_items st l) st1' Hsep) as H2.
  pose proof (process_deletions_result env (deletion cfg) (matcher cfg) l gs
                (get_list_items st l) st1 Hsep) as H3.
  destruct (process_deletions env' _ _ l gs _ st1') as [[?|?] ?],
           (process_deletions env _ _ l gs _ st1) as [[?|?] ?]; simpl in *;
    try done; congruence.
Qed.

(** The parts of the state that only a successful request changes. *)
Lemma dead_remove env (l i : string) st :
  (forall n, succeeds env n = false) ->
  let st' := snd (remove_item_from_list env l i st) in
  fst (remove_item_from_list env l i st) = false
  /\ og_lists st' = og_lists st /\ og_items st' = og_items st
  /\ tracker st' = tracker st /\ last_added_item st' = last_added_item st.
Proof. intros H. unfold remove_item_from_list. by rewrite H. Qed.

Lemma dead_add env cfg (l n q : string) (cat : option string) st :
  (forall n, succeeds env n = false) ->
  let st' := _add_new_item env cfg l n q cat st in
  og_lists st' = og_lists st /\ og_items st' = og_items st
  /\ tracker st' = tracker st /\ last_added_item st' = last_added_item st.
Proof. intros H. unfold _add_new_item, add_item_to_list. by rewrite H. Qed.

(** X10: when the mirror rejects every request, a pass leaves the known
    lists, the items of every list, the ledger (with its file) and the
    remembered last id exactly as they were; only the log of requests
    grows. *)
Theorem sync_list_rejected_requests env cfg (gs : list GrocyItem) (name : string) st :
  (forall n, succeeds env n = false) ->
  let st' := snd (sync_list env cfg gs name st) in
  og_lists st' = og_lists st /\ og_items st' = og_items st
  /\ tracker st' = tracker st /\ last_added_item st' = last_added_item st.
Proof.
  intros Hdead.
  apply (sync_list_steps env cfg gs name st
           (fun s s' => og_lists s' = og_lists s /\ og_items s' = og_items s
                        /\ tracker s' = tracker s
                        /\ last_added_item s' = last_added_item s)).
  - done.
  - intros s1 s2 s3 (A1 & A2 & A3 & A4) (B1 & B2 & B3 & B4).
    repeat split; congruence.
  - intros l _. split; [|split].
    + intros s1 it i _ _. by destruct (dead_remove env l i s1 Hdead) as (_ & H).
    + intros s1 g n q cat _ _ _. by apply dead_add.
    + intros s1 it i _ _ _ _. unfold delete_step.
      destruct (dead_remove env l i s1 Hdead) as (H0 & H).
      destruct (remove_item_from_list env l i s1) as [ok s2]. simpl in *. by subst ok.
Qed.

Lemma is_tracked_track_mono (tr : SyncTracker.t) (l l' i j : string) :
  SyncTracker.is_tracked_item tr l' j = true ->
  SyncTracker.is_tracked_item (SyncTracker.track_item tr l i) l' j = true.
Proof.
  rewrite !is_tracked_ids_of. intros H. destruct (decide (l = l')) as [<-|Hne].
  - rewrite ids_of_track_same. destruct (SyncTracker.is_tracked_item tr l i); [done|].
    apply bool_decide_eq_true in H. apply bool_decide_eq_true.
    apply elem_of_app. by left.
  - by rewrite ids_of_track_other.
Qed.

(** X11: unless deletion is enabled and live, a pass never makes the
    ledger forget an id: whatever was tracked before [sync_list] is
    tracked after it, in every list.  That holds in particular for the id
    of an item the pass replaced by a new one. *)
Theorem sync_list_ledger_never_forgets env cfg (gs : list GrocyItem) (name : string)
    st (l j : string) :
  enabled (deletion cfg) = false \/ dry_run (deletion cfg) = true ->
  SyncTracker.is_tracked_item (tracker st) l j = true ->
  SyncTracker.is_tracked_item (tracker (snd (sync_list env cfg gs name st))) l j = true.
Proof.
  intros Hquiet.
  apply (sync_list_steps env cfg gs name st
           (fun s s' => SyncTracker.is_tracked_item (tracker s) l j = true ->
                        SyncTracker.is_tracked_item (tracker s') l j = true)).
  - done.
  - intros s1 s2 s3 H1 H2 H. by apply H2, H1.
  - intros l0 _. split; [|split].
    + intros s1 it i _ _. unfold remove_item_from_list.
      by destruct (succeeds env (length (calls s1))).
    + intros s1 g n q cat _ _ _ H. unfold _add_new_item, add_item_to_list.
      destruct (succeeds env (length (calls s1))); [|done].
      unfold track_last_added, get_last_added_item_id. simpl.
      destruct (if PyStr.truthy _ then _ else _) as [k|]; [|done].
      destruct (PyStr.truthy k); [|done]. simpl. by apply is_tracked_track_mono.
    + intros s1 it i _ _ He Hd. destruct Hquiet; congruence.
Qed.

End ServiceAnswers.

Section ServiceWitnesses.

Import ItemMatcher QuantityFormatter Sync.

Lemma sync_list_result_ignores_answers_witness :
  fst (sync_list Examples.dead_environment Scenario.config [Scenario.water] "Shopping"
         (Scenario.state Scenario.stale_mirror_items))
  = fst (sync_list Scenario.environment Scenario.config [Scenario.water] "Shopping"
           (Scenario.state Scenario.stale_mirror_items)).
Proof.
  apply (sync_list_result_ignores_answers Scenario.environment
           Examples.dead_environment Scenario.config [Scenario.water] "Shopping").
  - discriminate.
  - reflexivity.
  - reflexivity.
  - reflexivity.
Defined.

Lemma sync_list_rejected_requests_witness :
  og_items (snd (sync_list Examples.dead_environment Scenario.config [Scenario.water]
                   "Shopping" (Scenario.state Scenario.stale_mirror_items)))
  = og_items (Scenario.state Scenario.stale_mirror_items).
Proof.
  destruct (sync_list_rejected_requests Examples.dead_environment Scenario.config
              [Scenario.water] "Shopping" (Scenario.state Scenario.stale_mirror_items))
    as (_ & H & _).
  - intros n. reflexivity.
  - exact H.
Defined.

Lemma sync_list_ledger_never_forgets_witness :
  SyncTracker.is_tracked_item
    (tracker (snd (sync_list Scenario.environment Examples.quiet_config
                     [Scenario.water] "Shopping" Examples.tracked_state))) "L" "i1"
  = true.
Proof.
  apply sync_list_ledger_never_forgets.
  - left. reflexivity.
  - reflexivity.
Defined.

End ServiceWitnesses.

Section DeletionRequests.

Import ItemMatcher QuantityFormatter Sync.

Implicit Types (env : Env) (st : State) (marked : list OgItem).

Lemma remove_item_calls env (l i : string) st :
  calls (snd (remove_item_from_list env l i st)) = calls st ++ [CallRemove l i].
Proof. unfold remove_item_from_list. by destruct (succeeds env _). Qed.

Lemma delete_step_facts env (l i : string) st :
  let st' := delete_step env l i st in
  calls st' = calls st ++ [CallRemove l i]
  /\ (forall y, y ∈ get_list_items st' l -> y ∈ get_list_items st l)
  /\ (forall j, SyncTracker.is_tracked_item (tracker st') l j = true ->
                SyncTracker.is_tracked_item (tracker st) l j = true)
  /\ (succeeds env (length (calls st)) = true ->
      forall y, y ∈ get_list_items st' l -> og_id y <> Some i).
Proof.
  unfold delete_step.
  pose proof (get_list_items_removed env l i st) as Hrem.
  pose proof (remove_item_calls env l i st) as Hcalls.
  unfold remove_item_from_list in *.
  destruct (succeeds env (length (calls st))); simpl in *.
  - specialize (Hrem eq_refl). split; [done|]. split; [|split].
    + intros y Hy. unfold get_list_items in *. simpl in *. rewrite Hrem in Hy.
      by apply elem_of_service_remove in Hy as [_ Hy].
    + intros j. apply remove_tracking_tracked.
    + intros _ y Hy. unfold get_list_items in *. simpl in *. rewrite Hrem in Hy.
      by apply elem_of_service_remove in Hy as [Hy _].
  - done.
Qed.

Lemma process_removals_requests env (d : DeletionConfig) (l : string) marked st :
  dry_run d = false ->
  (forall it, it ∈ marked -> exists i, og_id it = Some i) ->
  let st' := process_removals env d l marked st in
  calls st' = calls st ++ (CallRemove l <$> omap og_id marked)
  /\ (forall y, y ∈ get_list_items st' l -> y ∈ get_list_items st l)
  /\ (forall j, SyncTracker.is_tracked_item (tracker st') l j = true ->
                SyncTracker.is_tracked_item (tracker st) l j = true)
  /\ (forall k it i, marked !! k = Some it -> og_id it = Some i ->
        succeeds env (length (calls st) + k) = true ->
        forall y, y ∈ get_list_items st' l -> og_id y <> Some i).
Proof.
  intros Hdry. revert st. induction marked as [|x marked IH]; intros st Hids.
  - simpl. split; [by rewrite app_nil_r|]. split; [done|]. split; [done|].
    intros k it i Hk. by rewrite lookup_nil in Hk.
  - destruct (Hids x ltac:(by left)) as [i Hi].
    assert (Hids' : forall it, it ∈ marked -> exists i, og_id it = Some i).
    { intros it Hit. apply Hids. by right. }
    assert (E : process_removals env d l (x :: marked) st
                = process_removals env d l marked (delete_step env l i st)).
    { cbn [process_removals]. rewrite Hdry, Hi. unfold delete_step.
      by destruct (remove_item_from_list env l i st) as [[] st1]. }
    rewrite E. clear E.
    destruct (delete_step_facts env l i st) as (D1 & D2 & D3 & D4).
    destruct (IH (delete_step env l i st) Hids') as (I1 & I2 & I3 & I4).
    split; [|split; [|split]].
    + rewrite I1, D1. cbn [omap list_omap]. rewrite Hi. simpl. by rewrite <- app_assoc.
    + intros y Hy. by apply D2, I2.
    + intros j Hj. by apply D3, I3.
    + intros k it i' Hk Hi' Hs y Hy. destruct k as [|k]; simpl in Hk.
      * injection Hk as <-. rewrite Nat.add_0_r in Hs.
        assert (i' = i) as -> by congruence. by apply D4, I2.
      * apply (I4 k it i' Hk Hi'); [|done]. rewrite D1, length_app. simpl.
        by replace (length (calls st) + 1 + k) with (length (calls st) + S k) by lia.
Qed.

(** X12: once the deletion policy has marked items, a live run sends
    exactly one removal request per marked item, in the order of the
    mirror list, whether or not earlier requests succeeded; an item whose
    request succeeded is gone from the list; no item appears in the list
    and no id becomes tracked.  A dry run sends nothing and changes
    nothing. *)
Theorem process_deletions_requests env (d : DeletionConfig) (m : ItemMatcher.t)
    (l : string) (gs : list GrocyItem) (S : list OgItem) st
    (names : gset string) marked :
  enabled d = true ->
  grocy_product_names m gs = Ok names ->
  items_to_remove d m (tracker st) l names S = Ok marked ->
  let st' := snd (process_deletions env d m l gs S st) in
  fst (process_deletions env d m l gs S st) = Ok ()
  /\ if dry_run d then st' = st
     else
       calls st' = calls st ++ (CallRemove l <$> omap og_id marked)
       /\ length (omap og_id marked) = length marked
       /\ (forall y, y ∈ get_list_items st' l -> y ∈ get_list_items st l)
       /\ (forall j, SyncTracker.is_tracked_item (tracker st') l j = true ->
                     SyncTracker.is_tracked_item (tracker st) l j = true)
       /\ (forall k it i, marked !! k = Some it -> og_id it = Some i ->
             succeeds env (length (calls st) + k) = true ->
             forall y, y ∈ get_list_items st' l -> og_id y <> Some i).
Proof.
  intros Hen Hnames Hmarked. unfold process_deletions.
  rewrite Hen, Hnames, Hmarked. simpl. split; [done|].
  destruct (dry_run d) eqn:Hdry; [by apply process_removals_dry_run|].
  assert (Hids : forall it, it ∈ marked -> exists i, og_id it = Some i).
  { intros it Hit.
    by destruct (items_to_remove_subset (mkConfig m ∅ false d) l _ _ _ _ Hmarked it Hit). }
  destruct (process_removals_requests env d l marked st Hdry Hids)
    as (H1 & H2 & H3 & H4).
  split; [done|]. split; [|done].
  clear -Hids. induction marked as [|x marked IH]; [done|].
  destruct (Hids x ltac:(by left)) as [i Hi]. cbn [omap list_omap]. rewrite Hi. simpl.
  f_equal. apply IH. intros it Hit. apply Hids. by right.
Qed.

Lemma process_deletions_requests_witness :
  calls (snd (process_deletions Scenario.environment Scenario.guards
                Scenario.default_matcher "L" [Scenario.water]
                Scenario.stale_mirror_items
                (Scenario.state Scenario.stale_mirror_items)))
  = [CallRemove "L" "i3"].
Proof.
  destruct (process_deletions_requests Scenario.environment Scenario.guards
              Scenario.default_matcher "L" [Scenario.water]
              Scenario.stale_mirror_items
              (Scenario.state Scenario.stale_mirror_items)
              {["water"]} [OgDict (Some "i3") (Some "Bread") None])
    as (_ & H & _).
  - reflexivity.
  - vm_compute. f_equal.
  - vm_compute. reflexivity.
  - exact H.
Defined.

End DeletionRequests.

Section CreatePath.

Import ItemMatcher QuantityFormatter Sync.

Implicit Types (env : Env) (cfg : Config) (st : State) (g : GrocyItem).

(** X13: a source item without category that is not matched by any
    mirror item is created: one creation request carries its mapped name
    and quantity text, and no category.  When the mirror accepts it, the new item is at the end
    of the list, and the id of the answer is remembered and tracked; when
    the answer carries no id, the id remembered from an earlier creation
    is tracked for this list instead.  When the mirror rejects it, nothing
    but the request log changes. *)
Theorem process_grocy_item_creates env cfg g (l : string) (S : list OgItem) st
    (n q : string) :
  entry env cfg g = Ok (n, q, None) ->
  find_matching_item (matcher cfg) (product_name g) S = Ok None ->
  let value := item_value (quantity_separator (matcher cfg)) n q in
  let new_id := fresh_id env (omap og_id (get_list_items st l)) in
  exists st',
    _process_grocy_item env cfg g l S st = (Ok (), st')
    /\ calls st' = calls st ++ [CallAdd l value None]
    /\ og_lists st' = og_lists st
    /\ if succeeds env (length (calls st)) then
         get_list_items st' l = service_add new_id value (get_list_items st l)
         /\ (PyStr.truthy new_id = true ->
             last_added_item st' = Some new_id
             /\ tracker st' = SyncTracker.track_item (tracker st) l new_id
             /\ SyncTracker.is_tracked_item (tracker st') l new_id = true)
         /\ (PyStr.truthy new_id = false ->
             last_added_item st' = last_added_item st
             /\ forall j, last_added_item st = Some j -> PyStr.truthy j = true ->
                  tracker st' = SyncTracker.track_item (tracker st) l j)
       else
         og_items st' = og_items st /\ tracker st' = tracker st
         /\ last_added_item st' = last_added_item st.
Proof.
  intros He Hf value new_id. rewrite process_grocy_item_entry, He, Hf.
  eexists. split; [reflexivity|].
  pose proof (get_list_items_added env (quantity_separator (matcher cfg)) l n q None st)
    as Hadd.
  unfold _add_new_item, add_item_to_list in *. fold value new_id in Hadd |- *.
  destruct (succeeds env (length (calls st))); [|done].
  specialize (Hadd eq_refl). simpl in Hadd.
  rewrite track_last_added_calls, track_last_added_og_lists, get_list_items_tracked.
  split; [done|]. split; [done|]. split; [exact Hadd|].
  unfold track_last_added, get_last_added_item_id. simpl. split.
  - intros Ht. rewrite !Ht. simpl. split; [done|]. split; [done|].
    apply is_tracked_after_track.
  - intros Ht. rewrite !Ht. split.
    + by destruct (last_added_item st) as [j|]; [destruct (PyStr.truthy j)|].
    + intros j -> Hj. by rewrite Hj.
Qed.

Lemma process_grocy_item_creates_witness :
  exists st',
    _process_grocy_item Scenario.environment Scenario.config Scenario.water "L" []
                        (Scenario.state []) = (Ok (), st')
    /\ calls st' = [CallAdd "L" "Water : 3 Bottles" None].
Proof.
  destruct (process_grocy_item_creates Scenario.environment Scenario.config
              Scenario.water "L" [] (Scenario.state []) "Water" "3 Bottles"
              eq_refl eq_refl) as (st' & H1 & H2 & _).
  exists st'. split; [exact H1 | exact H2].
Defined.

End CreatePath.

Section AllLists.

Import ItemMatcher QuantityFormatter Sync SyncAll.

Implicit Types (env : Env) (cfg : Config) (st : State).

Lemma sync_list_og_lists env cfg (gs : list GrocyItem) (name : string) st :
  og_lists (snd (sync_list env cfg gs name st)) = og_lists st.
Proof.
  pose proof (sync_list_frame env cfg gs name st) as H.
  destruct (get_list_by_name st name); [by destruct H | by rewrite H].
Qed.

Lemma sync_lists_og_lists env cfg (ms : list (list GrocyItem * string)) (b : bool) st :
  og_lists (snd (sync_lists env cfg ms b st)) = og_lists st.
Proof.
  revert b st. induction ms as [|[gs name] ms IH]; intros b st; [done|].
  cbn [sync_lists]. pose proof (sync_list_og_lists env cfg gs name st) as H.
  destruct (sync_list env cfg gs name st) as [ok st1]. simpl in H.
  by rewrite IH.
Qed.

Lemma sync_lists_success env cfg (ms : list (list GrocyItem * string)) (b : bool) st :
  sync_lists env cfg ms b st
  = (b && fst (sync_lists env cfg ms true st), snd (sync_lists env cfg ms true st)).
Proof.
  revert b st. induction ms as [|[gs name] ms IH]; intros b st.
  - simpl. by rewrite andb_true_r.
  - cbn [sync_lists]. destruct (sync_list env cfg gs name st) as [[] st1]; simpl.
    + apply IH.
    + rewrite (IH false st1). by destruct b.
Qed.

Lemma sync_lists_app env cfg (ms1 ms2 : list (list GrocyItem * string)) (b : bool) st :
  sync_lists env cfg (ms1 ++ ms2) b st
  = sync_lists env cfg ms2 (fst (sync_lists env cfg ms1 b st))
                           (snd (sync_lists env cfg ms1 b st)).
Proof.
  revert b st. induction ms1 as [|[gs name] ms1 IH]; intros b st; [done|].
  simpl. destruct (sync_list env cfg gs name st) as [ok st1]. apply IH.
Qed.

(** X14: [sync_all_lists] does nothing when a connection test fails.
    Otherwise every configured mapping is run, also after a failure: a
    mapping whose source list is empty leaves the run as it is without
    it, and a mapping whose target list the mirror does not know only
    turns the answer into [False]; the state the run ends in is the one
    it ends in without that mapping. *)
Theorem sync_all_lists_skipped_mapping env cfg
    (before after : list (list GrocyItem * string)) (gs : list GrocyItem)
    (name : string) st :
  gs = [] \/ get_list_by_name st name = None ->
  let run := sync_all_lists env cfg true true (before ++ (gs, name) :: after) st in
  let run_without := sync_all_lists env cfg true true (before ++ after) st in
  snd run = snd run_without
  /\ fst run = fst run_without && bool_decide (gs = [])
  /\ forall grocy_ok og_ok ms,
       grocy_ok && og_ok = false ->
       sync_all_lists env cfg grocy_ok og_ok ms st = (false, st).
Proof.
  intros Hskip run run_without.
  assert (Hconn : forall grocy_ok og_ok ms,
            grocy_ok && og_ok = false ->
            sync_all_lists env cfg grocy_ok og_ok ms st = (false, st)).
  { intros a b ms H. unfold sync_all_lists, test_connections. by rewrite H. }
  split; [|split; [|exact Hconn]]; unfold run, run_without, sync_all_lists; simpl;
    rewrite !sync_lists_app; cbn [sync_lists];
    pose proof (sync_lists_og_lists env cfg before true st) as Hl;
    destruct (sync_lists env cfg before true st) as [b1 st1]; simpl in *.
  - assert (E : snd (sync_list env cfg gs name st1) = st1).
    { destruct Hskip as [->|Hn]; [done|]. unfold sync_list, get_list_by_name in *.
      rewrite Hl, Hn. by destruct gs. }
    destruct (sync_list env cfg gs name st1) as [ok st2]. simpl in E. subst st2.
    by rewrite (sync_lists_success _ _ _ (if negb ok then false else b1)),
               (sync_lists_success _ _ _ b1).
  - assert (E : sync_list env cfg gs name st1 = (bool_decide (gs = []), st1)).
    { destruct Hskip as [->|Hn]; [done|]. unfold sync_list, get_list_by_name in *.
      rewrite Hl, Hn. by destruct gs. }
    rewrite E.
    rewrite (sync_lists_success _ _ _ (if negb _ then false else b1)),
            (sync_lists_success _ _ _ b1). simpl.
    destruct (bool_decide (gs = [])), b1, (fst (sync_lists env cfg after true st1)); done.
Qed.

Lemma sync_all_lists_skipped_mapping_witness :
  let without := sync_all_lists Scenario.environment Scenario.config true true
                   [([Scenario.water], "Shopping")]
                   (Scenario.state Scenario.stale_mirror_items) in
  let run := sync_all_lists Scenario.environment Scenario.config true true
               [([Scenario.water], "Shopping"); ([Scenario.water], "Hardware")]
               (Scenario.state Scenario.stale_mirror_items) in
  snd run = snd without /\ fst run = false.
Proof.
  destruct (sync_all_lists_skipped_mapping Scenario.environment Scenario.config
              [([Scenario.water], "Shopping")] [] [Scenario.water] "Hardware"
              (Scenario.state Scenario.stale_mirror_items)) as (H1 & H2 & _).
  - right. reflexivity.
  - split; [exact H1|]. etransitivity; [exact H2|]. apply andb_false_r.
Defined.

End AllLists.

Section WrittenValues.

Import ItemMatcher Sync.

(** X15: what the client writes for a name and a quantity text, the
    matcher reads back: the base name of the written value is the
    lower-cased name, the quantity found in it is the quantity text (none
    when the text is empty), and it compares as unchanged, so an item
    just written is found again and left alone.  This needs a separator
    without upper-case letters and a clean name (trimmed, and not
    containing the separator or, without a quantity, an opening
    parenthesis). *)
Theorem written_value_read_back (m : ItemMatcher.t) (i : string) (c : option bool)
    (n q : string) (cat : option string) :
  quantity_separator m <> EmptyString ->
  PyStr.lower (quantity_separator m) = quantity_separator m ->
  clean_entry (quantity_separator m) (n, q, cat) = true ->
  let value := item_value (quantity_separator m) n q in
  let written := OgDict (Some i) (Some value) c in
  let read := if PyStr.truthy q then Some q else None in
  extract_base_name m value = Ok (PyStr.lower n)
  /\ extract_existing_quantity m written = Ok read
  /\ has_quantity_changed read q = false
  /\ find_loop m (PyStr.lower n) [written] = Ok (Some written).
Proof.
  intros Hsep Hlow Hclean value written read.
  pose proof (base_of_created m Hsep Hlow i c (n, q, cat) Hclean) as Hb.
  simpl in Hb. fold value in Hb. unfold entry_key in Hb. simpl in Hb.
  assert (Hbase : extract_base_name m value = Ok (PyStr.lower n)).
  { destruct (extract_base_name m value) as [b|e]; simpl in Hb; congruence. }
  assert (Hread : extract_existing_quantity m written = Ok read
                  /\ has_quantity_changed read q = false).
  { unfold clean_entry, entry_key in Hclean. simpl in Hclean.
    apply andb_true_iff in Hclean as [_ H].
    unfold written, value, read, extract_existing_quantity, item_value.
    destruct (PyStr.truthy q) eqn:Hq.
    - apply bool_decide_eq_true in H. apply (partition_raw _ _ Hlow) in H.
      apply (partition_extend _ _ q) in H.
      destruct (split_head_partition m Hsep Hlow _ _ _ H) as (-> & _ & ->). simpl.
      split; [done|]. unfold has_quantity_changed. by rewrite decide_True.
    - apply andb_true_iff in H as [H1 H2].
      apply negb_true_iff in H1. apply negb_true_iff in H2.
      rewrite (contains_lower _ _ Hlow H1), (legacy_search_no_paren _ H2).
      split; [done|]. by destruct q. }
  destruct Hread as [H1 H2]. split; [done|]. split; [done|]. split; [done|].
  unfold written. cbn [find_loop]. rewrite Hbase. simpl. by rewrite String.eqb_refl.
Qed.

Lemma written_value_read_back_witness :
  extract_base_name Scenario.default_matcher "Water : 3 Bottles" = Ok "water"
  /\ extract_existing_quantity Scenario.default_matcher
       (OgDict (Some "n") (Some "Water : 3 Bottles") None) = Ok (Some "3 Bottles").
Proof.
  destruct (written_value_read_back Scenario.default_matcher "n" None
              "Water" "3 Bottles" None) as (H1 & H2 & _).
  - discriminate.
  - reflexivity.
  - reflexivity.
  - split; [exact H1 | exact H2].
Defined.

End WrittenValues.

Section FormatterMore.

Import QuantityFormatter QuantityUnits.

Local Open Scope Q_scope.











(** X19: the stand-alone [_convert_quantity] looks the factor up as
    [_find_conversion_factor] does, and raises what that raises.  With a
    factor whose float is positive and a numeric amount it returns the
    float product rounded to two places: the float nearest to the
    hundredth nearest to the product, within 0.01 of the product and
    never moved to a neighbouring whole number.  An infinite product
    leaves as an [OverflowError].  With no factor, a factor that is not
    positive, an amount that is not a number or a product that is NaN, it
    returns the amount as it came in. *)
Theorem convert_quantity_outcome (product : Product) (a : option PyVal)
    (from_id to_id : option Z) :
  match _find_conversion_factor product from_id to_id with
  | Raise e => _convert_quantity product a from_id to_id = Raise e
  | Ok (Some f) =>
      match float_of_amount a with
      | Ok x =>
          if float_truthy (fl f) && float_positive (fl f) then
            match py_round2 (float_mul (fl x) (fl f)) with
            | Finite r =>
                _convert_quantity product a from_id to_id = Ok (Converted r)
                /\ exists p,
                     float_mul (fl x) (fl f) = Finite p
                     /\ fl (inject_Z (py_round (p * 100)) / 100) = Finite r
                     /\ Qabs (inject_Z (py_round (p * 100)) / 100 - p) <= 1 # 200
                     /\ Qabs (r - p) <= 1 # 100
            | Infinity _ =>
                _convert_quantity product a from_id to_id = Raise OverflowError
            | NaN => _convert_quantity product a from_id to_id = Ok (Original a)
            end
          else _convert_quantity product a from_id to_id = Ok (Original a)
      | Raise _ => _convert_quantity product a from_id to_id = Ok (Original a)
      end
  | Ok None => _convert_quantity product a from_id to_id = Ok (Original a)
  end.
Proof.
  assert (Hlookup : forall cf,
            _find_conversion_factor product from_id to_id = cf ->
            _convert_quantity product a from_id to_id
            = (conversion_factor ← cf;
               match conversion_factor with
               | Some f =>
                   if float_truthy (fl f) && float_positive (fl f) then
                     match float_of_amount a with
                     | Ok x =>
                         match py_round2 (float_mul (fl x) (fl f)) with
                         | Finite r => Ok (Converted r)
                         | Infinity _ => Raise OverflowError
                         | NaN => Ok (Original a)
                         end
                     | Raise _ => Ok (Original a)
                     end
                   else Ok (Original a)
               | None => Ok (Original a)
               end)).
  { intros cf <-. unfold _convert_quantity, _find_conversion_factor.
    destruct (quantity_unit_conversions product) as [cs|]; [|done].
    destruct (List.find (is_conversion from_id to_id) cs) as [c|]; simpl.
    - by destruct (factor_of c).
    - done. }
  rewrite (Hlookup _ eq_refl).
  destruct (_find_conversion_factor product from_id to_id) as [[f|]|e];
    cbn [mbind Res_bind]; [|done|done].
  destruct (float_of_amount a) as [x|e]; [|by destruct (_ && _)].
  destruct (float_truthy (fl f) && float_positive (fl f)); [|done].
  destruct (py_round2 (float_mul (fl x) (fl f))) as [r|s|] eqn:Er; [|done|done].
  split; [done|].
  destruct (py_round2_finite _ _ Er) as (p & Hm & Hr).
  destruct (float_mul_finite _ _ p Hm) as (x' & y' & _ & _ & Hxy).
  pose proof (fl_is_float _ _ Hxy) as Hfp.
  rewrite Hm in Er. destruct (py_round2_error p r Hfp Er) as [Hd1 Hd2].
  cbv zeta in Hd1, Hd2.
  exists p. split; [done|]. split; [done|]. split; [done|].
  set (d := inject_Z (py_round (p * 100)) / 100) in *.
  rewrite <- (Qabs_opp (p - d)) in Hd2.
  assert (Ho : - (p - d) == d - p) by ring. rewrite Ho in Hd2.
  assert (Hd3 : Qabs (r - d) <= 1 # 200) by (eapply Qle_trans; eassumption).
  assert (E : r - p == (r - d) + (d - p)) by ring. rewrite E.
  eapply Qle_trans; [apply Qabs_triangle|]. lra.
Qed.

End FormatterMore.

Section Backoff.

Local Open Scope Z_scope.

(** The waits [base * 2 ^ j] for [j] from [from] on, [k] of them. *)
Lemma backoff_sum (base : Z) (k : nat) :
  fold_right Z.add 0 ((fun j => base * 2 ^ Z.of_nat j) <$> seq 0 k)
  = base * (2 ^ Z.of_nat k - 1).
Proof.
  induction k as [|k IH]; [simpl; lia|].
  rewrite seq_S, fmap_app, fold_right_app. simpl.
  assert (G : forall (l : list Z) (a : Z),
            fold_right Z.add a l = fold_right Z.add 0 l + a).
  { induction l as [|x l IHl]; intros a; simpl; [lia|]. rewrite IHl. lia. }
  rewrite G, IH. rewrite Nat2Z.inj_succ, Z.pow_succ_r by lia. lia.
Qed.

End Backoff.

Section OurGroceriesRetry.

Import OurGroceriesClient.

Local Open Scope Z_scope.

Context {A : Type}.

Variables (attempts : nat -> option A) (max_retries retry_delay : Z).

Hypothesis delay_nonneg : 0 <= retry_delay.

Lemma retry_loop_first (k todo attempt : nat) (slept : list Z) :
  (k < todo)%nat ->
  (forall j, (attempt <= j < attempt + k)%nat -> attempts j = None) ->
  Z.of_nat (attempt + k) <= max_retries ->
  retry_loop attempts max_retries retry_delay todo attempt slept
  = match attempts (attempt + k)%nat with
    | Some r =>
        (Returned r,
         slept ++ ((fun j => retry_delay * 2 ^ Z.of_nat j) <$> seq attempt k))
    | None =>
        if max_retries <=? Z.of_nat (attempt + k)
        then (ApiError,
              slept ++ ((fun j => retry_delay * 2 ^ Z.of_nat j) <$> seq attempt k))
        else retry_loop attempts max_retries retry_delay (todo - k) (attempt + k)
               (slept ++ ((fun j => retry_delay * 2 ^ Z.of_nat j) <$> seq attempt k))
    end.
Proof.
  revert todo attempt slept. induction k as [|k IH]; intros todo attempt slept Hk Hnone Hmax.
  - rewrite Nat.add_0_r, Nat.sub_0_r. simpl. rewrite app_nil_r.
    destruct todo as [|todo]; [lia|]. simpl.
    destruct (attempts attempt); [done|].
    destruct (max_retries <=? Z.of_nat attempt) eqn:E; [done|].
    assert (Hd : (retry_delay * 2 ^ Z.of_nat attempt <? 0) = false).
    { apply Z.ltb_ge. apply Z.mul_nonneg_nonneg; [done|]. apply Z.pow_nonneg. lia. }
    by rewrite Hd.
  - destruct todo as [|todo]; [lia|]. cbn [retry_loop].
    rewrite (Hnone attempt) by lia.
    assert (E : (max_retries <=? Z.of_nat attempt) = false) by (apply Z.leb_gt; lia).
    rewrite E.
    assert (Hd : (retry_delay * 2 ^ Z.of_nat attempt <? 0) = false).
    { apply Z.ltb_ge. apply Z.mul_nonneg_nonneg; [done|]. apply Z.pow_nonneg. lia. }
    rewrite Hd. rewrite (IH todo (S attempt)); [|lia| |lia].
    + replace (S attempt + k)%nat with (attempt + S k)%nat by lia.
      replace (S todo - S k)%nat with (todo - k)%nat by lia.
      cbn [seq fmap list_fmap]. by rewrite <- !app_assoc.
    + intros j Hj. apply Hnone. lia.
Qed.

(** X20: [_run_with_retry] with attempts that raise up to attempt [k].
    Before attempt [k] it has slept [retry_delay * 2 ^ j] after each
    failed attempt [j], which adds up to [retry_delay * (2 ^ k - 1)].  If
    attempt [k] goes through, its value is returned; if it raises too and
    [k] is [max_retries], [OurGroceriesApiError] is raised, after
    [max_retries + 1] attempts and with no sleep after the last one. *)
Theorem run_with_retry_backoff (k : nat) :
  (forall j, (j < k)%nat -> attempts j = None) ->
  Z.of_nat k <= max_retries ->
  let delays := (fun j => retry_delay * 2 ^ Z.of_nat j) <$> seq 0 k in
  fold_right Z.add 0 delays = retry_delay * (2 ^ Z.of_nat k - 1)
  /\ match attempts k with
     | Some r => _run_with_retry attempts max_retries retry_delay = (Returned r, delays)
     | None =>
         Z.of_nat k = max_retries ->
         _run_with_retry attempts max_retries retry_delay = (ApiError, delays)
     end.
Proof.
  intros Hnone Hmax delays. split; [apply backoff_sum|].
  unfold _run_with_retry.
  rewrite (retry_loop_first k (Z.to_nat (max_retries + 1)) 0 []); [|lia| |simpl; lia].
  - simpl. fold delays. destruct (attempts k); [done|].
    intros <-. by rewrite Z.leb_refl.
  - intros j Hj. apply Hnone. lia.
Qed.

End OurGroceriesRetry.

Section OurGroceriesRetryWitness.

Import OurGroceriesClient.

Lemma run_with_retry_backoff_witness :
  _run_with_retry (fun j => if (j <? 2)%nat then None else Some tt) 3 2
  = (Returned tt, [2; 4]%Z).
Proof.
  pose proof (run_with_retry_backoff
                (fun j => if (j <? 2)%nat then None else Some tt) 3 2
                ltac:(lia) 2) as H.
  simpl in H. apply H.
  - intros j Hj. destruct j as [|[|j]]; [reflexivity | reflexivity | lia].
  - lia.
Defined.

End OurGroceriesRetryWitness.

Section GrocyRequests.

Import GrocyClient.

Local Open Scope Z_scope.

Variable attempts : nat -> Attempt.

Lemma rewrap_idem (o : Outcome) : rewrap (rewrap o) = rewrap o.
Proof. by destruct o. Qed.

(** A request whose attempt is not one that is retried ends there. *)
Lemma request_from_decided (remaining retry_count : nat) (waited : list Z) :
  retried (attempts retry_count) = false ->
  request_from attempts remaining retry_count waited
  = (fst (request_from attempts 0 retry_count []), waited)
  /\ rewrap (fst (request_from attempts 0 retry_count []))
     = fst (request_from attempts 0 retry_count []).
Proof.
  intros H. destruct remaining; simpl; destruct (attempts retry_count) as [code| |];
    simpl in *; try done.
  all: destruct (code =? 401); [done|].
  all: destruct (400 <=? code) eqn:E1; simpl; [|done].
  all: destruct (code <? 600) eqn:E2; simpl; [|done].
  all: destruct (500 <=? code) eqn:E3; simpl in *; done.
Qed.

Lemma request_from_waits (k remaining retry_count : nat) (waited : list Z) :
  (k <= remaining)%nat ->
  (forall j, (retry_count <= j < retry_count + k)%nat -> retried (attempts j) = true) ->
  let waits := (fun j => 2 ^ Z.of_nat j) <$> seq retry_count k in
  let rest := request_from attempts (remaining - k) (retry_count + k) (waited ++ waits) in
  snd (request_from attempts remaining retry_count waited) = snd rest
  /\ (fst (request_from attempts remaining retry_count waited) = fst rest
      \/ fst (request_from attempts remaining retry_count waited) = rewrap (fst rest)).
Proof.
  revert remaining retry_count waited.
  induction k as [|k IH]; intros remaining retry_count waited Hk Hret waits rest.
  - unfold rest, waits. simpl. rewrite Nat.add_0_r, Nat.sub_0_r, app_nil_r. auto.
  - destruct remaining as [|remaining]; [lia|].
    assert (Hshift : rest = request_from attempts (remaining - k) (S retry_count + k)
                       ((waited ++ [2 ^ Z.of_nat retry_count])
                        ++ ((fun j => 2 ^ Z.of_nat j) <$> seq (S retry_count) k))).
    { unfold rest, waits. cbn [seq fmap list_fmap].
      replace (retry_count + S k)%nat with (S retry_count + k)%nat by lia.
      by rewrite <- !app_assoc. }
    destruct (IH remaining (S retry_count) (waited ++ [2 ^ Z.of_nat retry_count]))
      as [I1 I2]; [lia | intros j Hj; apply Hret; lia |].
    cbv zeta in I1, I2. rewrite <- Hshift in I1, I2.
    pose proof (Hret retry_count ltac:(lia)) as H0.
    cbn [request_from]. destruct (attempts retry_count) as [code| |]; simpl in H0;
      [|done|done].
    apply andb_true_iff in H0 as [H5 H6].
    assert (H401 : (code =? 401) = false) by (apply Z.eqb_neq; lia).
    assert (H400 : (400 <=? code) = true) by (apply Z.leb_le; lia).
    rewrite H401, H400, H6, H5. simpl.
    destruct (request_from attempts remaining (S retry_count)
                (waited ++ [2 ^ Z.of_nat retry_count])) as [o w]. simpl in *.
    split; [done|]. right. destruct I2 as [->| ->]; [done | by rewrite rewrap_idem].
Qed.

(** X21: retries do not change what a request ends with.  When the
    attempts before attempt [k] were all server errors (5xx), connection
    errors or timeouts, [k] is within [max_retries], and attempt [k] is
    none of these, [_make_request] ends as a request without retries ends
    on attempt [k] alone: with the response, with
    [GrocyAuthenticationError] on status 401, with [GrocyApiError] on
    another 4xx status or another exception.  It has then waited
    [2 ^ j] seconds after each attempt [j] before [k]. *)
Theorem make_request_decided_at (max_retries : Z) (k : nat) :
  Z.of_nat k <= max_retries ->
  (forall j, (j < k)%nat -> retried (attempts j) = true) ->
  retried (attempts k) = false ->
  _make_request attempts max_retries
  = (fst (_make_request (fun j => attempts (k + j)%nat) 0),
     (fun j => 2 ^ Z.of_nat j) <$> seq 0 k)
  /\ fst (_make_request attempts max_retries) <> ConnectionError.
Proof.
  intros Hk Hret Hdec. unfold _make_request.
  destruct (request_from_waits k (Z.to_nat max_retries) 0 []) as [W1 W2];
    [lia | intros j Hj; apply Hret; lia |].
  cbv zeta in W1, W2. simpl in W1, W2.
  destruct (request_from_decided (Z.to_nat max_retries - k) k
              ((fun j => 2 ^ Z.of_nat j) <$> seq 0 k) Hdec) as [D1 D2].
  rewrite D1 in W1, W2. simpl in W1, W2.
  assert (Hfst : fst (request_from attempts (Z.to_nat max_retries) 0 [])
                 = fst (request_from attempts 0 k [])).
  { destruct W2 as [->| ->]; [done | exact D2]. }
  assert (Hsame : fst (request_from (fun j => attempts (k + j)%nat) (Z.to_nat 0) 0 [])
                  = fst (request_from attempts 0 k [])).
  { simpl. rewrite Nat.add_0_r. by destruct (attempts k). }
  split.
  - rewrite Hsame. destruct (request_from attempts (Z.to_nat max_retries) 0 []) as [o w].
    simpl in *. by subst.
  - rewrite Hfst. intros Hc. rewrite Hc in D2. done.
Qed.

Lemma request_from_connection_error (remaining retry_count : nat) (waited : list Z) :
  fst (request_from attempts remaining retry_count waited) = ConnectionError
  <-> forall j, (retry_count <= j <= retry_count + remaining)%nat ->
                attempts j = ConnectionFailed.
Proof.
  revert retry_count waited. induction remaining as [|remaining IH];
    intros retry_count waited.
  - simpl. split.
    + intros H j Hj. assert (j = retry_count) as -> by lia.
      destruct (attempts retry_count) as [code| |]; [|done|done].
      destruct (code =? 401); [done|].
      destruct ((400 <=? code) && (code <? 600)); [|done].
      by destruct (500 <=? code).
    + intros H. by rewrite (H retry_count ltac:(lia)).
  - cbn [request_from]. split.
    + intros H. destruct (attempts retry_count) as [code| |] eqn:E.
      * destruct (code =? 401); [done|].
        destruct ((400 <=? code) && (code <? 600)); [|done].
        destruct (500 <=? code); [|done].
        destruct (request_from attempts remaining (S retry_count) _) as [[] w]; done.
      * pose proof (proj1 (IH _ _) H) as H'. intros j Hj.
        destruct (decide (j = retry_count)) as [->|Hne]; [done|]. apply H'. lia.
      * done.
    + intros H. rewrite (H retry_count ltac:(lia)). apply IH.
      intros j Hj. apply H. lia.
Qed.

(** A request whose attempts are all retried gives up. *)
Lemma make_request_exhausted (max_retries : Z) :
  let n := Z.to_nat max_retries in
  (forall j, (j <= n)%nat -> retried (attempts j) = true) ->
  snd (_make_request attempts max_retries) = (fun j => 2 ^ Z.of_nat j) <$> seq 0 n
  /\ (fst (_make_request attempts max_retries) = ConnectionError
      \/ fst (_make_request attempts max_retries) = ApiError).
Proof.
  intros n Hret. unfold _make_request. fold n.
  set (waits := (fun j => 2 ^ Z.of_nat j) <$> seq 0 n).
  destruct (request_from_waits n n 0 []) as [W1 W2];
    [lia | intros j Hj; apply Hret; lia |].
  cbv zeta in W1, W2. simpl in W1, W2. rewrite Nat.sub_diag in W1, W2.
  fold waits in W1, W2.
  pose proof (Hret n ltac:(lia)) as Hn.
  assert (Hlast : request_from attempts 0 n waits = (ConnectionError, waits)
                  \/ request_from attempts 0 n waits = (ApiError, waits)).
  { cbn [request_from]. destruct (attempts n) as [code| |]; simpl in Hn;
      [|by left|done].
    apply andb_true_iff in Hn as [H5 H6].
    assert (H401 : (code =? 401) = false) by (apply Z.eqb_neq; lia).
    assert (H400 : (400 <=? code) = true) by (apply Z.leb_le; lia).
    rewrite H401, H400, H6, H5. by right. }
  split.
  - rewrite W1. by destruct Hlast as [-> | ->].
  - destruct Hlast as [E|E]; rewrite E in W2; simpl in W2;
      destruct W2 as [->| ->]; auto.
Qed.

(** X22: when every attempt up to [max_retries] is a server error, a
    connection error or a timeout, [_make_request] gives up after
    [max_retries + 1] attempts, having waited 1, 2, 4, ... seconds between
    them, [2 ^ max_retries - 1] in all.  It raises [GrocyConnectionError]
    exactly when all these attempts were connection errors or timeouts;
    one server error among them turns the error into [GrocyApiError].  In
    general [GrocyConnectionError] is raised only in that way. *)
Theorem make_request_gives_up (max_retries : Z) :
  let n := Z.to_nat max_retries in
  (fst (_make_request attempts max_retries) = ConnectionError
   <-> forall j, (j <= n)%nat -> attempts j = ConnectionFailed)
  /\ ((forall j, (j <= n)%nat -> retried (attempts j) = true) ->
      let waits := (fun j => 2 ^ Z.of_nat j) <$> seq 0 n in
      snd (_make_request attempts max_retries) = waits
      /\ fold_right Z.add 0 waits = 2 ^ Z.of_nat n - 1
      /\ (fst (_make_request attempts max_retries) = ConnectionError
          \/ fst (_make_request attempts max_retries) = ApiError)).
Proof.
  intros n. split.
  - unfold _make_request. fold n. rewrite request_from_connection_error.
    split; intros H j Hj; apply H; lia.
  - intros Hret waits. destruct (make_request_exhausted max_retries Hret) as [H1 H2].
    split; [exact H1|]. split; [|exact H2].
    pose proof (backoff_sum 1 n) as Hsum.
    assert (Hw : (fun j => 1 * 2 ^ Z.of_nat j) <$> seq 0 n = waits).
    { unfold waits. apply list_fmap_ext. intros _ j _. lia. }
    rewrite Hw in Hsum. lia.
Qed.

End GrocyRequests.

Section GrocyRequestsWitness.

Import GrocyClient.

Lemma make_request_decided_at_witness :
  _make_request (fun j => match j with
                          | O => Status 503
                          | S O => ConnectionFailed
                          | _ => Status 401
                          end) 3
  = (AuthenticationError, [1; 2]%Z).
Proof.
  pose proof (make_request_decided_at
                (fun j => match j with
                          | O => Status 503
                          | S O => ConnectionFailed
                          | _ => Status 401
                          end) 3 2) as H.
  destruct H as [H _].
  - lia.
  - intros j Hj. destruct j as [|[|j]]; [reflexivity | reflexivity | lia].
  - reflexivity.
  - exact H.
Defined.

End GrocyRequestsWitness.

Section CategoryIds.

Import OurGroceriesClient.

Lemma contains_refl (s : string) : PyStr.contains s s = true.
Proof.
  unfold PyStr.contains. rewrite partition_unfold.
  pose proof (startswith_app s EmptyString) as H. rewrite app_empty_r in H.
  by rewrite H.
Qed.

Lemma find_key_unique (ids : list (string * string)) (k v : string) :
  NoDup (fst <$> ids) -> (k, v) ∈ ids ->
  List.find (fun kv => String.eqb (fst kv) k) ids = Some (k, v).
Proof.
  induction ids as [|[k' v'] ids IH]; intros Hnd Hin; [by apply elem_of_nil in Hin|].
  simpl in *. apply NoDup_cons in Hnd as [Hk' Hnd].
  destruct (String.eqb k' k) eqn:E.
  - apply String.eqb_eq in E as ->. apply elem_of_cons in Hin as [[= ->]|Hin]; [done|].
    exfalso. apply Hk'. apply list_elem_of_fmap. by exists (k, v).
  - apply elem_of_cons in Hin as [[= -> ->]|Hin].
    + by rewrite String.eqb_refl in E.
    + by apply IH.
Qed.

(** X23: the lookup of a category id among the configured ids only
    looks at the lower-cased category name.  A key equal to that name
    gives its id even when an earlier key matches in part; otherwise the
    first key that occurs in the name or in which the name occurs gives
    its id; and no id is found exactly when no configured key overlaps
    with the name in this way. *)
Theorem find_category_in_category_mappings_spec (category_ids : list (string * string))
    (category_name : string) :
  let name_lower := PyStr.lower category_name in
  let overlaps := fun kv : string * string =>
    PyStr.contains (fst kv) name_lower || PyStr.contains name_lower (fst kv) in
  (forall other, PyStr.lower other = name_lower ->
     find_category_in_category_mappings category_ids other
     = find_category_in_category_mappings category_ids category_name)
  /\ (forall v, NoDup (fst <$> category_ids) -> (name_lower, v) ∈ category_ids ->
        find_category_in_category_mappings category_ids category_name = Some v)
  /\ ((forall kv, kv ∈ category_ids -> fst kv <> name_lower) ->
      find_category_in_category_mappings category_ids category_name
      = snd <$> List.find overlaps category_ids)
  /\ (find_category_in_category_mappings category_ids category_name = None
      <-> forall kv, kv ∈ category_ids -> overlaps kv = false).
Proof.
  intros name_lower overlaps. unfold find_category_in_category_mappings.
  fold name_lower. fold overlaps. split; [|split; [|split]].
  - intros other Ho. by rewrite Ho.
  - intros v Hnd Hin. by rewrite (find_key_unique _ _ _ Hnd Hin).
  - intros Hne.
    destruct (List.find (fun kv => String.eqb (fst kv) name_lower) category_ids)
      as [kv|] eqn:E; [|done].
    apply find_Some_elem in E as [Hin Heq]. apply String.eqb_eq in Heq.
    by destruct (Hne kv Hin).
  - destruct (List.find (fun kv => String.eqb (fst kv) name_lower) category_ids)
      as [kv|] eqn:E.
    + split; [done|]. intros H. apply find_Some_elem in E as [Hin Heq].
      apply String.eqb_eq in Heq. specialize (H kv Hin). unfold overlaps in H.
      rewrite Heq, contains_refl in H. done.
    + destruct (List.find overlaps category_ids) as [kv|] eqn:E2; simpl.
      * split; [done|]. intros H. apply find_Some_elem in E2 as [Hin Ho].
        rewrite (H kv Hin) in Ho. done.
      * split; [|done]. intros _. by apply find_None_iff.
Qed.

End CategoryIds.

Section EmptySnapshot.

Import ItemMatcher QuantityFormatter Sync.

Implicit Types (env : Env) (cfg : Config) (st : State) (g : GrocyItem).

Lemma add_new_item_calls env cfg (l n q : string) (cat : option string) st :
  calls (_add_new_item env cfg l n q cat st)
  = calls st ++ [CallAdd l (item_value (quantity_separator (matcher cfg)) n q) cat].
Proof.
  unfold _add_new_item, add_item_to_list.
  destruct (succeeds env (length (calls st))); [|done].
  by rewrite track_last_added_calls.
Qed.

Lemma find_matching_item_nil env cfg g e :
  entry env cfg g = Ok e ->
  find_matching_item (matcher cfg) (product_name g) [] = Ok None.
Proof.
  unfold entry, find_matching_item.
  destruct (format_quantity (render env) g) as [[qv qs]|x]; [|done].
  by destruct (map_item_name (matcher cfg) (product_name g)).
Qed.

(** X24: on an empty snapshot of the mirror list, which is also what
    [get_list_items] answers when reading the list failed, the loop over
    source items without category sends one creation request for every
    source item that is not done, in order, until an item raises; it
    sends nothing else, whatever the mirror holds and however it
    answers. *)
Theorem process_items_empty_snapshot env cfg (l : string) (gs : list GrocyItem) st :
  no_categories cfg gs ->
  let sep := quantity_separator (matcher cfg) in
  let request := fun e : string * string * option string =>
    CallAdd l (item_value sep (fst (fst e)) (snd (fst e))) None in
  fst (process_items env cfg l [] gs st) = snd (run_entries env cfg gs)
  /\ calls (snd (process_items env cfg l [] gs st))
     = calls st ++ (request <$> fst (run_entries env cfg gs)).
Proof.
  intros Hno sep request. revert st. induction gs as [|g gs IH]; intros st.
  - simpl. by rewrite app_nil_r.
  - assert (Hno' : no_categories cfg gs).
    { intros g' Hg'. apply Hno. by apply list_elem_of_further. }
    specialize (IH Hno').
    cbn [process_items run_entries]. destruct (is_done g) eqn:Hd; [apply IH|].
    rewrite process_grocy_item_entry.
    destruct (entry env cfg g) as [[[n q] cat]|x] eqn:He.
    + assert (Hcat : cat = None).
      { unfold entry in He.
        destruct (format_quantity (render env) g) as [[qv qs]|y]; [|done].
        destruct (map_item_name (matcher cfg) (product_name g)); [|done].
        injection He as _ _ <-. apply Hno; [apply list_elem_of_here | exact Hd]. }
      subst cat.
      rewrite (find_matching_item_nil env cfg g _ He).
      destruct (IH (_add_new_item env cfg l n q None st)) as [I1 I2].
      destruct (run_entries env cfg gs) as [es r]. simpl in *.
      split; [exact I1|]. rewrite I2, add_new_item_calls. by rewrite <- app_assoc.
    + simpl. by rewrite app_nil_r.
Qed.

Lemma process_items_empty_snapshot_witness :
  no_categories Scenario.config [Scenario.water]
  /\ calls (snd (process_items Scenario.environment Scenario.config "L" []
                               [Scenario.water] (Scenario.state Scenario.mirror_items)))
     = [CallAdd "L" "Water : 3 Bottles" None].
Proof.
  assert (Hno : no_categories Scenario.config [Scenario.water]).
  { intros g Hg _. apply list_elem_of_singleton in Hg. by rewrite Hg. }
  split; [exact Hno|].
  destruct (process_items_empty_snapshot Scenario.environment Scenario.config "L"
              [Scenario.water] (Scenario.state Scenario.mirror_items) Hno) as [_ H].
  etransitivity; [exact H|]. vm_compute. reflexivity.
Defined.

End EmptySnapshot.

Section ItemCache.

Import ItemMatcher CachedClient.

Local Open Scope Q_scope.

Lemma coherent_invalidate (l : string) (c : Client) (s : gmap string (list OgItem)) :
  coherent c ->
  (forall l', l' <> l -> s !! l' = service c !! l') ->
  coherent (invalidate l (mkClient s (cache_items c) (cache_time c))).
Proof.
  intros Hc Hs l' items. unfold invalidate. simpl.
  destruct (cache_items c !! l) as [old|] eqn:E; simpl.
  - destruct (decide (l' = l)) as [->|Hne].
    + by rewrite lookup_delete_eq.
    + rewrite lookup_delete_ne by done. intros H. rewrite (Hc l' items H).
      unfold held. simpl. by rewrite Hs.
  - destruct (decide (l' = l)) as [->|Hne]; [congruence|].
    intros H. rewrite (Hc l' items H). unfold held. simpl. by rewrite Hs.
Qed.

(** X25: the cache of list items never disagrees with the mirror.  If
    every cached list is the list the mirror holds, this stays so after
    [get_list_items], [add_item_to_list] and [remove_item_from_list],
    whether their requests go through or not.  [get_list_items] then
    answers with what the mirror holds, except that it answers [[]] when
    it has to ask and the request fails; and right after an addition that
    went through, it asks again and sees the new item. *)
Theorem list_items_cache_coherent (c : Client) :
  coherent c ->
  (forall request_ok now l,
     let '(items, c') := get_list_items request_ok now l c in
     coherent c' /\ service c' = service c
     /\ (items = held c l \/ (request_ok = false /\ items = [])))
  /\ (forall request_ok l item, coherent (snd (add_item_to_list request_ok l item c)))
  /\ (forall request_ok l i, coherent (snd (remove_item_from_list request_ok l i c)))
  /\ (forall now l item,
        fst (get_list_items true now l (snd (add_item_to_list true l item c)))
        = held c l ++ [item]).
Proof.
  intros Hc. split; [|split; [|split]].
  - intros request_ok now l. unfold get_list_items.
    assert (Hfetch :
      let '(items, c') :=
        (if request_ok
         then (held c l, mkClient (service c) (<[l := held c l]> (cache_items c))
                                  (<[l := now]> (cache_time c)))
         else ([], c)) in
      coherent c' /\ service c' = service c
      /\ (items = held c l \/ (request_ok = false /\ items = []))).
    { destruct request_ok.
      - split; [|split; [done | by left]]. intros l' items. simpl.
        destruct (decide (l' = l)) as [->|Hne].
        + rewrite lookup_insert_eq. by intros [= <-].
        + rewrite lookup_insert_ne by done. apply Hc.
      - split; [done|]. split; [done|]. by right. }
    destruct (cache_time c !! l) as [t|]; [|exact Hfetch].
    destruct (cache_items c !! l) as [items|] eqn:E; [|exact Hfetch].
    destruct (QuantityFormatter.Qltb (now - t) expiry); [|exact Hfetch].
    split; [done|]. split; [done|]. left. by apply Hc.
  - intros request_ok l item. unfold add_item_to_list.
    destruct request_ok; [|done]. simpl. apply coherent_invalidate; [done|].
    intros l' Hne. by rewrite lookup_insert_ne.
  - intros request_ok l i. unfold remove_item_from_list.
    destruct request_ok; [|done]. simpl. apply coherent_invalidate; [done|].
    intros l' Hne. by rewrite lookup_alter_ne.
  - intros now l item. unfold add_item_to_list, get_list_items, invalidate. simpl.
    destruct (cache_items c !! l) as [old|] eqn:E; simpl.
    + rewrite (lookup_delete_eq (cache_time c)). unfold held. simpl.
      by rewrite lookup_insert_eq.
    + rewrite E. destruct (cache_time c !! l) as [t|]; unfold held; simpl;
        by rewrite lookup_insert_eq.
Qed.

Lemma list_items_cache_coherent_witness :
  fst (get_list_items true 5 "L"
         (snd (add_item_to_list true "L" (OgDict (Some "n") (Some "Milk") None)
                 (mkClient {["L" := Scenario.mirror_items]}
                           {["L" := Scenario.mirror_items]} {["L" := 0]}))))
  = Scenario.mirror_items ++ [OgDict (Some "n") (Some "Milk") None].
Proof.
  assert (Hc : coherent (mkClient {["L" := Scenario.mirror_items]}
                                  {["L" := Scenario.mirror_items]} {["L" := 0]})).
  { intros l items H. simpl in H. apply lookup_singleton_Some in H as [<- <-].
    unfold held. simpl. by rewrite lookup_singleton_eq. }
  destruct (list_items_cache_coherent _ Hc) as (_ & _ & _ & H).
  rewrite H. unfold held. simpl. by rewrite lookup_singleton_eq.
Defined.

End ItemCache.

Section SourceOutage.

Import QuantityFormatter Sync GrocyClient GrocySource.

(** X26: an outage of the source is not reported.  When every attempt
    to read the shopping list, up to [max_retries], ends in a server
    error, a connection error or a timeout, [get_shopping_list_items]
    answers [[]], and [sync_list] on that answer returns [True] without
    sending a request: nothing is created, updated or removed.  The
    connection test on the same answers would fail. *)
Theorem source_outage_is_silent (env : Env) (cfg : Config) (attempts : nat -> Attempt)
    (max_retries : Z) (body : Z -> list GrocyItem) (name : string) (st : State) :
  (forall j, (j <= Z.to_nat max_retries)%nat -> retried (attempts j) = true) ->
  get_shopping_list_items attempts max_retries body = []
  /\ sync_list env cfg (get_shopping_list_items attempts max_retries body) name st
     = (true, st)
  /\ test_connection attempts max_retries = false.
Proof.
  intros Hret. destruct (make_request_exhausted attempts max_retries Hret) as [_ H].
  unfold get_shopping_list_items, test_connection.
  by destruct H as [-> | ->].
Qed.

Lemma source_outage_is_silent_witness :
  sync_list Scenario.environment Scenario.config
    (get_shopping_list_items (fun _ => ConnectionFailed) 3 (fun _ => [Scenario.water]))
    "Shopping" (Scenario.state Scenario.stale_mirror_items)
  = (true, Scenario.state Scenario.stale_mirror_items).
Proof.
  destruct (source_outage_is_silent Scenario.environment Scenario.config
              (fun _ => ConnectionFailed) 3 (fun _ => [Scenario.water]) "Shopping"
              (Scenario.state Scenario.stale_mirror_items)) as (_ & H & _).
  - intros j _. reflexivity.
  - exact H.
Defined.

End SourceOutage.
